(** * tessenjs/type-gen: the localization type generator of [src/index.ts]

    A shallow embedding of the generator and the properties its design
    document states about it.

    Modelling conventions.
    - A JavaScript string is a [string]; a template literal is a chain of
      [++]; [Array.prototype.join] is [String.concat].
    - The regular expression literal of [extractParameters] is a term of a
      small regex syntax, run by a backtracking matcher with the priorities
      of ECMAScript (greedy quantifiers, leftmost alternative first); the
      [lastIndex] of the global regex is the suffix of the subject that is
      still to be searched.
    - A JavaScript value is a [Value]: the primitives and the ordinary
      objects that locale data is made of.  An object is the list of its own
      enumerable string-keyed properties in the order [Object.entries] lists
      them: array-index keys in ascending numeric order first, then the
      other keys in the order of their creation.  Arrays and functions are
      not part of locale data proper and are left out of [Value].
    - [deepMerge] mutates its first argument; on a [Value] the embedding
      passes the mutated object on as a result.  A [TypeError] is [Throw].
      A [Value] has the own properties of an object and nothing of its
      prototype: the merger on values is the code for data without a key
      [__proto__], and the statements about it say so.
    - [Js] has the objects of the engine: each object at a location, with
      its prototype, whether it is an array, and its own properties;
      [Object.prototype] with its methods and its accessor [__proto__];
      [key in obj], [obj[key]] and [obj[key] = value] along the prototype
      chain.  The merger, the emitter and the orchestrator run on these
      objects as the code does, also at a key [__proto__]; the depth of
      their calls is bounded by a fuel, and the proofs give the fuel that
      is enough.
    - [Own] is a device of the proofs: the merger on a heap of objects
      given by their own properties alone.  It is shown to be [Js.deepMerge]
      on objects that are not arrays, have [Object.prototype] as their
      prototype and no key [__proto__], and to give what the merger on
      values gives.
    - [Search] is the search for Tessen instances of [src/cli.ts], on a
      heap of objects and arrays that may hold cycles; the depth of its
      calls is bounded by a fuel, and the proofs give the fuel that is
      enough. *)

From Stdlib Require Import String Ascii List Arith Lia Bool NArith ZArith.
From Stdlib Require Import DecimalString DecimalNat.
From Equations Require Import Equations.
Import ListNotations.
Open Scope string_scope.

(* ================================================================== *)
(** ** Strings *)

(** ['  '.repeat(n)] *)
Fixpoint repeat_string (s : string) (n : nat) : string :=
  match n with
  | O => ""
  | S m => s ++ repeat_string s m
  end.

(** [array.push(x)] *)
Definition push {A : Type} (array : list A) (x : A) : list A :=
  (array ++ [x])%list.

(** The decimal numeral a template literal prints for a small
    non-negative integer. *)
Definition number_to_string (n : nat) : string :=
  NilEmpty.string_of_uint (Nat.to_uint n).

Definition is_digit (c : ascii) : bool :=
  let n := nat_of_ascii c in Nat.leb 48 n && Nat.leb n 57.

Definition LBRACE : ascii := "{"%char.
Definition RBRACE : ascii := "}"%char.
Definition COLON : ascii := ":"%char.

Definition not_rbrace (c : ascii) : bool := negb (Ascii.eqb c RBRACE).

(** The part of [s] before its suffix [rest]. *)
Definition consumed (s rest : string) : string :=
  substring 0 (String.length s - String.length rest) s.

Definition inspect {A : Type} (a : A) : {b : A | a = b} := exist _ a eq_refl.

(* ================================================================== *)
(** ** Regular expressions *)

Module RegExp.

(** The syntax that [/\{(\d+)(?::([^}]+))?\}/] needs. *)
Inductive regex : Type :=
| Chr (c : ascii)                 (* a literal character *)
| Plus (cls : ascii -> bool)      (* [X+] for a character class X, greedy *)
| Cat (r1 r2 : regex)             (* concatenation *)
| Opt (r : regex)                 (* [(?:r)?], greedy *)
| Group (n : nat) (r : regex).    (* the n-th capturing group *)

(** The capture groups that took part in the match; a group that did not
    is absent, which is [undefined] in the match array. *)
Definition captures := list (nat * string).

Fixpoint group (n : nat) (caps : captures) : option string :=
  match caps with
  | [] => None
  | (m, s) :: rest => if Nat.eqb n m then Some s else group n rest
  end.

(** What is matched after the current term: a continuation on the rest
    of the subject and the captures so far.  [None] is backtracking. *)
Definition cont (R : Type) : Type := string -> captures -> option R.

Section Matcher.
Context {R : Type}.

(** [X+]: take one character, then first try to take more. *)
Fixpoint plus (cls : ascii -> bool) (s : string) (caps : captures)
         (k : cont R) : option R :=
  match s with
  | String c s' =>
      if cls c then
        match plus cls s' caps k with
        | Some r => Some r
        | None => k s' caps
        end
      else None
  | EmptyString => None
  end.

Fixpoint run (r : regex) (s : string) (caps : captures) (k : cont R)
  : option R :=
  match r with
  | Chr c =>
      match s with
      | String c' s' => if Ascii.eqb c' c then k s' caps else None
      | EmptyString => None
      end
  | Plus cls => plus cls s caps k
  | Cat r1 r2 => run r1 s caps (fun s1 caps1 => run r2 s1 caps1 k)
  | Opt r1 =>
      match run r1 s caps k with
      | Some x => Some x
      | None => k s caps
      end
  | Group n r1 =>
      run r1 s caps (fun s1 caps1 => k s1 ((n, consumed s s1) :: caps1))
  end.
End Matcher.

(** A match: its capture groups and what follows it in the subject. *)
Definition match_at (r : regex) (s : string) : option (captures * string) :=
  run r s [] (fun rest caps => Some (caps, rest)).

(** [r.exec(value)] for a global [r] whose [lastIndex] is where [s]
    starts: the leftmost match in [s], and the new [lastIndex]. *)
Fixpoint exec (r : regex) (s : string) : option (captures * string) :=
  match match_at r s with
  | Some m => Some m
  | None =>
      match s with
      | String _ s' => exec r s'
      | EmptyString => None
      end
  end.

End RegExp.

(* ================================================================== *)
(** ** Placeholder parser *)

Record ExtractedParameter : Type := mkParameter {
  name : string;
  type : string
}.

(** [/\{(\d+)(?::([^}]+))?\}/g] *)
Definition paramRegex : RegExp.regex :=
  RegExp.Cat (RegExp.Chr LBRACE)
   (RegExp.Cat (RegExp.Group 1 (RegExp.Plus is_digit))
     (RegExp.Cat
        (RegExp.Opt (RegExp.Cat (RegExp.Chr COLON)
                                (RegExp.Group 2 (RegExp.Plus not_rbrace))))
        (RegExp.Chr RBRACE))).

(** [Set<string>] *)
Definition StringSet := list string.
Definition set_has (x : string) (s : StringSet) : bool :=
  existsb (String.eqb x) s.
Definition set_add (x : string) (s : StringSet) : StringSet :=
  if set_has x s then s else push s x.

(** [match[2] || `_${index}`] with [index = match[1]]. *)
Definition paramName_of (caps : RegExp.captures) : string :=
  let index :=
    match RegExp.group 1 caps with Some i => i | None => "undefined" end in
  match RegExp.group 2 caps with
  | Some label => if String.eqb label "" then "_" ++ index else label
  | None => "_" ++ index
  end.

(** Every match of [paramRegex] is non-empty (it starts with a brace), so
    the [lastIndex] of the loop below moves forward at each round. *)
Lemma plus_shorter (R : Type) (cls : ascii -> bool) (s : string)
      (caps : RegExp.captures) (k : RegExp.cont R) (x : R) :
  RegExp.plus cls s caps k = Some x ->
  exists s' caps', String.length s' < String.length s /\ k s' caps' = Some x.
Proof.
  induction s as [|c s IH]; simpl; [discriminate|].
  destruct (cls c); [|discriminate].
  destruct (RegExp.plus cls s caps k) eqn:E.
  - intros [= ->]. destruct (IH eq_refl) as (s' & caps' & Hl & Hk).
    exists s', caps'. split; [lia | exact Hk].
  - intros Hk. exists s, caps. split; [lia | exact Hk].
Qed.

Lemma run_shorter (R : Type) (r : RegExp.regex) :
  forall (s : string) (caps : RegExp.captures) (k : RegExp.cont R) (x : R),
    RegExp.run r s caps k = Some x ->
    exists s' caps', String.length s' <= String.length s /\ k s' caps' = Some x.
Proof.
  induction r as [c | cls | r1 IH1 r2 IH2 | r IH | n r IH];
    intros s caps k x; simpl.
  - destruct s as [|c' s]; [discriminate|].
    destruct (Ascii.eqb c' c); [|discriminate].
    intros Hk. exists s, caps. simpl. split; [lia | exact Hk].
  - intros H. apply plus_shorter in H. destruct H as (s' & caps' & Hl & Hk).
    exists s', caps'. split; [lia | exact Hk].
  - intros H. apply IH1 in H. destruct H as (s1 & caps1 & Hl1 & H).
    apply IH2 in H. destruct H as (s2 & caps2 & Hl2 & H).
    exists s2, caps2. split; [lia | exact H].
  - destruct (RegExp.run r s caps k) eqn:E.
    + intros [= ->]. apply IH in E. exact E.
    + intros Hk. exists s, caps. split; [lia | exact Hk].
  - intros H. apply IH in H. destruct H as (s1 & caps1 & Hl1 & H).
    exists s1, ((n, consumed s s1) :: caps1). split; [lia | exact H].
Qed.

Lemma match_at_Chr_shorter (c : ascii) (r : RegExp.regex) (s rest : string)
      (caps : RegExp.captures) :
  RegExp.match_at (RegExp.Cat (RegExp.Chr c) r) s = Some (caps, rest) ->
  String.length rest < String.length s.
Proof.
  unfold RegExp.match_at. simpl.
  destruct s as [|c' s]; [discriminate|].
  destruct (Ascii.eqb c' c); [|discriminate].
  intros H. apply run_shorter in H. destruct H as (s1 & caps1 & Hl & H).
  injection H as _ ->. simpl. lia.
Qed.

Lemma match_at_paramRegex_shorter (s rest : string) (caps : RegExp.captures) :
  RegExp.match_at paramRegex s = Some (caps, rest) ->
  String.length rest < String.length s.
Proof. apply match_at_Chr_shorter. Qed.

Lemma exec_paramRegex_shorter (s rest : string) (caps : RegExp.captures) :
  RegExp.exec paramRegex s = Some (caps, rest) ->
  String.length rest < String.length s.
Proof.
  induction s as [|c s IH]; cbn [RegExp.exec].
  - destruct (RegExp.match_at paramRegex "") eqn:E; [|discriminate].
    intros [= ->]. apply match_at_paramRegex_shorter in E. exact E.
  - destruct (RegExp.match_at paramRegex (String c s)) eqn:E.
    + intros [= ->]. apply match_at_paramRegex_shorter in E. exact E.
    + intros H. apply IH in H. simpl. lia.
Qed.

(** The [while ((match = paramRegex.exec(value)) !== null)] loop of
    [extractParameters]; [rest] is [value] from [lastIndex] on. *)
Equations? extractParameters_loop (rest : string) (seen : StringSet)
  (parameters : list ExtractedParameter)
  : list ExtractedParameter by wf (String.length rest) lt :=
extractParameters_loop rest seen parameters
  with inspect (RegExp.exec paramRegex rest) := {
  | exist _ None Hnone => parameters
  | exist _ (Some (caps, rest')) Hexec =>
      let paramName := paramName_of caps in
      if negb (set_has paramName seen)
      then extractParameters_loop rest' (set_add paramName seen)
             (push parameters (mkParameter paramName "string"))
      else extractParameters_loop rest' seen parameters }.
Proof.
  all: eapply exec_paramRegex_shorter; exact Hexec.
Qed.

Definition extractParameters (value : string) : list ExtractedParameter :=
  extractParameters_loop value [] [].

(* ================================================================== *)
(** ** Signature renderer *)

Definition generateFunctionSignature (value : string) : string :=
  let parameters := extractParameters value in
  if Nat.eqb (List.length parameters) 0 then "() => string"
  else
    let paramStrings :=
      map (fun param => name param ++ ": " ++ type param) parameters in
    "(" ++ String.concat ", " paramStrings ++ ") => string".

(* ================================================================== *)
(** ** JavaScript values and objects *)

#[warnings="-register-all"]
Inductive Value : Type :=
| VUndefined
| VNull
| VBoolean (b : bool)
| VNumber (n : Z)
| VString (s : string)
| VObject (props : list (string * Value)).

(** An ordinary object: its own properties, as [Object.entries] lists them. *)
Definition Obj : Type := list (string * Value).

Definition typeof (v : Value) : string :=
  match v with
  | VUndefined => "undefined"
  | VNull => "object"
  | VBoolean _ => "boolean"
  | VNumber _ => "number"
  | VString _ => "string"
  | VObject _ => "object"
  end.

Definition is_null (v : Value) : bool :=
  match v with VNull => true | _ => false end.

(** The value of a decimal numeral. *)
Fixpoint digits_value (s : string) (acc : N) : option N :=
  match s with
  | EmptyString => Some acc
  | String c s' =>
      if is_digit c
      then digits_value s' (10 * acc + (N_of_ascii c - 48))%N
      else None
  end.

Definition N_to_string (n : N) : string :=
  NilEmpty.string_of_uint (N.to_uint n).

(** An array index: the canonical numeral of an integer below 2^32 - 1.
    These are the keys that an object lists first, in numeric order. *)
Definition array_index (key : string) : option N :=
  match key with
  | EmptyString => None
  | _ =>
      match digits_value key 0 with
      | Some n =>
          if String.eqb (N_to_string n) key && (n <? 4294967295)%N
          then Some n else None
      | None => None
      end
  end.

(** The operations on the properties of an object do not depend on what
    the properties hold. *)
Section Properties.
Context {A : Type}.

(** The own property [key] of [o], if there is one. *)
Fixpoint get (key : string) (o : list (string * A)) : option A :=
  match o with
  | [] => None
  | (k, v) :: rest => if String.eqb k key then Some v else get key rest
  end.

(** [key in o], among the own properties of [o] *)
Definition has (key : string) (o : list (string * A)) : bool :=
  match get key o with Some _ => true | None => false end.

(** [Object.keys(o)] *)
Definition keys (o : list (string * A)) : list string := map fst o.

(** Assignment to a property that exists: its place is kept. *)
Fixpoint overwrite (key : string) (v : A) (o : list (string * A))
  : list (string * A) :=
  match o with
  | [] => []
  | (k, x) :: rest =>
      if String.eqb k key then (k, v) :: rest
      else (k, x) :: overwrite key v rest
  end.

(** A new array-index property goes before the first property that is
    not an array index or is a larger one. *)
Fixpoint insert_index (n : N) (key : string) (v : A) (o : list (string * A))
  : list (string * A) :=
  match o with
  | [] => [(key, v)]
  | (k, x) :: rest =>
      match array_index k with
      | Some m =>
          if (m <? n)%N then (k, x) :: insert_index n key v rest
          else (key, v) :: o
      | None => (key, v) :: o
      end
  end.

(** [o[key] = v] *)
Definition set (key : string) (v : A) (o : list (string * A))
  : list (string * A) :=
  if has key o then overwrite key v o
  else
    match array_index key with
    | Some n => insert_index n key v o
    | None => push o (key, v)
    end.

End Properties.

(** [o[key]] as an expression, among the own properties of [o] *)
Definition read (key : string) (o : Obj) : Value :=
  match get key o with Some v => v | None => VUndefined end.

(** ** Abrupt completion *)

Inductive Error : Type := TypeError.

Inductive Completion (A : Type) : Type :=
| Normal (a : A)
| Throw (e : Error).
Arguments Normal {A} a.
Arguments Throw {A} e.

Definition bind {A B : Type} (c : Completion A) (f : A -> Completion B)
  : Completion B :=
  match c with
  | Normal a => f a
  | Throw e => Throw e
  end.

Notation "x <- c ;; k" := (bind c (fun x => k))
  (at level 61, c at next level, right associativity).

Definition LF : string := String (ascii_of_nat 10) "".

(* ================================================================== *)
(** ** Declaration emitter *)

(** [processLocaleData(data, depth)]; the recursion is on the value that
    holds [data]. *)
Fixpoint processLocaleData_in (data : Value) (depth : nat) : string :=
  match data with
  | VObject entries =>
      let indent := repeat_string "  " (depth + 3) in
      let lines :=
        (fix loop (entries : Obj) (lines : list string) : list string :=
           match entries with
           | [] => lines
           | (key, value) :: rest =>
               match value with
               | VString template =>
                   let signature := generateFunctionSignature template in
                   loop rest
                     (push lines (indent ++ key ++ ": " ++ signature ++ ";"))
               | _ =>
                   if String.eqb (typeof value) "object" && negb (is_null value)
                   then
                     loop rest
                       (push (push (push lines (indent ++ key ++ ": {"))
                                   (processLocaleData_in value (depth + 1)))
                             (indent ++ "};"))
                   else loop rest lines
               end
           end) entries [] in
      String.concat LF lines
  | _ => ""
  end.

Definition processLocaleData (data : Obj) (depth : nat) : string :=
  processLocaleData_in (VObject data) depth.

(* ================================================================== *)
(** ** Tree merger *)

(** [deepMerge(target, source)] on values; the recursion is on the value
    that holds [source], and the result is [target] after the call.
    [key in target], [target[key]] and the assignments are those of the
    own properties of [target].  What [target] inherits from
    [Object.prototype] are callables, which the test of [typeof] treats as
    it treats a missing key, and the accessor [__proto__]: at a key
    [__proto__] the code reads and writes the prototype of [target], which
    a value does not have.  This function is the code for data without
    such a key; [Js.deepMerge] below is the code for all data. *)
Fixpoint deepMerge_in (source : Value) (target : Obj) : Completion Obj :=
  match source with
  | VObject entries =>
      (fix loop (entries : Obj) (target : Obj) : Completion Obj :=
         match entries with
         | [] => Normal target
         | (key, value) :: rest =>
             if String.eqb (typeof value) "object" && negb (is_null value)
             then
               let target1 :=
                 if negb (has key target)
                    || negb (String.eqb (typeof (read key target)) "object")
                 then set key (VObject []) target
                 else target in
               match read key target1 with
               | VObject child =>
                   child' <- deepMerge_in value child ;;
                   loop rest (overwrite key (VObject child') target1)
               | _ =>
                   (* [target[key]] is [null]: the first round of the inner
                      call fails on [key in target] *)
                   match value with
                   | VObject (_ :: _) => Throw TypeError
                   | _ => loop rest target1
                   end
               end
             else loop rest (set key value target)
         end) entries target
  | _ => Normal target
  end.

Definition deepMerge (target source : Obj) : Completion Obj :=
  deepMerge_in (VObject source) target.

(** [mergeLocaleData(...localeDataArray)] *)
Fixpoint mergeLocaleData_loop (localeDataArray : list Obj) (merged : Obj)
  : Completion Obj :=
  match localeDataArray with
  | [] => Normal merged
  | localeData :: rest =>
      merged' <- deepMerge merged localeData ;;
      mergeLocaleData_loop rest merged'
  end.

Definition mergeLocaleData (localeDataArray : list Obj) : Completion Obj :=
  mergeLocaleData_loop localeDataArray [].

(* ================================================================== *)
(** ** Source normalizer *)

(** What a locale of the Tessen library holds for one language once its
    templates are resolved: strings, callables, and objects of these. *)
#[warnings="-register-all"]
Inductive ContentValue : Type :=
| CString (s : string)
| CFunction (length : nat)                       (* [func.length] *)
| CObject (props : list (string * ContentValue))
| COther.

(** An entry of the private [contents] collection of a locale. *)
Record ContentEntry : Type := mkContentEntry {
  language : string;
  data : option Obj                    (* [None]: no [data], or a falsy one *)
}.

Record Locale : Type := mkLocale {
  contents : option (list (string * ContentEntry));
  content : list (string * ContentValue)
}.

(** A Tessen instance: [tessen.cache.locales], each locale identifier with
    the [data] of its cache entry. *)
Record Tessen : Type := mkTessen {
  cache_locales : list (string * Locale)
}.

Record TypeGenerationConfig : Type := mkConfig {
  tessens : list Tessen;
  outputPath : option string
}.

(** [Array.from({ length: paramCount }, (_, i) => `{${i}}`).join(' ')] *)
Definition extractParametersFromFunction (paramCount : nat) : string :=
  if Nat.eqb paramCount 0 then ""
  else
    let params :=
      map (fun i => "{" ++ number_to_string i ++ "}") (seq 0 paramCount) in
    String.concat " " params.

Fixpoint extractPlainDataFromContentValue (value : ContentValue) : Value :=
  match value with
  | CString s => VString s
  | CFunction paramCount => VString (extractParametersFromFunction paramCount)
  | CObject props =>
      VObject
        ((fix loop (entries : list (string * ContentValue)) (result : Obj)
            : Obj :=
            match entries with
            | [] => result
            | (key, subValue) :: rest =>
                if String.eqb key "length" || String.eqb key "name"
                   || String.eqb key "prototype"
                then loop rest result
                else
                  let extracted := extractPlainDataFromContentValue subValue in
                  if negb (is_null extracted)
                     && negb (String.eqb (typeof extracted) "undefined")
                  then loop rest (set key extracted result)
                  else loop rest result
            end) props [])
  | COther => VString ""
  end.

(** The loop over [rawContents] *)
Fixpoint merge_contents (rawContents : list (string * ContentEntry))
         (mergedData : Obj) : Completion Obj :=
  match rawContents with
  | [] => Normal mergedData
  | (_, contentEntry) :: rest =>
      match data contentEntry with
      | Some d =>
          mergedData' <- deepMerge mergedData d ;;
          merge_contents rest mergedData'
      | None => merge_contents rest mergedData
      end
  end.

(** The loop over [tessen.cache.locales] *)
Fixpoint merge_locales (locales : list (string * Locale)) (mergedData : Obj)
  : Completion Obj :=
  match locales with
  | [] => Normal mergedData
  | (_, locale) :: rest =>
      match contents locale with
      | Some rawContents =>
          mergedData' <- merge_contents rawContents mergedData ;;
          merge_locales rest mergedData'
      | None =>
          (* the first language only: the loop body ends in [break] *)
          match content locale with
          | (_, contentValue) :: _ =>
              match extractPlainDataFromContentValue contentValue with
              | VObject plainData =>
                  mergedData' <- deepMerge mergedData plainData ;;
                  merge_locales rest mergedData'
              | _ => merge_locales rest mergedData
              end
          | [] => merge_locales rest mergedData
          end
      end
  end.

Definition extractPlainLocaleDataFromTessen (tessen : Tessen)
  : Completion Obj :=
  merge_locales (cache_locales tessen) [].

(* ================================================================== *)
(** ** Orchestrator *)

Definition generateTessenDeclaration (tessen : Tessen)
           (clientIndex : option nat) : Completion string :=
  localeData <- extractPlainLocaleDataFromTessen tessen ;;
  let interfaceContent := processLocaleData localeData 0 in
  let clientSuffix :=
    match clientIndex with
    | Some i => " // Client " ++ number_to_string (i + 1)
    | None => ""
    end in
  Normal ("declare global {" ++ clientSuffix ++ LF
          ++ "  namespace Tessen {" ++ LF
          ++ "    interface Localization {" ++ LF
          ++ interfaceContent ++ LF
          ++ "    }" ++ LF
          ++ "  }" ++ LF
          ++ "}" ++ LF
          ++ "    " ++ LF
          ++ "export { };").

(** The [for (let i = 0; i < config.tessens.length; i++)] loop *)
Equations? generateLocalizationTypes_loop (config : TypeGenerationConfig)
  (i : nat) (declarations : list string)
  : Completion (list string)
  by wf (List.length (tessens config) - i) lt :=
generateLocalizationTypes_loop config i declarations
  with inspect (Nat.ltb i (List.length (tessens config))) := {
  | exist _ false _ => Normal declarations
  | exist _ true Hlt with nth_error (tessens config) i := {
    | None => Throw TypeError
    | Some tessen
        with generateTessenDeclaration tessen
               (if Nat.ltb 1 (List.length (tessens config))
                then Some i else None) := {
      | Throw e => Throw e
      | Normal declaration =>
          generateLocalizationTypes_loop config (i + 1)
            (push declarations declaration) } } }.
Proof. apply Nat.ltb_lt in Hlt. lia. Qed.

Definition generateLocalizationTypes (config : TypeGenerationConfig)
  : Completion string :=
  declarations <- generateLocalizationTypes_loop config 0 [] ;;
  Normal (String.concat (LF ++ LF) declarations).

(* ================================================================== *)
(** ** Configuration *)

(** The first argument of [createTypeGenerationConfig], of type
    [Tessen | Tessen[]]. *)
Inductive TessenOrArray : Type :=
| OneTessen (tessen : Tessen)
| TessenArray (array : list Tessen).

(** [createTypeGenerationConfig(tessens, outputPath)] *)
Definition createTypeGenerationConfig (tessens : TessenOrArray)
           (outputPath : option string) : TypeGenerationConfig :=
  mkConfig
    (match tessens with
     | TessenArray array => array      (* [Array.isArray(tessens)] *)
     | OneTessen tessen => [tessen]
     end)
    outputPath.

(* ================================================================== *)
(** ** Instance search of the command line

    [findTessenInstances] of [src/cli.ts] walks what a module exports and
    collects the Tessen instances, which are then the [tessens] of the
    configuration.  The exports may share objects and hold cycles, and the
    search keeps the set of the objects it has met: the model has a heap
    of objects and arrays, values that refer to them by location, and the
    set [visited] passed from call to call.  An object has its own
    enumerable properties, as [Object.entries] lists them, or, for an
    array, its elements; what it inherits is left out but for the name of
    its constructor. *)

Module Search.

Inductive Item : Type :=
| IUndefined
| INull
| IBoolean (b : bool)
| INumber (n : Z)
| IString (s : string)
| IFunction
| IObject (l : nat).

Record Cell : Type := mkCell {
  is_array : bool;                      (* [Array.isArray(obj)] *)
  constructor_name : option string;     (* [obj.constructor.name], if any *)
  entries : list (string * Item)
}.

Definition Heap : Type := list Cell.

(** [!!v] *)
Definition truthy (v : Item) : bool :=
  match v with
  | IUndefined => false
  | INull => false
  | IBoolean b => b
  | INumber n => negb (Z.eqb n 0)
  | IString s => negb (String.eqb s "")
  | IFunction => true
  | IObject _ => true
  end.

Definition typeof (v : Item) : string :=
  match v with
  | IUndefined => "undefined"
  | INull => "object"
  | IBoolean _ => "boolean"
  | INumber _ => "number"
  | IString _ => "string"
  | IFunction => "function"
  | IObject _ => "object"
  end.

(** The object at a location; a location outside the heap stands for an
    object without properties. *)
Definition cell (h : Heap) (l : nat) : Cell := nth l h (mkCell false None []).

(** [v.key], for a [v] that is neither [undefined] nor [null] *)
Definition property (h : Heap) (v : Item) (key : string) : Item :=
  match v with
  | IObject l =>
      match get key (entries (cell h l)) with
      | Some x => x
      | None => IUndefined
      end
  | _ => IUndefined
  end.

(** [isTessenInstance(obj)], as a condition *)
Definition isTessenInstance (h : Heap) (obj : Item) : bool :=
  if negb (truthy obj) || negb (String.eqb (typeof obj) "object") then false
  else
    match obj with
    | IObject l =>
        if match constructor_name (cell h l) with
           | Some cname => String.eqb cname "Tessen"
           | None => false
           end
        then true
        else
          (* [obj.cache && obj.cache.locales] *)
          let cache := property h obj "cache" in
          if truthy cache then truthy (property h cache "locales") else false
    | _ => false
    end.

(** The keys that the search passes over in an object that is not an
    array. *)
Definition skipped (key : string) : bool :=
  String.eqb key "length" || String.eqb key "name"
  || String.eqb key "prototype" || String.eqb key "__proto__".

(** [visited.has(obj)] *)
Definition visited_has (l : nat) (visited : list nat) : bool :=
  existsb (Nat.eqb l) visited.

(** [findTessenInstances(obj, visited)]: what is found, as locations, and
    [visited] after the call.  [fuel] bounds the depth of the calls. *)
Fixpoint findTessenInstances (fuel : nat) (h : Heap) (obj : Item)
         (visited : list nat) : option (list nat * list nat) :=
  match fuel with
  | O => None
  | S fuel' =>
      if negb (truthy obj) || negb (String.eqb (typeof obj) "object")
      then Some ([], visited)
      else
        match obj with
        | IObject l =>
            if visited_has l visited then Some ([], visited)
            else
              let visited := l :: visited in
              if isTessenInstance h obj then Some ([l], visited)
              else
                let array := is_array (cell h l) in
                (fix loop (items : list (string * Item)) (found : list nat)
                     (visited : list nat) : option (list nat * list nat) :=
                   match items with
                   | [] => Some (found, visited)
                   | (key, value) :: rest =>
                       if negb array && skipped key
                       then loop rest found visited
                       else
                         match findTessenInstances fuel' h value visited with
                         | Some (sub, visited') =>
                             loop rest (found ++ sub)%list visited'
                         | None => None
                         end
                   end) (entries (cell h l)) [] visited
        | _ => Some ([], visited)     (* no other value passes the test *)
        end
  end.

End Search.

(* ================================================================== *)
(** * The merger and the emitter on the objects of the engine

    [deepMerge] reads and writes properties with [key in target],
    [target[key]] and [target[key] = value], which follow the prototype
    chain: every object inherits from [Object.prototype], whose accessor
    [__proto__] gives and sets the prototype of the object it is used on.
    This part has the objects at locations, each with its prototype, the
    two prototypes that the engine provides, and the same functions on
    them.  What is left out: an assignment to a property of an array (or a
    callable as a prototype), where the embedding stops with [Beyond];
    properties with accessors of their own, and objects that are frozen. *)

Module Js.

Inductive Loc : Type :=
| ObjectPrototype
| ArrayPrototype
| At (l : nat).

Definition Loc_eqb (a b : Loc) : bool :=
  match a, b with
  | ObjectPrototype, ObjectPrototype => true
  | ArrayPrototype, ArrayPrototype => true
  | At l, At l' => Nat.eqb l l'
  | _, _ => false
  end.

(** What a property holds: a primitive, a callable, or a reference to an
    object or an array. *)
Inductive Ref : Type :=
| RUndefined
| RNull
| RBoolean (b : bool)
| RNumber (n : Z)
| RString (s : string)
| RFunction
| RObject (l : Loc).

Record Cell : Type := mkCell {
  is_array : bool;                    (* [Array.isArray] *)
  prototype : option Loc;             (* [None] is [null] *)
  hidden : list (string * Ref);       (* own properties, not enumerable *)
  props : list (string * Ref)         (* own properties, enumerable, in the
                                         order of [Object.entries] *)
}.

(** The objects: the two prototypes, and the others in the order of their
    creation. *)
Record World : Type := mkWorld {
  object_prototype : Cell;
  array_prototype : Cell;
  heap : list Cell
}.

(** How a call ends: with a result, with an error, at an assignment that
    the embedding leaves out, or not within the depth allowed. *)
Inductive Outcome (A : Type) : Type :=
| Done (w : World) (a : A)
| Raised (w : World) (e : Error)
| Beyond
| Unfinished.
Arguments Done {A} w a.
Arguments Raised {A} w e.
Arguments Beyond {A}.
Arguments Unfinished {A}.

Definition typeof (r : Ref) : string :=
  match r with
  | RUndefined => "undefined"
  | RNull => "object"
  | RBoolean _ => "boolean"
  | RNumber _ => "number"
  | RString _ => "string"
  | RFunction => "function"
  | RObject _ => "object"
  end.

Definition is_null (r : Ref) : bool :=
  match r with RNull => true | _ => false end.

Definition cell (w : World) (l : Loc) : option Cell :=
  match l with
  | ObjectPrototype => Some (object_prototype w)
  | ArrayPrototype => Some (array_prototype w)
  | At n => nth_error (heap w) n
  end.

(** [Array.isArray(r)] *)
Definition isArray (w : World) (r : Ref) : bool :=
  match r with
  | RObject l =>
      match cell w l with Some c => is_array c | None => false end
  | _ => false
  end.

Fixpoint write {A : Type} (l : nat) (x : A) (h : list A) {struct h} : list A :=
  match h with
  | [] => []
  | y :: rest =>
      match l with
      | O => x :: rest
      | S l' => y :: write l' x rest
      end
  end.

(** The world after the object at [l] has become [c]. *)
Definition put (w : World) (l : Loc) (c : Cell) : World :=
  match l with
  | ObjectPrototype => mkWorld c (array_prototype w) (heap w)
  | ArrayPrototype => mkWorld (object_prototype w) c (heap w)
  | At n => mkWorld (object_prototype w) (array_prototype w)
                    (write n c (heap w))
  end.

(** The own property [key] of an object. *)
Definition own (c : Cell) (key : string) : option Ref :=
  match get key (props c) with
  | Some r => Some r
  | None => get key (hidden c)
  end.

(** What the prototype chain has for a key: a data property of the object
    [holder], the accessor [__proto__] of [Object.prototype], or nothing. *)
Inductive Property : Type :=
| Data (r : Ref) (holder : Loc)
| ProtoAccessor
| Absent.

Fixpoint lookup (n : nat) (w : World) (l : Loc) (key : string) : Property :=
  match n with
  | O => Absent
  | S n' =>
      match cell w l with
      | None => Absent
      | Some c =>
          match own c key with
          | Some r => Data r l
          | None =>
              if Loc_eqb l ObjectPrototype && String.eqb key "__proto__"
              then ProtoAccessor
              else
                match prototype c with
                | Some p => lookup n' w p key
                | None => Absent
                end
          end
      end
  end.

(** No chain is longer than the number of the objects. *)
Definition chain_bound (w : World) : nat := 3 + List.length (heap w).

Definition find (w : World) (l : Loc) (key : string) : Property :=
  lookup (chain_bound w) w l key.

(** [key in obj], for the object at [l] *)
Definition key_in (w : World) (l : Loc) (key : string) : bool :=
  match find w l key with
  | Absent => false
  | _ => true
  end.

(** [obj[key]] as an expression *)
Definition read (w : World) (l : Loc) (key : string) : Ref :=
  match find w l key with
  | Data r _ => r
  | ProtoAccessor =>
      (* the getter: the prototype of the object *)
      match cell w l with
      | Some c =>
          match prototype c with Some p => RObject p | None => RNull end
      | None => RUndefined
      end
  | Absent => RUndefined
  end.

(** [target] is on the prototype chain that starts at [l]. *)
Fixpoint in_chain (n : nat) (w : World) (l target : Loc) : bool :=
  match n with
  | O => false
  | S n' =>
      Loc_eqb l target
      || match cell w l with
         | Some c =>
             match prototype c with
             | Some p => in_chain n' w p target
             | None => false
             end
         | None => false
         end
  end.

(** A new enumerable property, or a new value of an enumerable one. *)
Definition define (key : string) (r : Ref) (c : Cell) : Cell :=
  mkCell (is_array c) (prototype c) (hidden c) (set key r (props c)).

(** A new value of a property that is not enumerable. *)
Definition redefine_hidden (key : string) (r : Ref) (c : Cell) : Cell :=
  mkCell (is_array c) (prototype c) (overwrite key r (hidden c)) (props c).

Definition with_prototype (p : option Loc) (c : Cell) : Cell :=
  mkCell (is_array c) p (hidden c) (props c).

(** [obj.__proto__ = r] where the accessor is inherited: the setter of
    [Object.prototype.__proto__] on the object at [l] *)
Definition set_prototype (w : World) (l : Loc) (c : Cell) (r : Ref)
  : Outcome unit :=
  match r with
  | RNull => Done (put w l (with_prototype None c)) tt
  | RObject p =>
      match prototype c with
      | Some p' =>
          if Loc_eqb p p' then Done w tt
          else if Loc_eqb l ObjectPrototype || in_chain (chain_bound w) w p l
               then Raised w TypeError
               else Done (put w l (with_prototype (Some p) c)) tt
      | None =>
          if Loc_eqb l ObjectPrototype || in_chain (chain_bound w) w p l
          then Raised w TypeError
          else Done (put w l (with_prototype (Some p) c)) tt
      end
  | RFunction =>
      if Loc_eqb l ObjectPrototype then Raised w TypeError else Beyond
  | _ => Done w tt              (* what is not an object is ignored *)
  end.

(** [obj[key] = r], for the object at [l] *)
Definition assign (w : World) (l : Loc) (key : string) (r : Ref)
  : Outcome unit :=
  match cell w l with
  | None => Done w tt
  | Some c =>
      match find w l key with
      | ProtoAccessor => set_prototype w l c r
      | Data _ holder =>
          if is_array c then Beyond
          else if Loc_eqb holder l
               then
                 if has key (props c) then Done (put w l (define key r c)) tt
                 else Done (put w l (redefine_hidden key r c)) tt
               else Done (put w l (define key r c)) tt
      | Absent =>
          if is_array c then Beyond else Done (put w l (define key r c)) tt
      end
  end.

(** [{}] *)
Definition alloc (w : World) : Loc * World :=
  (At (List.length (heap w)),
   mkWorld (object_prototype w) (array_prototype w)
           (heap w ++ [mkCell false (Some ObjectPrototype) [] []])%list).

(** [deepMerge(target, source)], with [source] the location of an object;
    [fuel] bounds the depth of the calls. *)
Fixpoint deepMerge (fuel : nat) (target : Ref) (source : Loc) (w : World)
  : Outcome unit :=
  match fuel with
  | O => Unfinished
  | S fuel' =>
      match cell w source with
      | None => Raised w TypeError
      | Some sc =>
          (* [Object.entries(source)] is read once, before the loop *)
          (fix loop (entries : list (string * Ref)) (w : World)
             : Outcome unit :=
             match entries with
             | [] => Done w tt
             | (key, value) :: rest =>
                 match target with
                 | RObject tl =>
                     match cell w tl with
                     | None => Raised w TypeError
                     | Some _ =>
                         if String.eqb (typeof value) "object"
                            && negb (is_null value)
                            && negb (isArray w value)
                         then
                           let made :=
                             if negb (key_in w tl key)
                                || negb (String.eqb
                                           (typeof (read w tl key)) "object")
                             then
                               let (l, w') := alloc w in
                               assign w' tl key (RObject l)
                             else Done w tt in
                           match made, value with
                           | Done w1 _, RObject sl =>
                               match deepMerge fuel' (read w1 tl key) sl w1
                               with
                               | Done w2 _ => loop rest w2
                               | other => other
                               end
                           | Done w1 _, _ => Raised w1 TypeError
                           | other, _ => other
                           end
                         else
                           match assign w tl key value with
                           | Done w1 _ => loop rest w1
                           | other => other
                           end
                     end
                 | _ =>
                     (* [key in target], or the assignment, on what is
                        not an object *)
                     Raised w TypeError
                 end
             end) (props sc) w
      end
  end.

(** The loop of [mergeLocaleData], and of [extractPlainLocaleDataFromTessen],
    over the objects that are merged. *)
Fixpoint merge_all (fuel : nat) (merged : Loc) (sources : list Loc)
         (w : World) : Outcome unit :=
  match sources with
  | [] => Done w tt
  | source :: rest =>
      match deepMerge fuel (RObject merged) source w with
      | Done w' _ => merge_all fuel merged rest w'
      | other => other
      end
  end.

(** [mergeLocaleData(...localeDataArray)] *)
Definition mergeLocaleData (fuel : nat) (localeDataArray : list Loc)
           (w : World) : Outcome Loc :=
  let (merged, w0) := alloc w in
  match merge_all fuel merged localeDataArray w0 with
  | Done w' _ => Done w' merged
  | Raised w' e => Raised w' e
  | Beyond => Beyond
  | Unfinished => Unfinished
  end.

(** [processLocaleData(data, depth)], for the object at [data] *)
Fixpoint processLocaleData (fuel : nat) (w : World) (data : Loc) (depth : nat)
  : option string :=
  match fuel with
  | O => None
  | S fuel' =>
      match cell w data with
      | None => None
      | Some c =>
          let indent := repeat_string "  " (depth + 3) in
          match
            (fix loop (entries : list (string * Ref)) (lines : list string)
               : option (list string) :=
               match entries with
               | [] => Some lines
               | (key, value) :: rest =>
                   match value with
                   | RString template =>
                       let signature := generateFunctionSignature template in
                       loop rest
                         (push lines
                               (indent ++ key ++ ": " ++ signature ++ ";"))
                   | RObject l =>
                       match processLocaleData fuel' w l (depth + 1) with
                       | Some inner =>
                           loop rest
                             (push (push (push lines (indent ++ key ++ ": {"))
                                         inner)
                                   (indent ++ "};"))
                       | None => None
                       end
                   | _ => loop rest lines
                   end
               end) (props c) []
          with
          | Some lines => Some (String.concat LF lines)
          | None => None
          end
      end
  end.

(** [generateTessenDeclaration(tessen, clientIndex)], for a Tessen given
    by the objects that its normalization merges, in the order of the
    merges. *)
Definition generateTessenDeclaration (fuel : nat) (tessen : list Loc)
           (clientIndex : option nat) (w : World) : Outcome string :=
  match mergeLocaleData fuel tessen w with
  | Done w' localeData =>
      match processLocaleData fuel w' localeData 0 with
      | Some interfaceContent =>
          let clientSuffix :=
            match clientIndex with
            | Some i => " // Client " ++ number_to_string (i + 1)
            | None => ""
            end in
          Done w'
               ("declare global {" ++ clientSuffix ++ LF
                ++ "  namespace Tessen {" ++ LF
                ++ "    interface Localization {" ++ LF
                ++ interfaceContent ++ LF
                ++ "    }" ++ LF
                ++ "  }" ++ LF
                ++ "}" ++ LF
                ++ "    " ++ LF
                ++ "export { };")
      | None => Unfinished
      end
  | Raised w' e => Raised w' e
  | Beyond => Beyond
  | Unfinished => Unfinished
  end.

(** The loop of [generateLocalizationTypes], from the Tessen of index
    [i] on. *)
Fixpoint declarations_from (fuel : nat) (count i : nat)
         (tessens : list (list Loc)) (declarations : list string) (w : World)
  : Outcome (list string) :=
  match tessens with
  | [] => Done w declarations
  | tessen :: rest =>
      match generateTessenDeclaration fuel tessen
              (if Nat.ltb 1 count then Some i else None) w with
      | Done w' declaration =>
          declarations_from fuel count (i + 1) rest
                            (push declarations declaration) w'
      | Raised w' e => Raised w' e
      | Beyond => Beyond
      | Unfinished => Unfinished
      end
  end.

(** [generateLocalizationTypes(config)] *)
Definition generateLocalizationTypes (fuel : nat) (tessens : list (list Loc))
           (w : World) : Outcome string :=
  match declarations_from fuel (List.length tessens) 0 tessens [] w with
  | Done w' declarations => Done w' (String.concat (LF ++ LF) declarations)
  | Raised w' e => Raised w' e
  | Beyond => Beyond
  | Unfinished => Unfinished
  end.

(** The prototypes as the engine provides them: the methods of
    [Object.prototype], and an [Array.prototype] with some of its own. *)
Definition realm : World :=
  mkWorld
    (mkCell false None
       (map (fun name => (name, RFunction))
            ["constructor"; "__defineGetter__"; "__defineSetter__";
             "hasOwnProperty"; "__lookupGetter__"; "__lookupSetter__";
             "isPrototypeOf"; "propertyIsEnumerable"; "toString";
             "valueOf"; "toLocaleString"])
       [])
    (mkCell true (Some ObjectPrototype)
       (("length", RNumber 0)
        :: map (fun name => (name, RFunction))
               ["constructor"; "concat"; "join"; "map"; "push"; "slice"])
       [])
    [].

(** An object as [JSON.parse] makes it: its members are own properties,
    also a member [__proto__], and its prototype is [Object.prototype]. *)
Definition parsed (members : list (string * Ref)) : Cell :=
  mkCell false (Some ObjectPrototype) [] members.

(** The objects of a process that has only parsed [objects] so far. *)
Definition process_with (objects : list Cell) : World :=
  mkWorld (object_prototype realm) (array_prototype realm) objects.

End Js.

(* ================================================================== *)
(** * The design document's reading of the parser *)

(** A placeholder as the design document describes it: its index as
    written, and its label if it has one. *)
Record Placeholder : Type := mkPlaceholder {
  index : string;
  label : option string
}.

Fixpoint string_forallb (p : ascii -> bool) (s : string) : bool :=
  match s with
  | EmptyString => true
  | String c s' => p c && string_forallb p s'
  end.

(** [placeholder_text p text]: [text] is the placeholder [p] written out,
    "open brace, one or more digits, optionally a colon followed by one or
    more non-close-brace characters, close brace". *)
Inductive placeholder_text : Placeholder -> string -> Prop :=
| text_plain (digits : string) :
    digits <> "" -> string_forallb is_digit digits = true ->
    placeholder_text (mkPlaceholder digits None) ("{" ++ digits ++ "}")
| text_labelled (digits lab : string) :
    digits <> "" -> string_forallb is_digit digits = true ->
    lab <> "" -> string_forallb not_rbrace lab = true ->
    placeholder_text (mkPlaceholder digits (Some lab))
                     ("{" ++ digits ++ ":" ++ lab ++ "}").

(** [s] starts with a placeholder. *)
Definition starts_with_placeholder (s : string) : Prop :=
  exists p text rest, placeholder_text p text /\ s = text ++ rest.

(** [occurrences s ps]: [ps] are the placeholders met when [s] is read
    from left to right, each match resuming after the previous one. *)
Inductive occurrences : string -> list Placeholder -> Prop :=
| occ_end : occurrences "" []
| occ_skip (c : ascii) (s : string) (ps : list Placeholder) :
    ~ starts_with_placeholder (String c s) ->
    occurrences s ps ->
    occurrences (String c s) ps
| occ_match (p : Placeholder) (text rest : string) (ps : list Placeholder) :
    placeholder_text p text ->
    occurrences rest ps ->
    occurrences (text ++ rest) (p :: ps).

(** "the label if present, else [_] concatenated with the digit run" *)
Definition placeholder_name (p : Placeholder) : string :=
  match label p with
  | Some lab => lab
  | None => "_" ++ index p
  end.

(** The names of a list in the order of their first occurrence, those in
    [earlier] counting as met already. *)
Fixpoint first_seen_after (earlier names : list string) : list string :=
  match names with
  | [] => []
  | n :: rest =>
      if existsb (String.eqb n) earlier then first_seen_after earlier rest
      else n :: first_seen_after (n :: earlier) rest
  end.

Definition first_seen (names : list string) : list string :=
  first_seen_after [] names.

Definition string_parameter (n : string) : ExtractedParameter :=
  mkParameter n "string".

(** The longest prefix of [s] in the class [cls], and what follows it. *)
Fixpoint span (cls : ascii -> bool) (s : string) : string * string :=
  match s with
  | EmptyString => ("", "")
  | String c s' =>
      if cls c then let (pre, post) := span cls s' in (String c pre, post)
      else ("", s)
  end.

(** The placeholder that [s] starts with, and what follows it. *)
Definition placeholder_at (s : string) : option (Placeholder * string) :=
  match s with
  | String c s1 =>
      if Ascii.eqb c LBRACE then
        let (digits, post) := span is_digit s1 in
        match digits, post with
        | String _ _, String c2 s2 =>
            if Ascii.eqb c2 COLON then
              let (lab, post2) := span not_rbrace s2 in
              match lab, post2 with
              | String _ _, String _ s3 =>
                  Some (mkPlaceholder digits (Some lab), s3)
              | _, _ => None
              end
            else if Ascii.eqb c2 RBRACE
                 then Some (mkPlaceholder digits None, s2)
                 else None
        | _, _ => None
        end
      else None
  | EmptyString => None
  end.

(** The match array of a placeholder. *)
Definition captures_of (p : Placeholder) : RegExp.captures :=
  match label p with
  | Some lab => [(2, lab); (1, index p)]
  | None => [(1, index p)]
  end.

(* ================================================================== *)
(** * The design document's reading of the renderer and the emitter *)

(** "zero parameters render as a thunk returning a string result; one or
    more parameters render as a parameter list, each rendered as
    [name: string] in the order supplied, followed by a return type of
    string" *)
Definition signature_text (names : list string) : string :=
  match names with
  | [] => "() => string"
  | _ =>
      "(" ++ String.concat ", " (map (fun n => n ++ ": string") names)
          ++ ") => string"
  end.

(** One indentation level is two spaces; the body of the interface starts
    three levels in. *)
Definition indentation (depth : nat) : string :=
  "      " ++ repeat_string "  " depth.

(** The lines of a Shape Tree at depth [depth], key by key: a Leaf is one
    line, a Branch is an opening line, the rendering of its children one
    level deeper, and a closing line. *)
Fixpoint rendering (data : Value) (depth : nat) : string :=
  match data with
  | VObject entries =>
      String.concat LF
        (flat_map
           (fun entry : string * Value =>
              let (key, value) := entry in
              match value with
              | VString template =>
                  [indentation depth ++ key ++ ": "
                     ++ signature_text (map name (extractParameters template))
                     ++ ";"]
              | VObject _ =>
                  [indentation depth ++ key ++ ": {";
                   rendering value (S depth);
                   indentation depth ++ "};"]
              | _ => []
              end) entries)
  | _ => ""
  end.

(* ================================================================== *)
(** * The design document's reading of the data and of the merger *)

Fixpoint distinct (ks : list string) : bool :=
  match ks with
  | [] => true
  | k :: rest => negb (existsb (String.eqb k) rest) && distinct rest
  end.

(** A Shape Node: a Leaf (a template string) or a Branch (a mapping from
    keys, each occurring once, to Shape Nodes). *)
Fixpoint shape (v : Value) : bool :=
  match v with
  | VString _ => true
  | VObject props =>
      distinct (keys props) && forallb (fun kv => shape (snd kv)) props
  | _ => false
  end.

(** The Branch that [o] has at [key], the empty Branch if it has none
    ("replacing any non-Branch value, including absence, with an empty
    Branch"). *)
Definition branch_of (key : string) (o : Obj) : Obj :=
  match get key o with
  | Some (VObject child) => child
  | _ => []
  end.

(** The Branch reached from [o] by the keys of [path], if there is one. *)
Fixpoint branch_at (path : list string) (o : Obj) : option Obj :=
  match path with
  | [] => Some o
  | key :: path' =>
      match get key o with
      | Some (VObject child) => branch_at path' child
      | _ => None
      end
  end.

(** No key, at any depth, is an array index. *)
Fixpoint plain_keys (v : Value) : bool :=
  match v with
  | VObject props =>
      forallb
        (fun kv =>
           match array_index (fst kv) with Some _ => false | None => true end
           && plain_keys (snd kv)) props
  | _ => true
  end.


(** What the merge leaves at [key]: the incoming Leaf; or a Branch, the
    merge of the incoming Branch into the Branch that was there (into an
    empty one if none was); or, for a key that is not incoming, what was
    there. *)
Definition merged_at (target source merged : Obj) (key : string) : Prop :=
  match get key source with
  | None => get key merged = get key target
  | Some (VObject sub) =>
      exists child,
        deepMerge (branch_of key target) sub = Normal child
        /\ get key merged = Some (VObject child)
  | Some leaf => get key merged = Some leaf
  end.

(** The Branch of [o] at [path], the empty Branch if it has none. *)
Definition branch_or_empty (path : list string) (o : Obj) : Obj :=
  match branch_at path o with
  | Some b => b
  | None => []
  end.

(* ================================================================== *)
(** * The design document's reading of the orchestrator *)

(** The declaration block of one Shape Tree, line by line: the opening
    line with its annotation, the body, the closing lines, and the
    empty-exports marker. *)
Definition declaration_block (annotation body : string) : string :=
  String.concat LF
    ["declare global {" ++ annotation;
     "  namespace Tessen {";
     "    interface Localization {";
     body;
     "    }";
     "  }";
     "}";
     "    ";
     "export { };"].

(** "tag the block with client [i+1] only when the Source list has length
    > 1" *)
Definition client_annotation (count i : nat) : string :=
  if Nat.ltb 1 count then " // Client " ++ number_to_string (i + 1) else "".

(** The blocks of the normalized trees of a run of [count] Sources, from
    the [i]-th on, in their order; the first tree that could not be
    normalized ends the run. *)
Fixpoint client_blocks (count i : nat) (trees : list (Completion Obj))
  : Completion (list string) :=
  match trees with
  | [] => Normal []
  | tree :: rest =>
      localeData <- tree ;;
      blocks <- client_blocks count (S i) rest ;;
      Normal (declaration_block (client_annotation count i)
                                (processLocaleData localeData 0) :: blocks)
  end.

(** One blank line between two blocks. *)
Definition blank_line_join (blocks : list string) : string :=
  String.concat (LF ++ LF) blocks.

(* ================================================================== *)
(** * The merger on own properties

    A device of the proofs, between [Js.deepMerge] and the merger on
    values: a heap of objects that are given by their own enumerable
    properties, with [key in target] and [target[key]] looked up among
    these alone.  This is not the code at a key [__proto__], nor on an
    array: it has no prototypes.  The proofs show that [Js.deepMerge] is
    this function on objects that are not arrays, have [Object.prototype]
    as their prototype and no key [__proto__]; that it writes to the
    accumulator and to the objects it creates itself, and to nothing else;
    and that its accumulator holds what the merger on values returns. *)

Module Own.

(** What a property holds: a primitive, or a reference to the object at a
    location of the heap. *)
Inductive Ref : Type :=
| RUndefined
| RNull
| RBoolean (b : bool)
| RNumber (n : Z)
| RString (s : string)
| RObject (l : nat).

Definition Props : Type := list (string * Ref).

(** The heap: the objects created so far, in the order of their creation;
    a location is a position in this list. *)
Definition Heap : Type := list Props.

Definition typeof (r : Ref) : string :=
  match r with
  | RUndefined => "undefined"
  | RNull => "object"
  | RBoolean _ => "boolean"
  | RNumber _ => "number"
  | RString _ => "string"
  | RObject _ => "object"
  end.

Definition is_null (r : Ref) : bool :=
  match r with RNull => true | _ => false end.

(** [o[key]] as an expression *)
Definition read (key : string) (o : Props) : Ref :=
  match get key o with Some r => r | None => RUndefined end.

(** [{}]: a new object, at the next location. *)
Definition alloc (h : Heap) : nat * Heap :=
  (List.length h, (h ++ [[]])%list).

(** The heap after the object at [l] has become [props]. *)
Fixpoint write (l : nat) (props : Props) (h : Heap) {struct h} : Heap :=
  match h with
  | [] => []
  | o :: rest =>
      match l with
      | O => props :: rest
      | S l' => o :: write l' props rest
      end
  end.

(** [target[key] = r] *)
Definition assign (target : nat) (key : string) (r : Ref) (h : Heap) : Heap :=
  match nth_error h target with
  | Some props => write target (set key r props) h
  | None => h
  end.

(** [deepMerge(target, source)] on the heap [h], with [source] the location
    of an object.  The result is the heap after the call, and how the call
    completed; [None] is a call that has not returned within [fuel] nested
    calls. *)
Fixpoint deepMerge (fuel : nat) (target : Ref) (source : nat) (h : Heap)
  : option (Heap * Completion unit) :=
  match fuel with
  | O => None
  | S fuel' =>
      match nth_error h source with
      | None => Some (h, Throw TypeError)
      | Some entries =>
          (fix loop (entries : Props) (h : Heap)
             : option (Heap * Completion unit) :=
             match entries with
             | [] => Some (h, Normal tt)
             | (key, value) :: rest =>
                 match target with
                 | RObject tl =>
                     match nth_error h tl with
                     | None => Some (h, Throw TypeError)
                     | Some props =>
                         match value with
                         | RObject sl =>
                             let h1 :=
                               if negb (has key props)
                                  || negb (String.eqb
                                             (typeof (read key props))
                                             "object")
                               then
                                 let (l, h') := alloc h in
                                 assign tl key (RObject l) h'
                               else h in
                             let child :=
                               match nth_error h1 tl with
                               | Some props1 => read key props1
                               | None => RUndefined
                               end in
                             match deepMerge fuel' child sl h1 with
                             | Some (h2, Normal _) => loop rest h2
                             | Some (h2, Throw e) => Some (h2, Throw e)
                             | None => None
                             end
                         | _ => loop rest (assign tl key value h)
                         end
                     end
                 | _ =>
                     (* [key in target], or the assignment, on what is
                        not an object *)
                     Some (h, Throw TypeError)
                 end
             end) entries h
      end
  end.

(** The loop of [mergeLocaleData], and of [extractPlainLocaleDataFromTessen],
    over the sources. *)
Fixpoint merge_all (fuel : nat) (merged : nat) (sources : list nat)
         (h : Heap) : option (Heap * Completion unit) :=
  match sources with
  | [] => Some (h, Normal tt)
  | source :: rest =>
      match deepMerge fuel (RObject merged) source h with
      | Some (h', Normal _) => merge_all fuel merged rest h'
      | outcome => outcome
      end
  end.

(** [const merged = {}], then the loop; the result has the location of
    [merged]. *)
Definition mergeLocaleData (fuel : nat) (sources : list nat) (h : Heap)
  : nat * option (Heap * Completion unit) :=
  let (merged, h0) := alloc h in
  (merged, merge_all fuel merged sources h0).

(** [represents base h v r]: [r] is the value [v], held in objects of [h]
    at locations below [base]. *)
Fixpoint represents (base : nat) (h : Heap) (v : Value) (r : Ref) : Prop :=
  match v, r with
  | VUndefined, RUndefined => True
  | VNull, RNull => True
  | VBoolean b, RBoolean b' => b = b'
  | VNumber n, RNumber n' => n = n'
  | VString s, RString s' => s = s'
  | VObject entries, RObject l =>
      l < base
      /\ exists props,
           nth_error h l = Some props
           /\ (fix all (entries : Obj) (props : Props) : Prop :=
                 match entries, props with
                 | [], [] => True
                 | (k, v') :: entries', (k', r') :: props' =>
                     k = k' /\ represents base h v' r' /\ all entries' props'
                 | _, _ => False
                 end) entries props
  | _, _ => False
  end.

(** The objects from [base] on refer to objects from [base] on only. *)
Definition closed_from (base : nat) (h : Heap) : Prop :=
  forall l props,
    base <= l -> nth_error h l = Some props ->
    Forall (fun kv => forall l', snd kv = RObject l' ->
                                 base <= l' < List.length h) props.

End Own.

(** The nesting depth of a value. *)
Fixpoint depth (v : Value) : nat :=
  match v with
  | VObject entries =>
      S (fold_right (fun kv d => Nat.max (depth (snd kv)) d) 0 entries)
  | _ => 0
  end.

(** ** The accumulator on the heap *)

(** The tree that the accumulator is on the heap: a Shape Node with, at
    each Branch, the location of the object that holds it. *)
#[warnings="-register-all"]
Inductive Located : Type :=
| LString (s : string)
| LObject (l : nat) (props : list (string * Located)).

Definition on_snd {A B : Type} (f : A -> B) (kv : string * A) : string * B :=
  (fst kv, f (snd kv)).

(** The value that a located tree is. *)
Fixpoint erase (t : Located) : Value :=
  match t with
  | LString s => VString s
  | LObject _ props => VObject (map (on_snd erase) props)
  end.

(** What refers to a located tree. *)
Definition ref_of (t : Located) : Own.Ref :=
  match t with
  | LString s => Own.RString s
  | LObject l _ => Own.RObject l
  end.

(** The locations of a located tree. *)
Fixpoint locs (t : Located) : list nat :=
  match t with
  | LString _ => []
  | LObject l props => l :: flat_map (fun kv => locs (snd kv)) props
  end.

(** [holds h t]: the heap [h] has the tree [t] at its locations. *)
Fixpoint holds (h : Own.Heap) (t : Located) : Prop :=
  match t with
  | LString _ => True
  | LObject l props =>
      nth_error h l = Some (map (on_snd ref_of) props)
      /\ fold_right and True (map (fun kv => holds h (snd kv)) props)
  end.

(** [owned base h t]: the heap [h] has the tree [t], at locations from
    [base] on, each of them once. *)
Definition owned (base : nat) (h : Own.Heap) (t : Located) : Prop :=
  holds h t
  /\ NoDup (locs t)
  /\ forall l, In l (locs t) -> base <= l < List.length h.

(** [grown h h' t t']: from [h] with the tree [t] to [h'] with the tree
    [t'], new locations apart, the tree is at locations that it was at,
    and the other objects of [h] are as they were. *)
Definition grown (h h' : Own.Heap) (t t' : Located) : Prop :=
  List.length h <= List.length h'
  /\ (forall l, In l (locs t') -> In l (locs t) \/ List.length h <= l)
  /\ (forall l, l < List.length h -> ~ In l (locs t) ->
                nth_error h' l = nth_error h l).

(** The locations of the child at [key]. *)
Definition locs_at (key : string) (props : list (string * Located))
  : list nat :=
  match get key props with
  | Some child => locs child
  | None => []
  end.

(** [refines_at base v]: merging the source [v] of the heap into an
    accumulator of the heap returns normally, and the accumulator is then
    the tree that the merge on values gives. *)
Definition refines_at (base : nat) (v : Value) : Prop :=
  forall fuel sl h tl t,
    depth v <= fuel ->
    Own.represents base h v (Own.RObject sl) ->
    owned base h (LObject tl t) ->
    exists h' t' entries,
      v = VObject entries
      /\ Own.deepMerge fuel (Own.RObject tl) sl h = Some (h', Normal tt)
      /\ deepMerge (map (on_snd erase) t) entries =
         Normal (map (on_snd erase) t')
      /\ owned base h' (LObject tl t')
      /\ grown h h' (LObject tl t) (LObject tl t').

(* ================================================================== *)
(** * Definitions for the proofs *)

(** What follows the span does not start in the class. *)
Definition stops (cls : ascii -> bool) (s : string) : Prop :=
  match s with
  | EmptyString => True
  | String c _ => cls c = false
  end.

(** Induction on a value with, for an object, the property of the values
    of its properties. *)
Section ValueInduction.
Variable P : Value -> Prop.
Hypothesis Hundefined : P VUndefined.
Hypothesis Hnull : P VNull.
Hypothesis Hboolean : forall b, P (VBoolean b).
Hypothesis Hnumber : forall n, P (VNumber n).
Hypothesis Hstring : forall s, P (VString s).
Hypothesis Hobject :
  forall props, Forall (fun kv => P (snd kv)) props -> P (VObject props).

Fixpoint Value_nested_ind (v : Value) : P v :=
  match v with
  | VUndefined => Hundefined
  | VNull => Hnull
  | VBoolean b => Hboolean b
  | VNumber n => Hnumber n
  | VString s => Hstring s
  | VObject props =>
      Hobject props
        ((fix go (l : list (string * Value))
            : Forall (fun kv => P (snd kv)) l :=
            match l with
            | [] => Forall_nil _
            | kv :: rest => Forall_cons kv (Value_nested_ind (snd kv)) (go rest)
            end) props)
  end.
End ValueInduction.

(** The loop of [processLocaleData] on its own, and what one round of it
    pushes. *)
Section EmitterLoop.
Variable depth : nat.

Fixpoint emitter_loop (entries : Obj) (lines : list string) : list string :=
  match entries with
  | [] => lines
  | (key, value) :: rest =>
      let indent := repeat_string "  " (depth + 3) in
      match value with
      | VString template =>
          let signature := generateFunctionSignature template in
          emitter_loop rest
            (push lines (indent ++ key ++ ": " ++ signature ++ ";"))
      | _ =>
          if String.eqb (typeof value) "object" && negb (is_null value)
          then
            emitter_loop rest
              (push (push (push lines (indent ++ key ++ ": {"))
                          (processLocaleData_in value (depth + 1)))
                    (indent ++ "};"))
          else emitter_loop rest lines
      end
  end.
End EmitterLoop.

(** The lines of one property. *)
Definition entry_lines (depth : nat) (entry : string * Value) : list string :=
  let (key, value) := entry in
  match value with
  | VString template =>
      [indentation depth ++ key ++ ": "
         ++ signature_text (map name (extractParameters template)) ++ ";"]
  | VObject _ =>
      [indentation depth ++ key ++ ": {";
       processLocaleData_in value (S depth);
       indentation depth ++ "};"]
  | _ => []
  end.

(** The loop of [deepMerge] on its own. *)
Fixpoint merge_loop (entries : Obj) (target : Obj) : Completion Obj :=
  match entries with
  | [] => Normal target
  | (key, value) :: rest =>
      if String.eqb (typeof value) "object" && negb (is_null value)
      then
        let target1 :=
          if negb (has key target)
             || negb (String.eqb (typeof (read key target)) "object")
          then set key (VObject []) target
          else target in
        match read key target1 with
        | VObject child =>
            child' <- deepMerge_in value child ;;
            merge_loop rest (overwrite key (VObject child') target1)
        | _ =>
            match value with
            | VObject (_ :: _) => Throw TypeError
            | _ => merge_loop rest target1
            end
        end
      else merge_loop rest (set key value target)
  end.

(** A key that is not an array index. *)
Definition plain_key (key : string) : Prop := array_index key = None.

(** The loop of [Own.deepMerge] on its own, for any function in the
    place of the nested call. *)
Section StoreLoop.
Variable deepMerge_rec :
  Own.Ref -> nat -> Own.Heap -> option (Own.Heap * Completion unit).
Variable target : Own.Ref.

Fixpoint own_loop (entries : Own.Props) (h : Own.Heap)
  : option (Own.Heap * Completion unit) :=
  match entries with
  | [] => Some (h, Normal tt)
  | (key, value) :: rest =>
      match target with
      | Own.RObject tl =>
          match nth_error h tl with
          | None => Some (h, Throw TypeError)
          | Some props =>
              match value with
              | Own.RObject sl =>
                  let h1 :=
                    if negb (has key props)
                       || negb (String.eqb
                                  (Own.typeof (Own.read key props))
                                  "object")
                    then
                      let (l, h') := Own.alloc h in
                      Own.assign tl key (Own.RObject l) h'
                    else h in
                  let child :=
                    match nth_error h1 tl with
                    | Some props1 => Own.read key props1
                    | None => Own.RUndefined
                    end in
                  match deepMerge_rec child sl h1 with
                  | Some (h2, Normal _) => own_loop rest h2
                  | Some (h2, Throw e) => Some (h2, Throw e)
                  | None => None
                  end
              | _ => own_loop rest (Own.assign tl key value h)
              end
          end
      | _ => Some (h, Throw TypeError)
      end
  end.
End StoreLoop.

(** A reference to an object is to one from [base] on. *)
Definition ref_from (base : nat) (h : Own.Heap) (r : Own.Ref) : Prop :=
  forall l, r = Own.RObject l -> base <= l < List.length h.

(** What a call leaves of the heap: it may have grown; the objects below
    [base] are as they were; those from [base] on still refer to objects
    from [base] on. *)
Definition framed (base : nat) (h h' : Own.Heap) : Prop :=
  List.length h <= List.length h'
  /\ firstn base h' = firstn base h
  /\ Own.closed_from base h'.

(** The properties of an object of the heap are the entries of a value. *)
Section AllRepresent.
Variable base : nat.
Variable h : Own.Heap.

Fixpoint all_represent (entries : Obj) (props : Own.Props) : Prop :=
  match entries, props with
  | [], [] => True
  | (k, v) :: entries', (k', r) :: props' =>
      k = k' /\ Own.represents base h v r /\ all_represent entries' props'
  | _, _ => False
  end.
End AllRepresent.

(** Induction on a located tree. *)
Section LocatedInduction.
Variable P : Located -> Prop.
Hypothesis HString : forall s, P (LString s).
Hypothesis HObject :
  forall l props, Forall (fun kv => P (snd kv)) props -> P (LObject l props).

Fixpoint Located_nested_ind (t : Located) : P t :=
  match t with
  | LString s => HString s
  | LObject l props =>
      HObject l props
        ((fix go (ps : list (string * Located))
            : Forall (fun kv => P (snd kv)) ps :=
            match ps with
            | [] => Forall_nil _
            | kv :: rest =>
                Forall_cons kv (Located_nested_ind (snd kv)) (go rest)
            end) props)
  end.
End LocatedInduction.

(** ** Definitions for the further properties *)

(** Induction on a content value with, for an object, the property of the
    values of its properties. *)
Section ContentValueInduction.
Variable P : ContentValue -> Prop.
Hypothesis Hstring : forall s, P (CString s).
Hypothesis Hfunction : forall n, P (CFunction n).
Hypothesis Hobject :
  forall props, Forall (fun kv => P (snd kv)) props -> P (CObject props).
Hypothesis Hother : P COther.

Fixpoint ContentValue_nested_ind (v : ContentValue) : P v :=
  match v with
  | CString s => Hstring s
  | CFunction n => Hfunction n
  | CObject props =>
      Hobject props
        ((fix go (l : list (string * ContentValue))
            : Forall (fun kv => P (snd kv)) l :=
            match l with
            | [] => Forall_nil _
            | kv :: rest =>
                Forall_cons kv (ContentValue_nested_ind (snd kv)) (go rest)
            end) props)
  | COther => Hother
  end.
End ContentValueInduction.

(** The loop of [extractPlainDataFromContentValue] on its own. *)
Fixpoint content_loop (entries : list (string * ContentValue)) (result : Obj)
  : Obj :=
  match entries with
  | [] => result
  | (key, subValue) :: rest =>
      if String.eqb key "length" || String.eqb key "name"
         || String.eqb key "prototype"
      then content_loop rest result
      else
        let extracted := extractPlainDataFromContentValue subValue in
        if negb (is_null extracted)
           && negb (String.eqb (typeof extracted) "undefined")
        then content_loop rest (set key extracted result)
        else content_loop rest result
  end.

(** The keys that [extractPlainDataFromContentValue] passes over. *)
Definition function_key (key : string) : bool :=
  String.eqb key "length" || String.eqb key "name"
  || String.eqb key "prototype".

(** No object of [v], at any depth, has one of these keys. *)
Fixpoint without_function_keys (v : Value) : bool :=
  match v with
  | VObject props =>
      forallb
        (fun kv => negb (function_key (fst kv))
                   && without_function_keys (snd kv)) props
  | _ => true
  end.

(** The data that the normalizer merges, in the order of the merges: for a
    locale with a [contents] collection, the [data] of each entry that has
    one; for another locale, what is extracted from the content of its
    first language, if that is an object. *)
Definition locale_sources (locale : Locale) : list Obj :=
  match contents locale with
  | Some rawContents =>
      flat_map
        (fun entry : string * ContentEntry =>
           match data (snd entry) with Some d => [d] | None => [] end)
        rawContents
  | None =>
      match content locale with
      | (_, contentValue) :: _ =>
          match extractPlainDataFromContentValue contentValue with
          | VObject plainData => [plainData]
          | _ => []
          end
      | [] => []
      end
  end.

Definition tessen_sources (tessen : Tessen) : list Obj :=
  flat_map (fun entry : string * Locale => locale_sources (snd entry))
           (cache_locales tessen).




Definition not_lbrace (c : ascii) : bool := negb (Ascii.eqb c LBRACE).


(** The loop of [Search.findTessenInstances] on its own, for any function
    in the place of the nested call. *)
Section SearchLoop.
Variable search_rec : Search.Item -> list nat -> option (list nat * list nat).
Variable array : bool.

Fixpoint search_loop (items : list (string * Search.Item)) (found : list nat)
         (visited : list nat) : option (list nat * list nat) :=
  match items with
  | [] => Some (found, visited)
  | (key, value) :: rest =>
      if negb array && Search.skipped key then search_loop rest found visited
      else
        match search_rec value visited with
        | Some (sub, visited') => search_loop rest (found ++ sub)%list visited'
        | None => None
        end
  end.
End SearchLoop.

(** The properties of the object at [l] that the search follows. *)
Definition searched (h : Search.Heap) (l : nat) (key : string) : bool :=
  Search.is_array (Search.cell h l) || negb (Search.skipped key).

Definition is_instance (h : Search.Heap) (l : nat) : bool :=
  Search.isTessenInstance h (Search.IObject l).

(** [reaches h l x]: the object at [x] is met on a walk from the object at
    [l] that goes from an object which is not a Tessen instance to what
    one of its followed properties holds. *)
Inductive reaches (h : Search.Heap) : nat -> nat -> Prop :=
| reaches_here (l : nat) : reaches h l l
| reaches_property (l z x : nat) (key : string) :
    is_instance h l = false ->
    In (key, Search.IObject z) (Search.entries (Search.cell h l)) ->
    searched h l key = true ->
    reaches h z x ->
    reaches h l x.

(** The locations of the heap that are not in [visited]. *)
Definition unvisited (h : Search.Heap) (visited : list nat) : nat :=
  List.length
    (filter (fun l => negb (Search.visited_has l visited))
            (seq 0 (List.length h))).

(** What a search that went from [visited] to [visited'] has found: each
    instance once, all of them met in the search; and every object met in
    the search is an instance that was found, or has all that its followed
    properties hold in [visited']. *)
Definition search_post (h : Search.Heap) (visited found visited' : list nat)
  : Prop :=
  incl visited visited'
  /\ NoDup found
  /\ (forall x, In x found ->
        is_instance h x = true /\ ~ In x visited /\ In x visited')
  /\ (forall y, In y visited' -> ~ In y visited ->
        (is_instance h y = true -> In y found)
        /\ (is_instance h y = false ->
            forall key z,
              In (key, Search.IObject z) (Search.entries (Search.cell h y)) ->
              searched h y key = true -> In z visited')).

(** ** Definitions for the objects of the engine *)

(** The loop of [Js.deepMerge] on its own, for any function in the place
    of the nested call. *)
Section JsLoop.
Variable deepMerge_rec : Js.Ref -> Js.Loc -> Js.World -> Js.Outcome unit.
Variable target : Js.Ref.

Fixpoint js_loop (entries : list (string * Js.Ref)) (w : Js.World)
  : Js.Outcome unit :=
  match entries with
  | [] => Js.Done w tt
  | (key, value) :: rest =>
      match target with
      | Js.RObject tl =>
          match Js.cell w tl with
          | None => Js.Raised w TypeError
          | Some _ =>
              if String.eqb (Js.typeof value) "object"
                 && negb (Js.is_null value)
                 && negb (Js.isArray w value)
              then
                let made :=
                  if negb (Js.key_in w tl key)
                     || negb (String.eqb
                                (Js.typeof (Js.read w tl key)) "object")
                  then
                    let (l, w') := Js.alloc w in
                    Js.assign w' tl key (Js.RObject l)
                  else Js.Done w tt in
                match made, value with
                | Js.Done w1 _, Js.RObject sl =>
                    match deepMerge_rec (Js.read w1 tl key) sl w1 with
                    | Js.Done w2 _ => js_loop rest w2
                    | other => other
                    end
                | Js.Done w1 _, _ => Js.Raised w1 TypeError
                | other, _ => other
                end
              else
                match Js.assign w tl key value with
                | Js.Done w1 _ => js_loop rest w1
                | other => other
                end
          end
      | _ => Js.Raised w TypeError
      end
  end.
End JsLoop.

(** A heap of plain objects, each with its own enumerable properties, as
    objects of the engine: they are not arrays, and their prototype is
    [Object.prototype]. *)
Definition lift_ref (r : Own.Ref) : Js.Ref :=
  match r with
  | Own.RUndefined => Js.RUndefined
  | Own.RNull => Js.RNull
  | Own.RBoolean b => Js.RBoolean b
  | Own.RNumber n => Js.RNumber n
  | Own.RString s => Js.RString s
  | Own.RObject l => Js.RObject (Js.At l)
  end.

Definition lift_cell (props : Own.Props) : Js.Cell :=
  Js.mkCell false (Some Js.ObjectPrototype) [] (map (on_snd lift_ref) props).

Definition lift (op ap : Js.Cell) (h : Own.Heap) : Js.World :=
  Js.mkWorld op ap (map lift_cell h).

Definition lift_outcome (op ap : Js.Cell)
           (o : option (Own.Heap * Completion unit)) : Js.Outcome unit :=
  match o with
  | Some (h, Normal _) => Js.Done (lift op ap h) tt
  | Some (h, Throw e) => Js.Raised (lift op ap h) e
  | None => Js.Unfinished
  end.

(** [Object.prototype] as the engine provides it: its prototype is [null],
    its own properties are callables, and none of them is enumerable. *)
Definition pristine (c : Js.Cell) : Prop :=
  Js.props c = []
  /\ Js.prototype c = None
  /\ forall key r, get key (Js.hidden c) = Some r -> r = Js.RFunction.

(** No object of the heap has a key [__proto__]. *)
Definition proto_free_heap (h : Own.Heap) : Prop :=
  Forall (fun props : Own.Props => get "__proto__" props = None) h.

(** The loop of [Js.processLocaleData] on its own. *)
Section JsEmitterLoop.
Variable processLocaleData_rec : Js.Loc -> option string.
Variable depth : nat.

Fixpoint js_emitter_loop (entries : list (string * Js.Ref))
         (lines : list string) : option (list string) :=
  match entries with
  | [] => Some lines
  | (key, value) :: rest =>
      let indent := repeat_string "  " (depth + 3) in
      match value with
      | Js.RString template =>
          let signature := generateFunctionSignature template in
          js_emitter_loop rest
            (push lines (indent ++ key ++ ": " ++ signature ++ ";"))
      | Js.RObject l =>
          match processLocaleData_rec l with
          | Some inner =>
              js_emitter_loop rest
                (push (push (push lines (indent ++ key ++ ": {")) inner)
                      (indent ++ "};"))
          | None => None
          end
      | _ => js_emitter_loop rest lines
      end
  end.
End JsEmitterLoop.

(** ** Definitions for the merge without a key [__proto__] *)





(* ================================================================== *)
(** * Proofs *)

(** ** Strings *)

Lemma append_assoc (a b c : string) : (a ++ b) ++ c = a ++ (b ++ c).
Proof. induction a as [|x a IH]; simpl; [reflexivity | now rewrite IH]. Qed.

Lemma append_nil_r (a : string) : a ++ "" = a.
Proof. induction a as [|x a IH]; simpl; [reflexivity | now rewrite IH]. Qed.

Lemma length_append (a b : string) :
  String.length (a ++ b) = String.length a + String.length b.
Proof. induction a as [|x a IH]; simpl; [reflexivity | now rewrite IH]. Qed.

Lemma substring_prefix (a b : string) :
  substring 0 (String.length a) (a ++ b) = a.
Proof.
  induction a as [|x a IH]; simpl.
  - destruct b; reflexivity.
  - now rewrite IH.
Qed.

Lemma consumed_app (pre post : string) : consumed (pre ++ post) post = pre.
Proof.
  unfold consumed. rewrite length_append.
  replace (String.length pre + String.length post - String.length post)
    with (String.length pre) by lia.
  apply substring_prefix.
Qed.

Lemma span_app (cls : ascii -> bool) (s : string) :
  fst (span cls s) ++ snd (span cls s) = s.
Proof.
  induction s as [|c s IH]; simpl; [reflexivity|].
  destruct (cls c); [|reflexivity].
  destruct (span cls s) as [pre post]. simpl in *. now rewrite IH.
Qed.

Lemma span_forallb (cls : ascii -> bool) (s : string) :
  string_forallb cls (fst (span cls s)) = true.
Proof.
  induction s as [|c s IH]; simpl; [reflexivity|].
  destruct (cls c) eqn:E; [|reflexivity].
  destruct (span cls s) as [pre post]. simpl in *. now rewrite E, IH.
Qed.

Lemma span_stops (cls : ascii -> bool) (s : string) :
  stops cls (snd (span cls s)).
Proof.
  induction s as [|c s IH]; simpl; [exact I|].
  destruct (cls c) eqn:E; [|exact E].
  destruct (span cls s) as [pre post]. exact IH.
Qed.

Lemma span_unique (cls : ascii -> bool) (pre post : string) :
  string_forallb cls pre = true -> stops cls post ->
  span cls (pre ++ post) = (pre, post).
Proof.
  intros Hpre Hpost. induction pre as [|c pre IH]; simpl in *.
  - destruct post as [|c post]; simpl in *; [reflexivity|].
    now rewrite Hpost.
  - apply andb_true_iff in Hpre. destruct Hpre as [Hc Hpre].
    rewrite Hc, (IH Hpre). reflexivity.
Qed.

(** ** The regular expression and the grammar *)

(** A greedy [X+] before a continuation that refuses to start on an [X]
    takes the whole span: giving characters back cannot help. *)
Lemma plus_span (R : Type) (cls : ascii -> bool) (k : RegExp.cont R) :
  (forall c r caps, cls c = true -> k (String c r) caps = None) ->
  forall s caps,
    RegExp.plus cls s caps k =
    match fst (span cls s) with
    | EmptyString => None
    | _ => k (snd (span cls s)) caps
    end.
Proof.
  intros Hk. induction s as [|c s IH]; intros caps; simpl; [reflexivity|].
  destruct (cls c) eqn:Ec; [|reflexivity].
  rewrite IH. destruct (span cls s) as [pre post] eqn:Es. simpl.
  destruct pre as [|c' pre].
  - assert (Hs : post = s).
    { pose proof (span_app cls s) as H. rewrite Es in H. exact H. }
    now rewrite Hs.
  - destruct (k post caps) eqn:Ek; [reflexivity|].
    assert (Hs : s = String c' (pre ++ post)).
    { pose proof (span_app cls s) as H. rewrite Es in H. now symmetry. }
    assert (Hc' : cls c' = true).
    { pose proof (span_forallb cls s) as H. rewrite Es in H. simpl in H.
      now apply andb_true_iff in H. }
    rewrite Hs. now apply Hk.
Qed.
Lemma is_digit_not_colon (c : ascii) :
  is_digit c = true -> Ascii.eqb c COLON = false.
Proof.
  intros H. destruct (Ascii.eqb c COLON) eqn:E; [|reflexivity].
  apply Ascii.eqb_eq in E. subst c. discriminate H.
Qed.

Lemma is_digit_not_rbrace (c : ascii) :
  is_digit c = true -> Ascii.eqb c RBRACE = false.
Proof.
  intros H. destruct (Ascii.eqb c RBRACE) eqn:E; [|reflexivity].
  apply Ascii.eqb_eq in E. subst c. discriminate H.
Qed.

Lemma not_rbrace_false (c : ascii) :
  not_rbrace c = false -> Ascii.eqb c RBRACE = true.
Proof. unfold not_rbrace. now destruct (Ascii.eqb c RBRACE). Qed.

Lemma not_rbrace_true (c : ascii) :
  not_rbrace c = true -> Ascii.eqb c RBRACE = false.
Proof. unfold not_rbrace. now destruct (Ascii.eqb c RBRACE). Qed.

Lemma span_consumed (cls : ascii -> bool) (s : string) :
  consumed s (snd (span cls s)) = fst (span cls s).
Proof.
  rewrite <- (span_app cls s) at 1. apply consumed_app.
Qed.

Lemma match_at_placeholder_at (s : string) :
  RegExp.match_at paramRegex s =
  match placeholder_at s with
  | Some (p, rest) => Some (captures_of p, rest)
  | None => None
  end.
Proof.
  unfold RegExp.match_at, paramRegex, placeholder_at.
  cbn [RegExp.run].
  destruct s as [|c s]; [reflexivity|].
  destruct (Ascii.eqb c LBRACE); [|reflexivity].
  rewrite plus_span.
  2:{ intros c1 r caps Hc.
      now rewrite (is_digit_not_colon _ Hc), (is_digit_not_rbrace _ Hc). }
  rewrite span_consumed.
  destruct (span is_digit s) as [digits post]. cbn [fst snd].
  destruct digits as [|d digits]; [reflexivity|].
  destruct post as [|c2 s2]; [reflexivity|].
  destruct (Ascii.eqb c2 COLON) eqn:Ec.
  - rewrite plus_span.
    2:{ intros c1 r caps Hc. now rewrite (not_rbrace_true _ Hc). }
    rewrite span_consumed.
    pose proof (span_stops not_rbrace s2) as Hstop.
    destruct (span not_rbrace s2) as [lab post2]. cbn [fst snd] in *.
    apply Ascii.eqb_eq in Ec. subst c2.
    destruct lab as [|l lab]; [reflexivity|].
    destruct post2 as [|c3 s3]; [reflexivity|].
    simpl in Hstop. now rewrite (not_rbrace_false _ Hstop).
  - destruct (Ascii.eqb c2 RBRACE); reflexivity.
Qed.

(** ** The parsing loop *)

Lemma extractParameters_loop_eq (rest : string) (seen : StringSet)
      (parameters : list ExtractedParameter) :
  extractParameters_loop rest seen parameters =
  match RegExp.exec paramRegex rest with
  | None => parameters
  | Some (caps, rest') =>
      let paramName := paramName_of caps in
      if negb (set_has paramName seen)
      then extractParameters_loop rest' (set_add paramName seen)
             (push parameters (mkParameter paramName "string"))
      else extractParameters_loop rest' seen parameters
  end.
Proof.
  funelim (extractParameters_loop rest seen parameters).
  - rewrite Hexec. reflexivity.
  - rewrite Hnone. reflexivity.
Qed.

Lemma placeholder_at_sound (s rest : string) (p : Placeholder) :
  placeholder_at s = Some (p, rest) ->
  exists text, placeholder_text p text /\ s = text ++ rest.
Proof.
  unfold placeholder_at.
  destruct s as [|c s]; [discriminate|].
  destruct (Ascii.eqb c LBRACE) eqn:Ec; [|discriminate].
  apply Ascii.eqb_eq in Ec. subst c.
  pose proof (span_app is_digit s) as Happ.
  pose proof (span_forallb is_digit s) as Hdig.
  destruct (span is_digit s) as [digits post]. cbn [fst snd] in *.
  destruct digits as [|d digits]; [discriminate|].
  destruct post as [|c2 s2]; [discriminate|].
  destruct (Ascii.eqb c2 COLON) eqn:Ec2.
  - apply Ascii.eqb_eq in Ec2. subst c2.
    pose proof (span_app not_rbrace s2) as Happ2.
    pose proof (span_forallb not_rbrace s2) as Hlab.
    pose proof (span_stops not_rbrace s2) as Hstop.
    destruct (span not_rbrace s2) as [lab post2]. cbn [fst snd] in *.
    destruct lab as [|l lab]; [discriminate|].
    destruct post2 as [|c3 s3]; [discriminate|].
    intros [= <- <-].
    simpl in Hstop. apply not_rbrace_false, Ascii.eqb_eq in Hstop. subst c3.
    exists ("{" ++ String d digits ++ ":" ++ String l lab ++ "}"). split.
    + apply text_labelled; try discriminate; assumption.
    + rewrite <- Happ, <- Happ2. unfold LBRACE, COLON, RBRACE. simpl.
      rewrite !append_assoc. simpl. rewrite !append_assoc. reflexivity.
  - destruct (Ascii.eqb c2 RBRACE) eqn:Ec3; [|discriminate].
    apply Ascii.eqb_eq in Ec3. subst c2.
    intros [= <- <-].
    exists ("{" ++ String d digits ++ "}"). split.
    + apply text_plain; try discriminate; assumption.
    + rewrite <- Happ. unfold LBRACE, RBRACE. simpl.
      rewrite !append_assoc. reflexivity.
Qed.

Lemma placeholder_at_complete (p : Placeholder) (text : string) :
  placeholder_text p text ->
  forall rest, placeholder_at (text ++ rest) = Some (p, rest).
Proof.
  intros H rest.
  destruct H as [digits Hne Hdig | digits lab Hne Hdig Hlne Hlab].
  - cbn [append]. rewrite append_assoc. cbn [append].
    unfold placeholder_at. change (Ascii.eqb "{" LBRACE) with true. cbv iota.
    rewrite (span_unique is_digit digits (String "}" rest) Hdig eq_refl).
    destruct digits; [contradiction|]. reflexivity.
  - cbn [append]. rewrite append_assoc. cbn [append].
    rewrite append_assoc. cbn [append].
    unfold placeholder_at. change (Ascii.eqb "{" LBRACE) with true. cbv iota.
    rewrite (span_unique is_digit digits (String ":" (lab ++ String "}" rest))
               Hdig eq_refl).
    destruct digits; [contradiction|].
    change (Ascii.eqb ":" COLON) with true. cbv iota.
    rewrite (span_unique not_rbrace lab (String "}" rest) Hlab eq_refl).
    destruct lab; [contradiction|]. reflexivity.
Qed.

Lemma placeholder_at_none (s : string) :
  placeholder_at s = None <-> ~ starts_with_placeholder s.
Proof.
  split.
  - intros Hnone (p & text & rest & Htext & ->).
    rewrite (placeholder_at_complete _ _ Htext) in Hnone. discriminate.
  - intros Hno.
    destruct (placeholder_at s) as [[p rest]|] eqn:E; [|reflexivity].
    exfalso. apply Hno. apply placeholder_at_sound in E.
    destruct E as (text & Htext & ->). now exists p, text, rest.
Qed.

Lemma exec_eq (r : RegExp.regex) (s : string) :
  RegExp.exec r s =
  match RegExp.match_at r s with
  | Some m => Some m
  | None =>
      match s with
      | String _ s' => RegExp.exec r s'
      | EmptyString => None
      end
  end.
Proof. destruct s; reflexivity. Qed.

Lemma exec_skip (c : ascii) (s : string) :
  placeholder_at (String c s) = None ->
  RegExp.exec paramRegex (String c s) = RegExp.exec paramRegex s.
Proof.
  intros H. rewrite exec_eq, match_at_placeholder_at, H. reflexivity.
Qed.

Lemma exec_match (s rest : string) (p : Placeholder) :
  placeholder_at s = Some (p, rest) ->
  RegExp.exec paramRegex s = Some (captures_of p, rest).
Proof.
  intros H. rewrite exec_eq, match_at_placeholder_at, H. reflexivity.
Qed.

Lemma paramName_of_captures (p : Placeholder) (text : string) :
  placeholder_text p text -> paramName_of (captures_of p) = placeholder_name p.
Proof.
  intros [digits Hne Hdig | digits lab Hne Hdig Hlne Hlab]; [reflexivity|].
  unfold paramName_of, captures_of, placeholder_name. simpl.
  destruct (String.eqb_spec lab ""); [contradiction | reflexivity].
Qed.

Lemma set_has_push (x y : string) (s : StringSet) :
  set_has x (push s y) = set_has x s || String.eqb x y.
Proof.
  unfold set_has, push. rewrite existsb_app. simpl. now rewrite orb_false_r.
Qed.

Lemma loop_occurrences (s : string) (ps : list Placeholder) :
  occurrences s ps ->
  forall (seen : StringSet) (earlier : list string)
         (parameters : list ExtractedParameter),
    (forall x, set_has x seen = existsb (String.eqb x) earlier) ->
    extractParameters_loop s seen parameters =
    (parameters
       ++ map string_parameter
            (first_seen_after earlier (map placeholder_name ps)))%list.
Proof.
  induction 1 as [| c s ps Hno _ IH | p text rest ps Htext _ IH];
    intros seen earlier parameters Hseen.
  - rewrite extractParameters_loop_eq. simpl. now rewrite app_nil_r.
  - rewrite extractParameters_loop_eq.
    rewrite exec_skip by (now apply placeholder_at_none).
    rewrite <- extractParameters_loop_eq. now apply IH.
  - rewrite extractParameters_loop_eq.
    rewrite (exec_match _ _ _ (placeholder_at_complete _ _ Htext rest)).
    cbv zeta. rewrite (paramName_of_captures _ _ Htext).
    cbn [map first_seen_after]. rewrite <- Hseen.
    destruct (set_has (placeholder_name p) seen) eqn:Ehas; cbn [negb].
    + now apply IH.
    + rewrite (IH (set_add (placeholder_name p) seen)
                  (placeholder_name p :: earlier)).
      * unfold push. rewrite <- app_assoc. reflexivity.
      * intros x. unfold set_add. rewrite Ehas, set_has_push, Hseen.
        cbn [existsb]. apply orb_comm.
Qed.

Lemma placeholder_text_nonempty (p : Placeholder) (text : string) :
  placeholder_text p text -> 0 < String.length text.
Proof. intros []; simpl; lia. Qed.

Lemma occurrences_total (s : string) : exists ps, occurrences s ps.
Proof.
  remember (String.length s) as n eqn:Hn.
  revert s Hn. induction n as [n IH] using lt_wf_ind. intros s Hn.
  destruct (placeholder_at s) as [[p rest]|] eqn:E.
  - apply placeholder_at_sound in E. destruct E as (text & Htext & ->).
    pose proof (placeholder_text_nonempty _ _ Htext) as Hlen.
    destruct (IH (String.length rest)) with (s := rest) as [ps Hps];
      [rewrite Hn, length_append; lia | reflexivity |].
    exists (p :: ps). now apply occ_match.
  - destruct s as [|c s].
    + exists []. apply occ_end.
    + destruct (IH (String.length s)) with (s := s) as [ps Hps];
        [rewrite Hn; simpl; lia | reflexivity |].
      exists ps. apply occ_skip; [now apply placeholder_at_none | exact Hps].
Qed.

Lemma extractParameters_occurrences (value : string) (ps : list Placeholder) :
  occurrences value ps ->
  extractParameters value =
  map string_parameter (first_seen (map placeholder_name ps)).
Proof.
  intros Hps. unfold extractParameters, first_seen.
  now rewrite (loop_occurrences _ _ Hps [] [] []).
Qed.

(** ** C1 *)

(** C1. For every template, the parser reads the occurrences of
    [{digits}] and [{digits:label}] from left to right; each gives the name
    "label, else [_] followed by the digits" and the type "string"; a name
    is appended only if it was not produced earlier in the template, so
    the result lists the names in first-seen order.  A repeated label
    yields one parameter. *)
Theorem extractParameters_first_seen (value : string) :
  (exists ps, occurrences value ps)
  /\ (forall ps, occurrences value ps ->
        extractParameters value =
        map string_parameter (first_seen (map placeholder_name ps)))
  /\ extractParameters "{0:user} greets {1:user}" =
       [mkParameter "user" "string"]
  /\ extractParameters "{1} then {0}" =
       [mkParameter "_1" "string"; mkParameter "_0" "string"].
Proof.
  split; [apply occurrences_total|]. split; [|split; reflexivity].
  apply extractParameters_occurrences.
Qed.

Lemma extractParameters_first_seen_witness :
  occurrences "{7} and {2:who}"
              [mkPlaceholder "7" None; mkPlaceholder "2" (Some "who")]
  /\ extractParameters "{7} and {2:who}" =
     [mkParameter "_7" "string"; mkParameter "who" "string"].
Proof.
  assert (H : occurrences "{7} and {2:who}"
               [mkPlaceholder "7" None; mkPlaceholder "2" (Some "who")]).
  { apply (occ_match (mkPlaceholder "7" None) "{7}" " and {2:who}").
    { now apply (text_plain "7"). }
    do 5 (apply occ_skip;
          [ apply placeholder_at_none; reflexivity | ]).
    apply (occ_match (mkPlaceholder "2" (Some "who")) "{2:who}" "").
    { now apply (text_labelled "2" "who"). }
    apply occ_end. }
  split; [exact H|].
  exact (proj1 (proj2 (extractParameters_first_seen "{7} and {2:who}")) _ H).
Defined.

(** ** Values *)

(** ** The signature renderer *)

Lemma map_name_string_parameter (names : list string) :
  map name (map string_parameter names) = names.
Proof.
  induction names as [|n names IH]; simpl; [reflexivity | now rewrite IH].
Qed.

Lemma extractParameters_types (value : string) :
  extractParameters value =
  map string_parameter (map name (extractParameters value)).
Proof.
  destruct (occurrences_total value) as [ps Hps].
  rewrite (extractParameters_occurrences _ _ Hps).
  now rewrite map_name_string_parameter.
Qed.

Lemma generateFunctionSignature_text (value : string) :
  generateFunctionSignature value =
  signature_text (map name (extractParameters value)).
Proof.
  unfold generateFunctionSignature. cbv zeta.
  pose proof (extractParameters_types value) as E.
  remember (map name (extractParameters value)) as names eqn:Hnames.
  clear Hnames. rewrite E. clear E.
  destruct names as [|n names]; [reflexivity|].
  cbn [map List.length Nat.eqb signature_text]. rewrite map_map. reflexivity.
Qed.

(** ** C5 *)

(** C5. The signature is [() => string] when the template has no
    parameter; otherwise it is the parenthesized list of the parameters,
    each as [name: string], in the order of the parameter list, joined by
    commas, followed by the string return type. *)
Theorem generateFunctionSignature_spec (value : string) :
  generateFunctionSignature value =
    signature_text (map name (extractParameters value))
  /\ (forall ps, occurrences value ps ->
        generateFunctionSignature value =
        signature_text (first_seen (map placeholder_name ps)))
  /\ signature_text [] = "() => string"
  /\ generateFunctionSignature "no placeholder here" = "() => string"
  /\ generateFunctionSignature "{0:user} is now a {1:role}" =
       "(user: string, role: string) => string".
Proof.
  split; [apply generateFunctionSignature_text|].
  split; [|repeat split; reflexivity].
  intros ps Hps. rewrite generateFunctionSignature_text.
  rewrite (extractParameters_occurrences _ _ Hps).
  now rewrite map_name_string_parameter.
Qed.

Lemma generateFunctionSignature_spec_witness :
  occurrences "{3}{1:x}" [mkPlaceholder "3" None; mkPlaceholder "1" (Some "x")]
  /\ generateFunctionSignature "{3}{1:x}" = "(_3: string, x: string) => string".
Proof.
  assert (H : occurrences "{3}{1:x}"
               [mkPlaceholder "3" None; mkPlaceholder "1" (Some "x")]).
  { apply (occ_match (mkPlaceholder "3" None) "{3}" "{1:x}").
    { now apply (text_plain "3"). }
    apply (occ_match (mkPlaceholder "1" (Some "x")) "{1:x}" "").
    { now apply (text_labelled "1" "x"). }
    apply occ_end. }
  split; [exact H|].
  exact (proj1 (proj2 (generateFunctionSignature_spec "{3}{1:x}")) _ H).
Defined.

(** ** The emitter *)

Lemma indentation_eq (depth : nat) :
  repeat_string "  " (depth + 3) = indentation depth.
Proof.
  unfold indentation. induction depth as [|d IH]; [reflexivity|].
  simpl. rewrite IH. reflexivity.
Qed.

Lemma processLocaleData_in_object (props : Obj) (depth : nat) :
  processLocaleData_in (VObject props) depth =
  String.concat LF (emitter_loop depth props []).
Proof. reflexivity. Qed.

Lemma emitter_loop_lines (depth : nat) (entries : Obj) :
  forall lines,
    emitter_loop depth entries lines =
    (lines ++ flat_map (entry_lines depth) entries)%list.
Proof.
  induction entries as [|[key value] rest IH]; intros lines.
  - simpl. now rewrite app_nil_r.
  - cbn [emitter_loop flat_map entry_lines]. cbv zeta.
    rewrite indentation_eq.
    replace (depth + 1) with (S depth) by lia.
    destruct value;
      cbn [typeof is_null String.eqb Ascii.eqb Bool.eqb andb negb];
      rewrite ?generateFunctionSignature_text, IH; unfold push;
      rewrite <- ?app_assoc; reflexivity.
Qed.

Lemma processLocaleData_lines (data : Obj) (depth : nat) :
  processLocaleData data depth =
  String.concat LF (flat_map (entry_lines depth) data).
Proof.
  unfold processLocaleData. rewrite processLocaleData_in_object.
  now rewrite emitter_loop_lines.
Qed.

Lemma processLocaleData_in_rendering (data : Value) :
  forall depth, processLocaleData_in data depth = rendering data depth.
Proof.
  induction data as [| | b | n | s | props IH] using Value_nested_ind;
    intros depth; try reflexivity.
  rewrite processLocaleData_in_object, emitter_loop_lines.
  cbn [rendering app]. f_equal.
  induction props as [|[key value] rest IHrest]; [reflexivity|].
  inversion IH as [|kv l Hvalue Hrest]; subst.
  cbn [flat_map]. rewrite (IHrest Hrest). f_equal.
  destruct value; try reflexivity.
  cbn [entry_lines]. cbn [snd] in Hvalue. now rewrite Hvalue.
Qed.

Lemma concat_LF_3 (a b c : string) :
  String.concat LF [a; b; c] = a ++ LF ++ b ++ LF ++ c.
Proof. reflexivity. Qed.

(** ** C7 *)

(** C7. The emitter renders a Shape Tree key by key, one indentation level
    (two spaces) per nesting depth: a Leaf key is the line
    [<key>: <signature>;] with the signature of the parse of its template,
    a Branch key is the line [<key>: {], the rendering of its children one
    level deeper, and the line [};]. *)
Theorem processLocaleData_rendering (data : Obj) (depth : nat) :
  processLocaleData data depth = rendering (VObject data) depth
  /\ (forall key template,
        processLocaleData [(key, VString template)] depth =
        indentation depth ++ key ++ ": "
          ++ generateFunctionSignature template ++ ";")
  /\ (forall key children,
        processLocaleData [(key, VObject children)] depth =
        indentation depth ++ key ++ ": {" ++ LF
          ++ processLocaleData children (S depth) ++ LF
          ++ indentation depth ++ "};")
  /\ indentation depth = repeat_string "  " (3 + depth).
Proof.
  split; [apply processLocaleData_in_rendering|].
  split; [|split; [|reflexivity]].
  - intros key template. rewrite processLocaleData_lines. simpl.
    now rewrite generateFunctionSignature_text.
  - intros key children. rewrite processLocaleData_lines.
    cbn [flat_map entry_lines app]. rewrite concat_LF_3.
    rewrite !append_assoc. reflexivity.
Qed.

(** ** C10 *)

(** C10. A key whose value is neither a string nor a non-null object is
    left out of the emitted text: the rendering is that of the mapping
    without the key. *)
Theorem processLocaleData_omits (pre post : Obj) (key : string)
        (value : Value) (depth : nat) :
  String.eqb (typeof value) "string" = false ->
  String.eqb (typeof value) "object" && negb (is_null value) = false ->
  processLocaleData (pre ++ (key, value) :: post)%list depth =
  processLocaleData (pre ++ post)%list depth.
Proof.
  intros Hstring Hobject. rewrite !processLocaleData_lines.
  rewrite !flat_map_app. cbn [flat_map].
  replace (entry_lines depth (key, value)) with (@nil string);
    [reflexivity|].
  destruct value; try reflexivity; discriminate.
Qed.

Lemma processLocaleData_omits_witness :
  processLocaleData
    [("a", VString "{0}"); ("n", VNumber 5); ("z", VObject [("t", VNull)])] 0 =
  processLocaleData [("a", VString "{0}"); ("z", VObject [("t", VNull)])] 0
  /\ processLocaleData [("t", VNull)] 1 = "".
Proof.
  split.
  - apply (@processLocaleData_omits [("a", VString "{0}")]
             [("z", VObject [("t", VNull)])] "n" (VNumber 5) 0);
      reflexivity.
  - apply (@processLocaleData_omits [] [] "t" VNull 1); reflexivity.
Defined.

(** ** Objects *)

Lemma has_keys {A : Type} (key : string) (o : list (string * A)) :
  has key o = existsb (String.eqb key) (keys o).
Proof.
  unfold has. induction o as [|[k v] o IH]; simpl; [reflexivity|].
  rewrite (String.eqb_sym key k). destruct (String.eqb k key); [reflexivity|].
  exact IH.
Qed.

Lemma has_get {A : Type} (key : string) (o : list (string * A)) :
  has key o = false <-> get key o = None.
Proof. unfold has. destruct (get key o); split; congruence. Qed.

Lemma get_overwrite_same {A : Type} (key : string) (v : A)
      (o : list (string * A)) :
  has key o = true -> get key (overwrite key v o) = Some v.
Proof.
  unfold has. induction o as [|[k x] o IH]; simpl; [discriminate|].
  destruct (String.eqb k key) eqn:E; simpl; rewrite E; [reflexivity|exact IH].
Qed.

Lemma get_overwrite_other {A : Type} (k key : string) (v : A)
      (o : list (string * A)) :
  k <> key -> get k (overwrite key v o) = get k o.
Proof.
  intros Hne. induction o as [|[k' x] o IH]; simpl; [reflexivity|].
  destruct (String.eqb k' key) eqn:E; simpl.
  - apply String.eqb_eq in E. subst k'.
    destruct (String.eqb_spec key k); [congruence | reflexivity].
  - now rewrite IH.
Qed.

Lemma keys_overwrite {A : Type} (key : string) (v : A) (o : list (string * A)) :
  keys (overwrite key v o) = keys o.
Proof.
  induction o as [|[k x] o IH]; simpl; [reflexivity|].
  destruct (String.eqb k key); simpl; [reflexivity | now rewrite IH].
Qed.

Lemma get_insert_index_same {A : Type} (n : N) (key : string) (v : A)
      (o : list (string * A)) :
  get key o = None -> get key (insert_index n key v o) = Some v.
Proof.
  induction o as [|[k x] o IH]; simpl.
  - now rewrite String.eqb_refl.
  - destruct (String.eqb k key) eqn:E; [discriminate|]. intros Hnone.
    destruct (array_index k) as [m|]; [destruct (m <? n)%N|]; simpl;
      rewrite ?E, ?String.eqb_refl; auto.
Qed.

Lemma get_insert_index_other {A : Type} (n : N) (k key : string) (v : A)
      (o : list (string * A)) :
  k <> key -> get k (insert_index n key v o) = get k o.
Proof.
  intros Hne. apply not_eq_sym, String.eqb_neq in Hne.
  induction o as [|[k' x] o IH]; simpl.
  - now rewrite Hne.
  - destruct (array_index k') as [m|]; [destruct (m <? n)%N|]; simpl;
      rewrite ?Hne, ?IH; reflexivity.
Qed.

Lemma get_push {A : Type} (k key : string) (v : A) (o : list (string * A)) :
  get k (push o (key, v)) =
  match get k o with
  | Some x => Some x
  | None => if String.eqb key k then Some v else None
  end.
Proof.
  unfold push. induction o as [|[k' x] o IH]; simpl; [reflexivity|].
  destruct (String.eqb k' k); [reflexivity | exact IH].
Qed.

Lemma get_set_same {A : Type} (key : string) (v : A) (o : list (string * A)) :
  get key (set key v o) = Some v.
Proof.
  unfold set. destruct (has key o) eqn:Ehas.
  - now apply get_overwrite_same.
  - apply has_get in Ehas. destruct (array_index key).
    + now apply get_insert_index_same.
    + now rewrite get_push, Ehas, String.eqb_refl.
Qed.

Lemma get_set_other {A : Type} (k key : string) (v : A)
      (o : list (string * A)) :
  k <> key -> get k (set key v o) = get k o.
Proof.
  intros Hne. unfold set. destruct (has key o).
  - now apply get_overwrite_other.
  - destruct (array_index key).
    + now apply get_insert_index_other.
    + rewrite get_push. destruct (get k o); [reflexivity|].
      destruct (String.eqb_spec key k); [congruence | reflexivity].
Qed.

Lemma keys_set_plain {A : Type} (key : string) (v : A) (o : list (string * A)) :
  array_index key = None ->
  keys (set key v o) = if has key o then keys o else (keys o ++ [key])%list.
Proof.
  intros Hplain. unfold set. rewrite Hplain. destruct (has key o).
  - apply keys_overwrite.
  - unfold push, keys. now rewrite map_app.
Qed.

Lemma overwrite_set {A : Type} (key : string) (v w : A)
      (o : list (string * A)) :
  overwrite key w (set key v o) = set key w o.
Proof.
  unfold set. destruct (has key o) eqn:Ehas.
  - clear Ehas. induction o as [|[k x] o IH]; simpl; [reflexivity|].
    destruct (String.eqb k key) eqn:E; simpl; rewrite E; [reflexivity|].
    now rewrite IH.
  - apply has_get in Ehas. destruct (array_index key) as [n|].
    + induction o as [|[k x] o IH]; simpl.
      * now rewrite String.eqb_refl.
      * simpl in Ehas. destruct (String.eqb k key) eqn:E; [discriminate|].
        destruct (array_index k) as [m|]; [destruct (m <? n)%N|]; simpl;
          rewrite ?E, ?String.eqb_refl, ?IH; auto.
    + unfold push. induction o as [|[k x] o IH]; simpl.
      * now rewrite String.eqb_refl.
      * simpl in Ehas. destruct (String.eqb k key) eqn:E; [discriminate|].
        now rewrite IH.
Qed.

Lemma overwrite_has {A : Type} (key : string) (w : A) (o : list (string * A)) :
  has key o = true -> overwrite key w o = set key w o.
Proof. intros H. unfold set. now rewrite H. Qed.

(** [set] adds the key to the keys, or leaves them as they are. *)
Lemma keys_insert_index_Add {A : Type} (n : N) (key : string) (v : A)
      (o : list (string * A)) :
  Add key (keys o) (keys (insert_index n key v o)).
Proof.
  induction o as [|[k x] o IH]; simpl; [constructor|].
  destruct (array_index k) as [m|]; [destruct (m <? n)%N|]; simpl;
    try constructor. exact IH.
Qed.

Lemma distinct_NoDup (ks : list string) : distinct ks = true <-> NoDup ks.
Proof.
  induction ks as [|k ks IH]; simpl.
  - split; [constructor | reflexivity].
  - rewrite andb_true_iff, negb_true_iff, IH. split.
    + intros [Hk Hks]. constructor; [|exact Hks].
      intros Hin. assert (existsb (String.eqb k) ks = true); [|congruence].
      apply existsb_exists. exists k. now rewrite String.eqb_refl.
    + intros H. inversion H as [|? ? Hk Hks]; subst. split; [|exact Hks].
      destruct (existsb (String.eqb k) ks) eqn:E; [|reflexivity].
      apply existsb_exists in E. destruct E as (x & Hin & Hx).
      apply String.eqb_eq in Hx. subst x. contradiction.
Qed.

Lemma has_In {A : Type} (key : string) (o : list (string * A)) :
  has key o = true <-> In key (keys o).
Proof.
  rewrite has_keys. rewrite existsb_exists. split.
  - intros (x & Hin & Hx). apply String.eqb_eq in Hx. now subst x.
  - intros Hin. exists key. now rewrite String.eqb_refl.
Qed.

Lemma distinct_set {A : Type} (key : string) (v : A) (o : list (string * A)) :
  distinct (keys o) = true -> distinct (keys (set key v o)) = true.
Proof.
  rewrite !distinct_NoDup. intros Hnd. unfold set.
  destruct (has key o) eqn:Ehas.
  - now rewrite keys_overwrite.
  - assert (Hnotin : ~ In key (keys o)).
    { rewrite <- has_In. congruence. }
    destruct (array_index key) as [n|].
    + apply (NoDup_Add (keys_insert_index_Add n key v o)). now split.
    + unfold push, keys. rewrite map_app. simpl.
      apply NoDup_app; repeat split; auto.
      * constructor; [intros []|constructor].
      * intros x Hx [<-|[]]. contradiction.
Qed.

Lemma Forall_overwrite {A : Type} (P : string * A -> Prop) (key : string)
      (v : A) (o : list (string * A)) :
  Forall P o -> P (key, v) -> Forall P (overwrite key v o).
Proof.
  intros Ho Hv. induction Ho as [|[k x] o Hx Ho IH]; simpl; [constructor|].
  destruct (String.eqb_spec k key) as [->|_]; constructor; auto.
Qed.

Lemma Forall_insert_index {A : Type} (P : string * A -> Prop) (n : N)
      (key : string) (v : A) (o : list (string * A)) :
  Forall P o -> P (key, v) -> Forall P (insert_index n key v o).
Proof.
  intros Ho Hv. induction Ho as [|[k x] o Hx Ho IH]; simpl.
  - now constructor.
  - destruct (array_index k) as [m|]; [destruct (m <? n)%N|];
      repeat constructor; auto.
Qed.

Lemma Forall_set {A : Type} (P : string * A -> Prop) (key : string) (v : A)
      (o : list (string * A)) :
  Forall P o -> P (key, v) -> Forall P (set key v o).
Proof.
  intros Ho Hv. unfold set. destruct (has key o).
  - now apply Forall_overwrite.
  - destruct (array_index key).
    + now apply Forall_insert_index.
    + unfold push. apply Forall_app. split; [exact Ho | now constructor].
Qed.

Lemma get_Forall {A : Type} (P : string * A -> Prop) (key : string) (v : A)
      (o : list (string * A)) :
  Forall P o -> get key o = Some v -> P (key, v).
Proof.
  induction 1 as [|[k x] o Hx Ho IH]; simpl; [discriminate|].
  destruct (String.eqb_spec k key) as [->|_]; [|exact IH].
  now intros [= <-].
Qed.

Lemma get_In {A : Type} (key : string) (v : A) (o : list (string * A)) :
  get key o = Some v -> In (key, v) o.
Proof.
  induction o as [|[k x] o IH]; simpl; [discriminate|].
  destruct (String.eqb_spec k key) as [->|_].
  - intros [= ->]. now left.
  - intros H. right. now apply IH.
Qed.

(** ** Shape Nodes *)

Lemma shape_object (o : Obj) :
  shape (VObject o) = true <->
  distinct (keys o) = true /\ Forall (fun kv => shape (snd kv) = true) o.
Proof.
  cbn [shape]. rewrite andb_true_iff, forallb_forall, Forall_forall.
  reflexivity.
Qed.

Lemma shape_get (key : string) (v : Value) (o : Obj) :
  shape (VObject o) = true -> get key o = Some v -> shape v = true.
Proof.
  intros Ho Hget. apply shape_object in Ho. destruct Ho as [_ Ho].
  rewrite Forall_forall in Ho. exact (Ho _ (get_In _ _ _ Hget)).
Qed.

Lemma shape_set (key : string) (v : Value) (o : Obj) :
  shape (VObject o) = true -> shape v = true ->
  shape (VObject (set key v o)) = true.
Proof.
  rewrite !shape_object. intros [Hd Ho] Hv. split.
  - now apply distinct_set.
  - now apply Forall_set.
Qed.

Lemma shape_branch_of (key : string) (o : Obj) :
  shape (VObject o) = true -> shape (VObject (branch_of key o)) = true.
Proof.
  intros Ho. unfold branch_of. destruct (get key o) as [v|] eqn:E;
    [|reflexivity].
  destruct v; try reflexivity. exact (shape_get _ _ _ Ho E).
Qed.

(** ** The loop of [deepMerge] *)

Lemma deepMerge_loop (target source : Obj) :
  deepMerge target source = merge_loop source target.
Proof. reflexivity. Qed.

Lemma merge_loop_leaf (key : string) (value : Value) (rest target : Obj) :
  String.eqb (typeof value) "object" && negb (is_null value) = false ->
  merge_loop ((key, value) :: rest) target =
  merge_loop rest (set key value target).
Proof. intros H. cbn [merge_loop]. now rewrite H. Qed.

Lemma merge_loop_branch (key : string) (sub rest target : Obj) :
  get key target <> Some VNull ->
  merge_loop ((key, VObject sub) :: rest) target =
  (child <- deepMerge (branch_of key target) sub ;;
   merge_loop rest (set key (VObject child) target)).
Proof.
  intros Hnull. cbn [merge_loop typeof is_null]. cbv zeta.
  change (String.eqb "object" "object" && negb false) with true. cbv iota.
  unfold deepMerge, branch_of, read, has.
  destruct (get key target) as [v|] eqn:Eget.
  - destruct v; try congruence; cbn [negb orb typeof];
      try (change (String.eqb _ "object") with false; cbn [negb orb];
           rewrite get_set_same;
           destruct (deepMerge_in (VObject sub) []); cbn [bind];
           [now rewrite overwrite_set | reflexivity]).
    change (String.eqb "object" "object") with true. cbn [negb orb].
    rewrite Eget.
    destruct (deepMerge_in (VObject sub) props); cbn [bind]; [|reflexivity].
    rewrite overwrite_has; [reflexivity|]. unfold has. now rewrite Eget.
  - cbn [negb orb]. rewrite get_set_same.
    destruct (deepMerge_in (VObject sub) []); cbn [bind];
      [now rewrite overwrite_set | reflexivity].
Qed.

Lemma get_none_keys {A : Type} (key : string) (o : list (string * A)) :
  existsb (String.eqb key) (keys o) = false -> get key o = None.
Proof. rewrite <- has_keys. apply has_get. Qed.

Lemma branch_of_set_other (k key : string) (v : Value) (o : Obj) :
  k <> key -> branch_of k (set key v o) = branch_of k o.
Proof. intros H. unfold branch_of. now rewrite get_set_other. Qed.

(** One more round in front: what [merged_at] says of the rest, about the
    target after the round, it says of the whole about the target. *)
Lemma merged_at_cons (key : string) (value : Value) (rest target merged : Obj)
      (stored : Value) :
  get key rest = None ->
  match value with
  | VObject sub =>
      exists child, deepMerge (branch_of key target) sub = Normal child
                    /\ stored = VObject child
  | leaf => stored = leaf
  end ->
  (forall k, merged_at (set key stored target) rest merged k) ->
  forall k, merged_at target ((key, value) :: rest) merged k.
Proof.
  intros Hfresh Hstored Hrest k. specialize (Hrest k).
  unfold merged_at in *. cbn [get].
  destruct (String.eqb_spec key k) as [<-|Hne].
  - rewrite Hfresh, get_set_same in Hrest.
    destruct value; try (subst stored; exact Hrest).
    destruct Hstored as (child & Hchild & ->). now exists child.
  - rewrite branch_of_set_other in Hrest by congruence.
    rewrite get_set_other in Hrest by congruence. exact Hrest.
Qed.

Lemma merge_loop_shape (source : Value) :
  shape source = true ->
  forall entries, source = VObject entries ->
  forall target, shape (VObject target) = true ->
  exists merged,
    merge_loop entries target = Normal merged
    /\ shape (VObject merged) = true
    /\ forall k, merged_at target entries merged k.
Proof.
  induction source as [| | b | n | s | props IH] using Value_nested_ind;
    try discriminate.
  intros Hshape entries [= <-]. apply shape_object in Hshape.
  destruct Hshape as [Hdistinct Hshapes].
  induction props as [|[key value] rest IHrest]; intros target Htarget.
  - exists target. split; [reflexivity|]. split; [exact Htarget|].
    intros k. reflexivity.
  - inversion IH as [|? ? IHvalue IHvalues]; subst.
    inversion Hshapes as [|? ? Hvalue Hrest]; subst.
    cbn [keys map fst distinct] in Hdistinct.
    apply andb_true_iff in Hdistinct. destruct Hdistinct as [Hfresh Hdistinct].
    apply negb_true_iff, get_none_keys in Hfresh.
    cbn [snd] in IHvalue, Hvalue.
    destruct value as [| | b | n | template | sub]; try discriminate.
    + rewrite merge_loop_leaf by reflexivity.
      destruct (IHrest IHvalues Hdistinct Hrest
                       (set key (VString template) target))
        as (merged & Hrun & Hmerged & Hat);
        [now apply shape_set|].
      exists merged. split; [exact Hrun|]. split; [exact Hmerged|].
      now apply merged_at_cons with (stored := VString template).
    + rewrite merge_loop_branch.
      2:{ intros Hnull. now pose proof (shape_get _ _ _ Htarget Hnull). }
      destruct (IHvalue Hvalue sub eq_refl (branch_of key target))
        as (child & Hchild & Hchild_shape & _);
        [now apply shape_branch_of|].
      rewrite deepMerge_loop, Hchild. cbn [bind].
      destruct (IHrest IHvalues Hdistinct Hrest
                       (set key (VObject child) target))
        as (merged & Hrun & Hmerged & Hat);
        [now apply shape_set|].
      exists merged. split; [exact Hrun|]. split; [exact Hmerged|].
      apply merged_at_cons with (stored := VObject child); auto.
      exists child. now rewrite deepMerge_loop.
Qed.

Lemma deepMerge_shape (target source : Obj) :
  shape (VObject target) = true -> shape (VObject source) = true ->
  exists merged,
    deepMerge target source = Normal merged
    /\ shape (VObject merged) = true
    /\ forall k, merged_at target source merged k.
Proof.
  intros Htarget Hsource. rewrite deepMerge_loop.
  now apply (merge_loop_shape _ Hsource _ eq_refl).
Qed.


(** ** C2 *)

(** C2. The code at a Source with a member [__proto__].  Merging the
    parsed [{"__proto__": "x", "a": "A"}] gives an accumulator whose only
    own property is [a]: the Leaf at [__proto__] is handed to the setter
    of [Object.prototype.__proto__], which ignores a string.  Merging the
    parsed [{"__proto__": {"polluted": "yes"}}] gives an accumulator with
    no property of its own, and [Object.prototype] has the property
    [polluted] afterwards: the Branch is merged into the prototype of
    the accumulator. *)
Theorem deepMerge_proto_member :
  Js.mergeLocaleData 2 [Js.At 0]
    (Js.process_with
       [Js.parsed [("__proto__", Js.RString "x"); ("a", Js.RString "A")]])
  = Js.Done
      (Js.process_with
         [Js.parsed [("__proto__", Js.RString "x"); ("a", Js.RString "A")];
          Js.parsed [("a", Js.RString "A")]])
      (Js.At 1)
  /\ Js.mergeLocaleData 2 [Js.At 0]
       (Js.process_with
          [Js.parsed [("__proto__", Js.RObject (Js.At 1))];
           Js.parsed [("polluted", Js.RString "yes")]])
     = Js.Done
         (Js.mkWorld
            (Js.define "polluted" (Js.RString "yes")
                       (Js.object_prototype Js.realm))
            (Js.array_prototype Js.realm)
            [Js.parsed [("__proto__", Js.RObject (Js.At 1))];
             Js.parsed [("polluted", Js.RString "yes")];
             Js.parsed []])
         (Js.At 2).
Proof.
  split; vm_compute; reflexivity.
Qed.

(** ** The order of the keys *)

Lemma first_seen_after_ext (e1 e2 names : list string) :
  (forall x, existsb (String.eqb x) e1 = existsb (String.eqb x) e2) ->
  first_seen_after e1 names = first_seen_after e2 names.
Proof.
  revert e1 e2. induction names as [|n names IH]; intros e1 e2 Hext;
    [reflexivity|].
  cbn [first_seen_after]. rewrite (Hext n).
  destruct (existsb (String.eqb n) e2); [now apply IH|].
  f_equal. apply IH. intros x. cbn [existsb]. now rewrite Hext.
Qed.

Lemma first_seen_after_app (e l1 l2 : list string) :
  first_seen_after e (l1 ++ l2)%list =
  (first_seen_after e l1
     ++ first_seen_after (e ++ first_seen_after e l1) l2)%list.
Proof.
  revert e. induction l1 as [|n l1 IH]; intros e.
  - cbn [first_seen_after app]. now rewrite app_nil_r.
  - cbn [first_seen_after app].
    destruct (existsb (String.eqb n) e) eqn:E; [apply IH|].
    cbn [app]. f_equal. rewrite IH. f_equal.
    apply first_seen_after_ext. intros x.
    cbn [app existsb]. rewrite !existsb_app. cbn [existsb].
    destruct (String.eqb x n), (existsb (String.eqb x) e); reflexivity.
Qed.

Lemma keys_set_irrelevant {A : Type} (key : string) (v w : A)
      (o : list (string * A)) :
  keys (set key v o) = keys (set key w o).
Proof.
  unfold set. destruct (has key o).
  - now rewrite !keys_overwrite.
  - destruct (array_index key) as [n|].
    + induction o as [|[k x] o IH]; simpl; [reflexivity|].
      destruct (array_index k) as [m|]; [destruct (m <? n)%N|]; simpl;
        rewrite ?IH; reflexivity.
    + unfold push, keys. now rewrite !map_app.
Qed.

(** Whatever a round stores, the keys after it are those after an
    assignment to its key. *)
Lemma merge_loop_round (key : string) (value : Value)
      (rest target merged : Obj) :
  merge_loop ((key, value) :: rest) target = Normal merged ->
  exists target',
    keys target' = keys (set key value target)
    /\ merge_loop rest target' = Normal merged.
Proof.
  cbn [merge_loop]. cbv zeta.
  destruct (String.eqb (typeof value) "object" && negb (is_null value)).
  2:{ intros H. now exists (set key value target). }
  assert (Hkeys :
    keys (if negb (has key target)
             || negb (String.eqb (typeof (read key target)) "object")
          then set key (VObject []) target else target)
    = keys (set key value target)).
  { destruct (has key target) eqn:Ehas; cbn [negb orb].
    - destruct (negb _).
      + apply keys_set_irrelevant.
      + unfold set. now rewrite Ehas, keys_overwrite.
    - apply keys_set_irrelevant. }
  revert Hkeys.
  generalize (if negb (has key target)
                 || negb (String.eqb (typeof (read key target)) "object")
              then set key (VObject []) target else target) as target1.
  intros target1 Hkeys.
  destruct (read key target1) as [| | b | n | s | child].
  6:{ destruct (deepMerge_in value child) as [child'|e]; cbn [bind];
        [|discriminate].
      intros H. exists (overwrite key (VObject child') target1).
      now rewrite keys_overwrite. }
  all: destruct value as [| | ? | ? | ? | [|? ?]]; try discriminate;
    intros H; now exists target1.
Qed.

Lemma merge_loop_keys (entries : Obj) :
  Forall plain_key (keys entries) ->
  forall target merged,
    merge_loop entries target = Normal merged ->
    keys merged =
    (keys target ++ first_seen_after (keys target) (keys entries))%list.
Proof.
  induction entries as [|[key value] rest IH]; intros Hplain target merged.
  - intros [= <-]. cbn. now rewrite app_nil_r.
  - inversion Hplain as [|? ? Hkey Hrest]; subst.
    intros Hrun. apply merge_loop_round in Hrun.
    destruct Hrun as (target' & Hkeys & Hrun).
    rewrite (IH Hrest _ _ Hrun), Hkeys, (keys_set_plain _ _ _ Hkey).
    cbn [keys map fst first_seen_after]. fold (keys rest) (keys target).
    rewrite <- has_keys. destruct (has key target) eqn:Ehas; [reflexivity|].
    rewrite <- app_assoc. cbn [app]. do 2 f_equal.
    apply first_seen_after_ext. intros x.
    rewrite existsb_app. cbn [existsb]. rewrite orb_false_r. apply orb_comm.
Qed.

Lemma mergeLocaleData_loop_keys (sources : list Obj) :
  Forall (fun source => Forall plain_key (keys source)) sources ->
  forall acc merged,
    mergeLocaleData_loop sources acc = Normal merged ->
    keys merged =
    (keys acc ++ first_seen_after (keys acc) (concat (map keys sources)))%list.
Proof.
  induction sources as [|source sources IH]; intros Hplain acc merged.
  - intros [= <-]. cbn. now rewrite app_nil_r.
  - inversion Hplain as [|? ? Hsource Hsources]; subst.
    cbn [mergeLocaleData_loop].
    destruct (deepMerge acc source) as [acc'|e] eqn:Estep; cbn [bind];
      [|discriminate].
    intros Hrun. rewrite (IH Hsources _ _ Hrun).
    rewrite deepMerge_loop in Estep.
    rewrite (merge_loop_keys _ Hsource _ _ Estep).
    cbn [map concat]. rewrite first_seen_after_app, <- app_assoc.
    reflexivity.
Qed.


Lemma plain_keys_object (o : Obj) :
  plain_keys (VObject o) = true <->
  Forall (fun kv => plain_key (fst kv) /\ plain_keys (snd kv) = true) o.
Proof.
  cbn [plain_keys]. rewrite forallb_forall, Forall_forall.
  split; intros H kv Hin; specialize (H kv Hin).
  - apply andb_true_iff in H. destruct H as [Hk Hv]. split; [|exact Hv].
    unfold plain_key. now destruct (array_index (fst kv)).
  - destruct H as [Hk Hv]. unfold plain_key in Hk. now rewrite Hk, Hv.
Qed.

Lemma plain_keys_root (o : Obj) :
  plain_keys (VObject o) = true -> Forall plain_key (keys o).
Proof.
  rewrite plain_keys_object. unfold keys. rewrite Forall_map.
  apply Forall_impl. now intros kv [Hk _].
Qed.

Lemma plain_keys_get (key : string) (v : Value) (o : Obj) :
  plain_keys (VObject o) = true -> get key o = Some v -> plain_keys v = true.
Proof.
  rewrite plain_keys_object, Forall_forall. intros Ho Hget.
  exact (proj2 (Ho _ (get_In _ _ _ Hget))).
Qed.

Lemma branch_or_empty_cons (key : string) (path : list string) (o : Obj) :
  branch_or_empty (key :: path) o = branch_or_empty path (branch_of key o).
Proof.
  unfold branch_or_empty, branch_of. cbn [branch_at].
  destruct (get key o) as [v|]; [destruct v|]; try reflexivity;
    destruct path; reflexivity.
Qed.

(** At every Branch of the incoming node, the merged Branch lists the keys
    that were there, in their order, then the new ones in the order in
    which the incoming Branch lists them. *)
Lemma deepMerge_branch_keys (path : list string) :
  forall target source merged sb,
    shape (VObject target) = true -> shape (VObject source) = true ->
    plain_keys (VObject source) = true ->
    deepMerge target source = Normal merged ->
    branch_at path source = Some sb ->
    exists mb,
      branch_at path merged = Some mb
      /\ keys mb =
         (keys (branch_or_empty path target)
            ++ first_seen_after (keys (branch_or_empty path target))
                                (keys sb))%list.
Proof.
  induction path as [|key path IH];
    intros target source merged sb Htarget Hsource Hplain Hrun Hsb.
  - injection Hsb as <-. exists merged. split; [reflexivity|].
    rewrite deepMerge_loop in Hrun.
    exact (merge_loop_keys _ (plain_keys_root _ Hplain) _ _ Hrun).
  - cbn [branch_at] in Hsb.
    destruct (get key source) as [v|] eqn:Eget; [|discriminate].
    destruct v as [| | | | |sub]; try discriminate.
    destruct (deepMerge_shape target source Htarget Hsource)
      as (merged' & Hrun' & _ & Hat).
    rewrite Hrun in Hrun'. injection Hrun' as <-.
    specialize (Hat key). unfold merged_at in Hat. rewrite Eget in Hat.
    destruct Hat as (child & Hchild & Hmerged).
    destruct (IH (branch_of key target) sub child sb) as (mb & Hmb & Hkeys);
      auto.
    + now apply shape_branch_of.
    + exact (shape_get _ _ _ Hsource Eget).
    + exact (plain_keys_get _ _ _ Hplain Eget).
    + exists mb. cbn [branch_at]. rewrite Hmerged.
      split; [exact Hmb|]. now rewrite branch_or_empty_cons.
Qed.

(** ** The order of the keys at a Branch, over the sources *)






(** ** C6 *)




(** ** Text without a closing brace *)

Lemma string_forallb_app (p : ascii -> bool) (a b : string) :
  string_forallb p (a ++ b) = string_forallb p a && string_forallb p b.
Proof.
  induction a as [|c a IH]; simpl; [reflexivity|].
  now rewrite IH, andb_assoc.
Qed.

Lemma placeholder_text_rbrace (p : Placeholder) (text : string) :
  placeholder_text p text -> string_forallb not_rbrace text = false.
Proof.
  intros [digits _ _ | digits lab _ _ _ _]; cbn [append string_forallb].
  - rewrite string_forallb_app. cbn. now rewrite !andb_false_r.
  - rewrite !string_forallb_app. cbn [append string_forallb].
    rewrite string_forallb_app. cbn. now rewrite !andb_false_r.
Qed.

Lemma no_rbrace_no_occurrence (value : string) :
  string_forallb not_rbrace value = true -> occurrences value [].
Proof.
  induction value as [|c value IH]; intros Hno; [apply occ_end|].
  apply occ_skip.
  - intros (p & text & rest & Htext & Heq). rewrite Heq in Hno.
    rewrite string_forallb_app, (placeholder_text_rbrace _ _ Htext) in Hno.
    discriminate.
  - apply IH. cbn [string_forallb] in Hno. now apply andb_true_iff in Hno.
Qed.

(** ** The orchestrator *)

Lemma generateTessenDeclaration_block (tessen : Tessen) (count i : nat) :
  generateTessenDeclaration tessen
    (if Nat.ltb 1 count then Some i else None) =
  (localeData <- extractPlainLocaleDataFromTessen tessen ;;
   Normal (declaration_block (client_annotation count i)
                             (processLocaleData localeData 0))).
Proof.
  unfold generateTessenDeclaration, client_annotation.
  destruct (extractPlainLocaleDataFromTessen tessen) as [localeData|e];
    [|reflexivity].
  cbn [bind]. f_equal. unfold declaration_block. cbn [String.concat].
  destruct (Nat.ltb 1 count); rewrite ?append_nil_r; reflexivity.
Qed.

Lemma generateLocalizationTypes_loop_eq (config : TypeGenerationConfig)
      (i : nat) (declarations : list string) :
  generateLocalizationTypes_loop config i declarations =
  if Nat.ltb i (List.length (tessens config))
  then
    match nth_error (tessens config) i with
    | None => Throw TypeError
    | Some tessen =>
        declaration <-
          generateTessenDeclaration tessen
            (if Nat.ltb 1 (List.length (tessens config))
             then Some i else None) ;;
        generateLocalizationTypes_loop config (i + 1)
          (push declarations declaration)
    end
  else Normal declarations.
Proof.
  funelim (generateLocalizationTypes_loop config i declarations);
    repeat match goal with
           | H : Nat.ltb _ _ = _ |- _ => rewrite H
           | H : nth_error _ _ = _ |- _ => rewrite H
           | H : generateTessenDeclaration _ _ = _ |- _ => rewrite H
           end; reflexivity.
Qed.

Lemma bind_assoc {A B C : Type} (c : Completion A) (f : A -> Completion B)
      (g : B -> Completion C) :
  bind (bind c f) g = bind c (fun a => bind (f a) g).
Proof. destruct c; reflexivity. Qed.

(** The loop from its [i]-th round on, on the Sources that are left. *)
Lemma generateLocalizationTypes_loop_blocks (config : TypeGenerationConfig)
      (rest : list Tessen) :
  forall i declarations,
    skipn i (tessens config) = rest ->
    generateLocalizationTypes_loop config i declarations =
    (blocks <-
       client_blocks (List.length (tessens config)) i
         (map extractPlainLocaleDataFromTessen rest) ;;
     Normal (declarations ++ blocks)%list).
Proof.
  induction rest as [|tessen rest IH]; intros i declarations Hskip;
    rewrite generateLocalizationTypes_loop_eq.
  - assert (Hlen : List.length (tessens config) <= i).
    { destruct (Nat.le_gt_cases (List.length (tessens config)) i) as [H|H];
        [exact H|].
      apply (f_equal (@List.length Tessen)) in Hskip.
      rewrite length_skipn in Hskip. simpl in Hskip. lia. }
    apply Nat.ltb_ge in Hlen. rewrite Hlen. cbn. now rewrite app_nil_r.
  - assert (Hlt : i < List.length (tessens config)).
    { apply (f_equal (@List.length Tessen)) in Hskip.
      rewrite length_skipn in Hskip. simpl in Hskip. lia. }
    assert (Hnth : nth_error (tessens config) i = Some tessen).
    { rewrite <- (firstn_skipn i (tessens config)), Hskip.
      rewrite nth_error_app2 by (rewrite length_firstn; lia).
      rewrite length_firstn.
      replace (i - Nat.min i (List.length (tessens config))) with 0 by lia.
      reflexivity. }
    assert (Hnext : skipn (i + 1) (tessens config) = rest).
    { rewrite Nat.add_comm. rewrite <- skipn_skipn, Hskip. reflexivity. }
    apply Nat.ltb_lt in Hlt. rewrite Hlt, Hnth.
    rewrite generateTessenDeclaration_block.
    cbn [map client_blocks].
    destruct (extractPlainLocaleDataFromTessen tessen) as [localeData|e];
      [|reflexivity].
    cbn [bind]. rewrite (IH _ _ Hnext).
    replace (i + 1) with (S i) by lia.
    destruct (client_blocks _ (S i) _) as [blocks|e]; [|reflexivity].
    cbn [bind]. unfold push. now rewrite <- app_assoc.
Qed.

Lemma generateLocalizationTypes_blocks (config : TypeGenerationConfig) :
  generateLocalizationTypes config =
  (blocks <-
     client_blocks (List.length (tessens config)) 0
       (map extractPlainLocaleDataFromTessen (tessens config)) ;;
   Normal (blank_line_join blocks)).
Proof.
  unfold generateLocalizationTypes.
  rewrite (generateLocalizationTypes_loop_blocks config (tessens config) 0 []
             eq_refl).
  destruct (client_blocks _ 0 _); reflexivity.
Qed.

Lemma client_blocks_nth (count : nat) (trees : list (Completion Obj)) :
  forall i blocks,
    client_blocks count i trees = Normal blocks ->
    List.length blocks = List.length trees
    /\ forall j tree,
         nth_error trees j = Some tree ->
         exists localeData,
           tree = Normal localeData
           /\ nth_error blocks j =
              Some (declaration_block (client_annotation count (i + j))
                                      (processLocaleData localeData 0)).
Proof.
  induction trees as [|tree trees IH]; intros i blocks.
  - intros [= <-]. split; [reflexivity|]. intros [|j] t; discriminate.
  - cbn [client_blocks]. destruct tree as [localeData|e]; [|discriminate].
    cbn [bind].
    destruct (client_blocks count (S i) trees) as [rest|e] eqn:Erest;
      [|discriminate].
    intros [= <-]. destruct (IH _ _ Erest) as [Hlen Hnth].
    split; [simpl; now rewrite Hlen|].
    intros [|j] t Ht.
    + injection Ht as <-. exists localeData.
      now rewrite Nat.add_0_r.
    + destruct (Hnth j t Ht) as (d & -> & Hblock). exists d.
      split; [reflexivity|]. cbn [nth_error]. rewrite Hblock.
      now replace (S i + j) with (i + S j) by lia.
Qed.

(** ** C3 *)

(** C3. The orchestrator renders the Sources in their order and joins the
    blocks with one blank line; a run on one Source gives one block without
    an annotation; in a run on more than one, the block of the i-th Source
    (from 0) is annotated with client i+1. *)
Theorem generateLocalizationTypes_order :
  (forall config,
      generateLocalizationTypes config =
      (blocks <-
         client_blocks (List.length (tessens config)) 0
           (map extractPlainLocaleDataFromTessen (tessens config)) ;;
       Normal (String.concat (LF ++ LF) blocks)))
  /\ (forall i, client_annotation 1 i = "")
  /\ (forall count i,
        client_annotation (S (S count)) i =
        " // Client " ++ number_to_string (i + 1))
  /\ (forall tessen out,
        generateLocalizationTypes (mkConfig [tessen] out) =
        (localeData <- extractPlainLocaleDataFromTessen tessen ;;
         Normal ("declare global {" ++ LF
                 ++ "  namespace Tessen {" ++ LF
                 ++ "    interface Localization {" ++ LF
                 ++ processLocaleData localeData 0 ++ LF
                 ++ "    }" ++ LF ++ "  }" ++ LF ++ "}" ++ LF
                 ++ "    " ++ LF ++ "export { };")))
  /\ (forall first second out,
        generateLocalizationTypes (mkConfig [first; second] out) =
        (data1 <- extractPlainLocaleDataFromTessen first ;;
         data2 <- extractPlainLocaleDataFromTessen second ;;
         Normal (declaration_block " // Client 1" (processLocaleData data1 0)
                 ++ LF ++ LF
                 ++ declaration_block " // Client 2"
                      (processLocaleData data2 0)))).
Proof.
  split; [exact generateLocalizationTypes_blocks|].
  split; [reflexivity|]. split; [reflexivity|]. split.
  - intros tessen out. rewrite generateLocalizationTypes_blocks.
    cbn [tessens map client_blocks List.length].
    destruct (extractPlainLocaleDataFromTessen tessen); reflexivity.
  - intros first second out. rewrite generateLocalizationTypes_blocks.
    cbn [tessens map client_blocks List.length].
    destruct (extractPlainLocaleDataFromTessen first); [|reflexivity].
    destruct (extractPlainLocaleDataFromTessen second); reflexivity.
Qed.

(** ** C4 *)

(** C4. The body of each Shape Tree is wrapped once in the [declare global]
    / [namespace] / [interface] block, and the block is followed by the
    empty-exports marker line; this is the whole output of a run on one
    Source.  The output of a run on several is the blocks, each in its own
    enclosing block, with one blank line between two of them. *)
Theorem declaration_block_wrapping :
  (forall tessen clientIndex,
      exists annotation,
        generateTessenDeclaration tessen clientIndex =
        (localeData <- extractPlainLocaleDataFromTessen tessen ;;
         Normal (declaration_block annotation
                                   (processLocaleData localeData 0))))
  /\ (forall annotation body,
        declaration_block annotation body =
        "declare global {" ++ annotation ++ LF
        ++ "  namespace Tessen {" ++ LF
        ++ "    interface Localization {" ++ LF
        ++ body ++ LF
        ++ "    }" ++ LF ++ "  }" ++ LF ++ "}" ++ LF
        ++ "    " ++ LF ++ "export { };")
  /\ (forall tessen out localeData,
        extractPlainLocaleDataFromTessen tessen = Normal localeData ->
        generateLocalizationTypes (mkConfig [tessen] out) =
        Normal (declaration_block "" (processLocaleData localeData 0)))
  /\ (forall config text,
        generateLocalizationTypes config = Normal text ->
        exists blocks,
          text = String.concat (LF ++ LF) blocks
          /\ List.length blocks = List.length (tessens config)
          /\ forall i tessen,
               nth_error (tessens config) i = Some tessen ->
               exists localeData,
                 extractPlainLocaleDataFromTessen tessen = Normal localeData
                 /\ nth_error blocks i =
                    Some (declaration_block
                            (client_annotation (List.length (tessens config)) i)
                            (processLocaleData localeData 0))).
Proof.
  split; [|split; [|split]].
  - intros tessen [i|].
    + exists (" // Client " ++ number_to_string (i + 1)).
      apply (generateTessenDeclaration_block tessen 2 i).
    + exists "". apply (generateTessenDeclaration_block tessen 1 0).
  - intros annotation body. unfold declaration_block. cbn [String.concat].
    rewrite append_assoc. reflexivity.
  - intros tessen out localeData Hdata.
    rewrite generateLocalizationTypes_blocks.
    cbn [tessens map client_blocks List.length]. now rewrite Hdata.
  - intros config text. rewrite generateLocalizationTypes_blocks.
    destruct (client_blocks _ 0 _) as [blocks|e] eqn:Eblocks; [|discriminate].
    intros [= <-]. exists blocks. split; [reflexivity|].
    destruct (client_blocks_nth _ _ _ _ Eblocks) as [Hlen Hnth].
    rewrite length_map in Hlen. split; [exact Hlen|].
    intros i tessen Hi.
    destruct (Hnth i (extractPlainLocaleDataFromTessen tessen))
      as (localeData & Hdata & Hblock).
    + rewrite nth_error_map, Hi. reflexivity.
    + exists localeData. split; [exact Hdata | exact Hblock].
Qed.

Lemma declaration_block_wrapping_witness :
  generateLocalizationTypes
    (mkConfig
       [mkTessen
          [("en", mkLocale
                    (Some [("main", mkContentEntry "en"
                                      (Some [("hello", VString "Hi")]))])
                    [])]]
       None)
  = Normal (declaration_block "" "      hello: () => string;")
  /\ exists blocks,
       "" = String.concat (LF ++ LF) blocks /\ List.length blocks = 0.
Proof.
  split.
  - exact (proj1 (proj2 (proj2 declaration_block_wrapping))
             (mkTessen
                [("en", mkLocale
                          (Some [("main", mkContentEntry "en"
                                            (Some [("hello", VString "Hi")]))])
                          [])])
             None [("hello", VString "Hi")] eq_refl).
  - destruct (proj2 (proj2 (proj2 declaration_block_wrapping))
                (mkConfig [] None) "" eq_refl) as (blocks & Htext & Hlen & _).
    exists blocks. split; [exact Htext | exact Hlen].
Defined.

(** ** The heap of own properties *)

Lemma own_deepMerge_eq (fuel : nat) (target : Own.Ref) (source : nat)
      (h : Own.Heap) :
  Own.deepMerge (S fuel) target source h =
  match nth_error h source with
  | None => Some (h, Throw TypeError)
  | Some entries => own_loop (Own.deepMerge fuel) target entries h
  end.
Proof. reflexivity. Qed.

Lemma length_write (l : nat) (props : Own.Props) (h : Own.Heap) :
  List.length (Own.write l props h) = List.length h.
Proof.
  revert l. induction h as [|o h IH]; intros l; [reflexivity|].
  destruct l; simpl; [reflexivity | now rewrite IH].
Qed.

Lemma nth_error_write (l l' : nat) (props : Own.Props) (h : Own.Heap) :
  nth_error (Own.write l props h) l' =
  if Nat.eqb l' l
  then match nth_error h l with Some _ => Some props | None => None end
  else nth_error h l'.
Proof.
  revert l l'. induction h as [|o h IH]; intros l l'.
  - simpl. destruct (Nat.eqb l' l); destruct l, l'; reflexivity.
  - destruct l, l'; simpl; try reflexivity. apply IH.
Qed.

Lemma firstn_write (base l : nat) (props : Own.Props) (h : Own.Heap) :
  base <= l -> firstn base (Own.write l props h) = firstn base h.
Proof.
  revert base l. induction h as [|o h IH]; intros base l Hle; [reflexivity|].
  destruct base; [reflexivity|]. destruct l; [lia|].
  simpl. f_equal. apply IH. lia.
Qed.

Lemma length_assign (tl : nat) (key : string) (r : Own.Ref)
      (h : Own.Heap) :
  List.length (Own.assign tl key r h) = List.length h.
Proof.
  unfold Own.assign. destruct (nth_error h tl); [apply length_write|].
  reflexivity.
Qed.

Lemma firstn_assign (base tl : nat) (key : string) (r : Own.Ref)
      (h : Own.Heap) :
  base <= tl -> firstn base (Own.assign tl key r h) = firstn base h.
Proof.
  intros Hle. unfold Own.assign.
  destruct (nth_error h tl); [now apply firstn_write | reflexivity].
Qed.

Lemma closed_from_assign (base tl : nat) (key : string) (r : Own.Ref)
      (h : Own.Heap) :
  Own.closed_from base h -> ref_from base h r ->
  Own.closed_from base (Own.assign tl key r h).
Proof.
  intros Hclosed Hr l props Hl. unfold Own.assign.
  destruct (nth_error h tl) as [tprops|] eqn:Etl; [|now apply Hclosed].
  rewrite nth_error_write, Etl, length_write.
  destruct (Nat.eqb_spec l tl) as [->|Hne].
  - intros [= <-]. apply Forall_set; [now apply (Hclosed tl)|exact Hr].
  - now apply Hclosed.
Qed.

Lemma closed_from_alloc (base : nat) (h : Own.Heap) :
  Own.closed_from base h ->
  Own.closed_from base (snd (Own.alloc h)).
Proof.
  intros Hclosed l props Hl. cbn [Own.alloc snd]. rewrite length_app.
  destruct (Nat.lt_ge_cases l (List.length h)) as [Hlt|Hge].
  - rewrite nth_error_app1 by exact Hlt. intros Hget.
    eapply Forall_impl; [|exact (Hclosed l props Hl Hget)].
    cbn beta. intros kv Hkv l' Heq. specialize (Hkv l' Heq). lia.
  - rewrite nth_error_app2 by exact Hge.
    destruct (l - List.length h) as [|[|n]]; simpl; try discriminate.
    intros [= <-]. constructor.
Qed.

Lemma framed_refl (base : nat) (h : Own.Heap) :
  Own.closed_from base h -> framed base h h.
Proof. intros H. now repeat split. Qed.

Lemma framed_trans (base : nat) (h1 h2 h3 : Own.Heap) :
  framed base h1 h2 -> framed base h2 h3 -> framed base h1 h3.
Proof.
  intros (Hl1 & Hf1 & _) (Hl2 & Hf2 & Hc). repeat split;
    [lia | congruence | exact Hc].
Qed.

Lemma framed_assign (base tl : nat) (key : string) (r : Own.Ref)
      (h : Own.Heap) :
  base <= tl -> Own.closed_from base h -> ref_from base h r ->
  framed base h (Own.assign tl key r h).
Proof.
  intros Hle Hclosed Hr. repeat split.
  - now rewrite length_assign.
  - now apply firstn_assign.
  - now apply closed_from_assign.
Qed.

Lemma framed_alloc_assign (base tl : nat) (key : string) (h : Own.Heap) :
  base <= tl < List.length h -> Own.closed_from base h ->
  framed base h
    (Own.assign tl key (Own.RObject (List.length h))
                  (snd (Own.alloc h))).
Proof.
  intros Htl Hclosed. repeat split.
  - rewrite length_assign. cbn. rewrite length_app. lia.
  - rewrite firstn_assign by lia. cbn. rewrite firstn_app.
    replace (base - List.length h) with 0 by lia. cbn.
    now rewrite app_nil_r.
  - apply closed_from_assign; [now apply closed_from_alloc|].
    intros l [= <-]. cbn. rewrite length_app. cbn. lia.
Qed.

Lemma own_loop_framed (base : nat)
      (rec : Own.Ref -> nat -> Own.Heap
             -> option (Own.Heap * Completion unit))
      (target : Own.Ref) :
  (forall child sl h h' c,
      ref_from base h child -> Own.closed_from base h ->
      rec child sl h = Some (h', c) -> framed base h h') ->
  forall entries h h' c,
    ref_from base h target -> Own.closed_from base h ->
    own_loop rec target entries h = Some (h', c) ->
    framed base h h'.
Proof.
  intros Hrec. induction entries as [|[key value] rest IH];
    intros h h' c Htarget Hclosed; cbn [own_loop].
  - intros [= <- _]. now apply framed_refl.
  - destruct target as [| | | | |tl] eqn:Et;
      try (intros [= <- _]; now apply framed_refl).
    assert (Htl : base <= tl < List.length h) by now apply Htarget.
    destruct (nth_error h tl) as [props|] eqn:Eprops;
      [|intros [= <- _]; now apply framed_refl].
    assert (Hleaf : forall r,
               ref_from base h r ->
               own_loop rec (Own.RObject tl) rest
                          (Own.assign tl key r h) = Some (h', c) ->
               framed base h h').
    { intros r Hr Hrun.
      pose proof (framed_assign base tl key r h (proj1 Htl) Hclosed Hr)
        as Hstep.
      apply (framed_trans _ _ _ _ Hstep).
      apply (IH _ _ _) in Hrun; [exact Hrun| |exact (proj2 (proj2 Hstep))].
      intros l [= <-]. rewrite length_assign. exact Htl. }
    destruct value as [| | b | n | s | sl];
      try (apply Hleaf; intros l; discriminate).
    cbv zeta.
    set (h1 := if negb (has key props)
                  || negb (String.eqb (Own.typeof (Own.read key props))
                                      "object")
               then let (l, h'0) := Own.alloc h in
                    Own.assign tl key (Own.RObject l) h'0
               else h).
    assert (Hstep : framed base h h1).
    { subst h1. destruct (negb (has key props) || _).
      - now apply framed_alloc_assign.
      - now apply framed_refl. }
    destruct Hstep as (Hlen1 & Hfirst1 & Hclosed1).
    set (child := match nth_error h1 tl with
                  | Some props1 => Own.read key props1
                  | None => Own.RUndefined
                  end).
    assert (Hchild : ref_from base h1 child).
    { subst child. intros l Hl.
      destruct (nth_error h1 tl) as [props1|] eqn:E1; [|discriminate].
      unfold Own.read in Hl.
      destruct (get key props1) as [r|] eqn:Eget; [|discriminate]. subst r.
      exact (get_Forall _ _ _ _ (Hclosed1 tl props1 (proj1 Htl) E1) Eget
                        l eq_refl). }
    destruct (rec child sl h1) as [[h2 [[]|e]]|] eqn:Erec; [| |discriminate].
    + intros Hrun.
      pose proof (Hrec _ _ _ _ _ Hchild Hclosed1 Erec) as Hstep2.
      apply (framed_trans _ h h1 h'); [now repeat split|].
      apply (framed_trans _ h1 h2 h' Hstep2).
      apply (IH _ _ _) in Hrun; [exact Hrun| |exact (proj2 (proj2 Hstep2))].
      intros l [= <-]. destruct Hstep2 as (Hlen2 & _). lia.
    + intros [= <- _].
      pose proof (Hrec _ _ _ _ _ Hchild Hclosed1 Erec) as Hstep2.
      apply (framed_trans _ h h1 h2); [now repeat split | exact Hstep2].
Qed.

Lemma own_deepMerge_framed (base fuel : nat) :
  forall target source h h' c,
    ref_from base h target -> Own.closed_from base h ->
    Own.deepMerge fuel target source h = Some (h', c) ->
    framed base h h'.
Proof.
  induction fuel as [|fuel IH]; intros target source h h' c Htarget Hclosed;
    [discriminate|].
  rewrite own_deepMerge_eq.
  destruct (nth_error h source) as [entries|].
  - now apply own_loop_framed.
  - intros [= <- _]. now apply framed_refl.
Qed.

Lemma own_merge_all_framed (base fuel merged : nat) (sources : list nat) :
  forall h h' c,
    base <= merged < List.length h -> Own.closed_from base h ->
    Own.merge_all fuel merged sources h = Some (h', c) ->
    framed base h h'.
Proof.
  induction sources as [|source sources IH]; intros h h' c Hmerged Hclosed;
    cbn [Own.merge_all].
  - intros [= <- _]. now apply framed_refl.
  - destruct (Own.deepMerge fuel (Own.RObject merged) source h)
      as [[h1 c1]|] eqn:Estep; [|discriminate].
    assert (Hstep : framed base h h1).
    { apply (own_deepMerge_framed base fuel _ _ _ _ _) in Estep;
        [exact Estep| |exact Hclosed].
      now intros l [= <-]. }
    destruct c1 as [[]|e].
    + intros Hrun. apply (framed_trans _ _ _ _ Hstep).
      apply IH in Hrun; [exact Hrun| |exact (proj2 (proj2 Hstep))].
      destruct Hstep as (Hlen & _). lia.
    + now intros [= <- _].
Qed.

Lemma closed_from_fresh (h : Own.Heap) :
  Own.closed_from (List.length h) (snd (Own.alloc h)).
Proof.
  intros l props Hl. cbn. rewrite nth_error_app2 by exact Hl.
  destruct (l - List.length h) as [|[|n]]; simpl; try discriminate.
  intros [= <-]. constructor.
Qed.

Lemma firstn_fresh (h : Own.Heap) :
  firstn (List.length h) (snd (Own.alloc h)) = h.
Proof.
  cbn. rewrite firstn_app, Nat.sub_diag, firstn_all. cbn.
  apply app_nil_r.
Qed.

(** A run of the merge leaves every object that was there before it as it
    was. *)
Lemma own_mergeLocaleData_framed (fuel : nat) (sources : list nat)
      (h h' : Own.Heap) (c : Completion unit) :
  snd (Own.mergeLocaleData fuel sources h) = Some (h', c) ->
  firstn (List.length h) h' = h.
Proof.
  unfold Own.mergeLocaleData. cbn [Own.alloc snd]. intros Hrun.
  apply (own_merge_all_framed (List.length h)) in Hrun.
  - destruct Hrun as (_ & Hfirst & _). rewrite Hfirst.
    apply (firstn_fresh h).
  - rewrite length_app. cbn. lia.
  - apply (closed_from_fresh h).
Qed.

(** *** The merge returns *)

Lemma represents_object (base : nat) (h : Own.Heap) (entries : Obj)
      (l : nat) :
  Own.represents base h (VObject entries) (Own.RObject l) <->
  l < base
  /\ exists props,
       nth_error h l = Some props /\ all_represent base h entries props.
Proof. reflexivity. Qed.

Lemma nth_error_firstn_below {A : Type} (base l : nat) (h : list A) :
  l < base -> nth_error (firstn base h) l = nth_error h l.
Proof.
  revert base l. induction h as [|o h IH]; intros base l Hl.
  - now rewrite firstn_nil.
  - destruct base; [lia|]. destruct l; [reflexivity|].
    simpl. apply IH. lia.
Qed.

Lemma nth_error_below (base l : nat) (h h' : Own.Heap) :
  firstn base h' = firstn base h -> l < base ->
  nth_error h' l = nth_error h l.
Proof.
  intros Hfirst Hl.
  rewrite <- (nth_error_firstn_below base l h' Hl), Hfirst.
  now apply nth_error_firstn_below.
Qed.

Lemma represents_stable (base : nat) (h h' : Own.Heap) (v : Value) :
  firstn base h' = firstn base h ->
  forall r, Own.represents base h v r -> Own.represents base h' v r.
Proof.
  intros Hfirst.
  induction v as [| | b | n | s | entries IH] using Value_nested_ind;
    intros r; destruct r; try exact (fun H => H).
  rewrite !represents_object. intros (Hl & props & Hprops & Hall).
  split; [exact Hl|]. exists props.
  split; [now rewrite (nth_error_below base l h h' Hfirst Hl)|].
  clear Hprops. revert props Hall.
  induction entries as [|[k v] entries IHentries]; intros [|[k' r] props];
    try exact (fun H => H).
  inversion IH as [|? ? IHv IHrest]; subst.
  cbn [all_represent]. intros (Hk & Hv & Hrest).
  split; [exact Hk|]. split; [now apply IHv | now apply IHentries].
Qed.

Lemma depth_entry (key : string) (v : Value) (entries : Obj) :
  In (key, v) entries -> depth v < depth (VObject entries).
Proof.
  cbn [depth]. induction entries as [|[k x] entries IH]; [intros []|].
  cbn [fold_right snd]. intros [[= -> ->]|Hin]; [lia|].
  specialize (IH Hin). lia.
Qed.

(** With fuel for the depth of the source, the loop ends. *)
Lemma own_loop_returns (base fuel : nat) (target : Own.Ref)
      (h0 : Own.Heap) (entries : Obj) :
  Forall
    (fun kv =>
       forall target sl h,
         depth (snd kv) <= fuel ->
         Own.represents base h (snd kv) (Own.RObject sl) ->
         ref_from base h target -> Own.closed_from base h ->
         exists h' c, Own.deepMerge fuel target sl h = Some (h', c))
    entries ->
  (forall kv, In kv entries -> depth (snd kv) <= fuel) ->
  forall props h,
    all_represent base h0 entries props ->
    framed base h0 h -> ref_from base h target ->
    exists h' c,
      own_loop (Own.deepMerge fuel) target props h = Some (h', c).
Proof.
  induction 1 as [|[k v] entries IHv _ IH]; intros Hdepth [|[k' r] props] h;
    cbn [all_represent]; try contradiction.
  - intros _ _ _. now eexists _, _.
  - cbn [all_represent]. intros (<- & Hv & Hrest) Hframed Htarget.
    assert (Hdepth' : forall kv, In kv entries -> depth (snd kv) <= fuel).
    { intros kv Hin. apply Hdepth. now right. }
    specialize (IH Hdepth' props).
    destruct Hframed as (Hlen & Hfirst & Hclosed).
    cbn [own_loop].
    destruct target as [| | | | |tl] eqn:Et; try (now eexists _, _).
    assert (Htl : base <= tl < List.length h) by now apply Htarget.
    destruct (nth_error h tl) as [tprops|] eqn:Etl; [|now eexists _, _].
    assert (Hleaf : forall x,
               ref_from base h x ->
               exists h' c,
                 own_loop (Own.deepMerge fuel) (Own.RObject tl) props
                            (Own.assign tl k x h) = Some (h', c)).
    { intros x Hx.
      pose proof (framed_assign base tl k x h (proj1 Htl) Hclosed Hx)
        as Hstep.
      apply IH; [exact Hrest | | ].
      - apply (framed_trans _ h0 h); [now repeat split | exact Hstep].
      - intros l [= <-]. rewrite length_assign. exact Htl. }
    destruct r as [| | b | n | s | sl];
      try (apply Hleaf; intros l; discriminate).
    cbv zeta.
    set (h1 := if negb (has k tprops)
                  || negb (String.eqb (Own.typeof (Own.read k tprops))
                                      "object")
               then let (l, h'0) := Own.alloc h in
                    Own.assign tl k (Own.RObject l) h'0
               else h).
    assert (Hstep : framed base h h1).
    { subst h1. destruct (negb (has k tprops) || _).
      - now apply framed_alloc_assign.
      - now apply framed_refl. }
    set (child := match nth_error h1 tl with
                  | Some props1 => Own.read k props1
                  | None => Own.RUndefined
                  end).
    assert (Hchild : ref_from base h1 child).
    { subst child. intros l Hl.
      destruct (nth_error h1 tl) as [props1|] eqn:E1; [|discriminate].
      unfold Own.read in Hl.
      destruct (get k props1) as [x|] eqn:Eget; [|discriminate]. subst x.
      exact (get_Forall _ _ _ _
               (proj2 (proj2 Hstep) tl props1 (proj1 Htl) E1) Eget
               l eq_refl). }
    destruct (IHv child sl h1) as (h2 & c2 & Hrun).
    + apply (Hdepth (k, v)). now left.
    + apply (represents_stable base h0 h1); [|exact Hv].
      destruct Hstep as (_ & Hfirst1 & _). congruence.
    + exact Hchild.
    + exact (proj2 (proj2 Hstep)).
    + rewrite Hrun. destruct c2 as [[]|e]; [|now eexists _, _].
      pose proof (own_deepMerge_framed base fuel _ _ _ _ _ Hchild
                    (proj2 (proj2 Hstep)) Hrun) as Hstep2.
      apply IH; [exact Hrest | | ].
      * apply (framed_trans _ h0 h); [now repeat split|].
        apply (framed_trans _ h h1 h2 Hstep Hstep2).
      * intros l [= <-]. destruct Hstep as (Hl1 & _).
        destruct Hstep2 as (Hl2 & _). lia.
Qed.

Lemma own_deepMerge_returns (base : nat) (v : Value) :
  forall fuel target sl h,
    depth v <= fuel ->
    Own.represents base h v (Own.RObject sl) ->
    ref_from base h target -> Own.closed_from base h ->
    exists h' c, Own.deepMerge fuel target sl h = Some (h', c).
Proof.
  induction v as [| | b | n | s | entries IH] using Value_nested_ind;
    intros fuel target sl h Hfuel Hv Htarget Hclosed; try contradiction.
  destruct fuel as [|fuel]; [cbn [depth] in Hfuel; lia|].
  apply represents_object in Hv. destruct Hv as (_ & props & Hprops & Hall).
  rewrite own_deepMerge_eq, Hprops.
  apply (own_loop_returns base fuel target h entries).
  - eapply Forall_impl; [|exact IH]. cbn beta.
    intros kv IHkv target' sl' h' Hd. now apply IHkv.
  - intros [k x] Hin. pose proof (depth_entry k x entries Hin). cbn [snd]. lia.
  - exact Hall.
  - now apply framed_refl.
  - exact Htarget.
Qed.

Lemma own_merge_all_returns (base fuel merged : nat) (h0 : Own.Heap)
      (trees : list Value) (sources : list nat) :
  Forall2 (fun v sl => Own.represents base h0 v (Own.RObject sl))
          trees sources ->
  (forall v, In v trees -> depth v <= fuel) ->
  forall h,
    framed base h0 h -> base <= merged < List.length h ->
    exists h' c, Own.merge_all fuel merged sources h = Some (h', c).
Proof.
  induction 1 as [|v sl trees sources Hv _ IH]; intros Hdepth h Hframed Hmerged;
    cbn [Own.merge_all]; [now eexists _, _|].
  assert (Htarget : ref_from base h (Own.RObject merged))
    by now intros l [= <-].
  destruct (own_deepMerge_returns base v fuel (Own.RObject merged) sl h)
    as (h1 & c1 & Hrun); auto.
  - apply Hdepth. now left.
  - apply (represents_stable base h0 h); [|exact Hv].
    now destruct Hframed as (_ & Hfirst & _).
  - exact (proj2 (proj2 Hframed)).
  - rewrite Hrun. destruct c1 as [[]|e]; [|now eexists _, _].
    pose proof (own_deepMerge_framed base fuel _ _ _ _ _ Htarget
                  (proj2 (proj2 Hframed)) Hrun) as Hstep.
    apply IH.
    + intros x Hx. apply Hdepth. now right.
    + exact (framed_trans _ _ _ _ Hframed Hstep).
    + destruct Hstep as (Hlen & _). lia.
Qed.

Lemma own_mergeLocaleData_returns (fuel : nat) (h : Own.Heap)
      (trees : list Value) (sources : list nat) :
  Forall2 (fun v sl => Own.represents (List.length h) h v (Own.RObject sl))
          trees sources ->
  (forall v, In v trees -> depth v <= fuel) ->
  exists h' c,
    snd (Own.mergeLocaleData fuel sources h) = Some (h', c)
    /\ firstn (List.length h) h' = h
    /\ Forall2 (fun v sl =>
                  Own.represents (List.length h) h' v (Own.RObject sl))
               trees sources.
Proof.
  intros Htrees Hdepth.
  destruct (own_merge_all_returns (List.length h) fuel (List.length h) h
              trees sources Htrees Hdepth (snd (Own.alloc h)))
    as (h' & c & Hrun).
  - repeat split.
    + cbn. rewrite length_app. lia.
    + now rewrite firstn_fresh, firstn_all.
    + apply closed_from_fresh.
  - cbn. rewrite length_app. cbn. lia.
  - exists h', c.
    assert (Hrun' : snd (Own.mergeLocaleData fuel sources h) = Some (h', c))
      by exact Hrun.
    split; [exact Hrun'|].
    pose proof (own_mergeLocaleData_framed fuel sources h h' c Hrun')
      as Hfirst.
    split; [exact Hfirst|].
    eapply Forall2_impl; [|exact Htrees]. cbn beta. intros v sl.
    apply represents_stable. rewrite Hfirst. symmetry. apply firstn_all.
Qed.

(** *** The merge on the heap is the merge on values *)

Lemma get_map {A B : Type} (f : A -> B) (key : string)
      (o : list (string * A)) :
  get key (map (on_snd f) o) = option_map f (get key o).
Proof.
  induction o as [|[k x] o IH]; simpl; [reflexivity|].
  destruct (String.eqb k key); [reflexivity | exact IH].
Qed.

Lemma has_map {A B : Type} (f : A -> B) (key : string)
      (o : list (string * A)) :
  has key (map (on_snd f) o) = has key o.
Proof. unfold has. rewrite get_map. now destruct (get key o). Qed.

Lemma set_map {A B : Type} (f : A -> B) (key : string) (v : A)
      (o : list (string * A)) :
  map (on_snd f) (set key v o) = set key (f v) (map (on_snd f) o).
Proof.
  unfold set. rewrite has_map. destruct (has key o).
  - induction o as [|[k x] o IH]; simpl; [reflexivity|].
    destruct (String.eqb k key); simpl; [reflexivity | now rewrite IH].
  - destruct (array_index key) as [n|].
    + induction o as [|[k x] o IH]; simpl; [reflexivity|].
      destruct (array_index k) as [m|]; [destruct (m <? n)%N|]; simpl;
        rewrite ?IH; reflexivity.
    + unfold push. now rewrite map_app.
Qed.

Lemma set_same {A : Type} (key : string) (v : A) (o : list (string * A)) :
  get key o = Some v -> set key v o = o.
Proof.
  intros Hget. unfold set, has. rewrite Hget.
  induction o as [|[k x] o IH]; simpl in *; [reflexivity|].
  destruct (String.eqb_spec k key) as [->|Hne].
  - now injection Hget as ->.
  - now rewrite IH.
Qed.

Lemma set_set {A : Type} (key : string) (v w : A) (o : list (string * A)) :
  set key w (set key v o) = set key w o.
Proof.
  rewrite <- (overwrite_set key v w o). unfold set at 1.
  unfold has. now rewrite get_set_same.
Qed.

(** An assignment puts the property in the place of the one of its key,
    or somewhere among the others. *)
Lemma set_split {A : Type} (key : string) (v : A) (o : list (string * A)) :
  exists o1 o2,
    set key v o = (o1 ++ (key, v) :: o2)%list
    /\ ((get key o = None /\ o = (o1 ++ o2)%list)
        \/ exists old,
             get key o = Some old /\ o = (o1 ++ (key, old) :: o2)%list).
Proof.
  unfold set. destruct (has key o) eqn:Ehas.
  - unfold has in Ehas. clear - Ehas.
    induction o as [|[k x] o IH]; simpl in *; [discriminate|].
    destruct (String.eqb_spec k key) as [->|Hne].
    + exists [], o. split; [reflexivity|]. right. now exists x.
    + destruct (IH Ehas) as (o1 & o2 & Hset & [[Hnone _]|(old & Hold & Ho)]).
      * destruct (get key o); discriminate.
      * exists ((k, x) :: o1), o2. rewrite Hset. split; [reflexivity|].
        right. exists old. split; [exact Hold|]. simpl. now f_equal.
  - apply has_get in Ehas. destruct (array_index key) as [n|].
    + clear - Ehas. induction o as [|[k x] o IH]; simpl in *.
      * exists [], []. split; [reflexivity|]. now left.
      * destruct (String.eqb k key); [discriminate|].
        destruct (array_index k) as [m|]; [destruct (m <? n)%N|].
        -- destruct (IH Ehas) as (o1 & o2 & Hset & [[_ Ho]|(old & Hold & _)]);
             [|congruence].
           exists ((k, x) :: o1), o2. rewrite Hset. split; [reflexivity|].
           left. split; [exact Ehas|]. simpl. now f_equal.
        -- exists [], ((k, x) :: o). split; [reflexivity|]. now left.
        -- exists [], ((k, x) :: o). split; [reflexivity|]. now left.
    + exists o, []. split; [reflexivity|]. left. now rewrite app_nil_r.
Qed.

Lemma fold_and_Forall {A : Type} (P : A -> Prop) (l : list A) :
  fold_right and True (map P l) <-> Forall P l.
Proof.
  induction l as [|x l IH]; simpl.
  - split; [constructor | trivial].
  - rewrite IH. split.
    + intros [Hx Hl]. now constructor.
    + intros H. inversion H; subst. now split.
Qed.

Lemma holds_object (h : Own.Heap) (l : nat)
      (props : list (string * Located)) :
  holds h (LObject l props) <->
  nth_error h l = Some (map (on_snd ref_of) props)
  /\ Forall (fun kv => holds h (snd kv)) props.
Proof. cbn [holds]. now rewrite fold_and_Forall. Qed.

(** A tree that the heap has, it has as long as its locations are as they
    were. *)
Lemma holds_agree (h h' : Own.Heap) (t : Located) :
  (forall l, In l (locs t) -> nth_error h' l = nth_error h l) ->
  holds h t -> holds h' t.
Proof.
  induction t as [s|l props IH] using Located_nested_ind; [trivial|].
  rewrite !holds_object. intros Hagree [Hl Hprops]. split.
  - rewrite Hagree; [exact Hl | now left].
  - clear Hl. induction props as [|[k c] props IHprops]; [constructor|].
    inversion IH as [|? ? IHc IHrest]; subst.
    inversion Hprops as [|? ? Hc Hrest]; subst.
    constructor.
    + apply IHc; [|exact Hc]. intros l' Hl'. apply Hagree.
      right. cbn [flat_map snd]. apply in_or_app. now left.
    + apply IHprops; [exact IHrest | | exact Hrest].
      intros l' [<-|Hl']; apply Hagree; [now left|].
      right. cbn [flat_map snd]. apply in_or_app. now right.
Qed.

Lemma locs_children_app (a b : list (string * Located)) :
  flat_map (fun kv => locs (snd kv)) (a ++ b) =
  (flat_map (fun kv => locs (snd kv)) a
     ++ flat_map (fun kv => locs (snd kv)) b)%list.
Proof. apply flat_map_app. Qed.

Lemma NoDup_middle (A : Type) (a old new b : list A) :
  NoDup (a ++ old ++ b) -> NoDup new ->
  (forall x, In x new -> ~ In x a /\ ~ In x b) ->
  NoDup (a ++ new ++ b).
Proof.
  intros Hold Hnew Hfresh.
  assert (Hab : NoDup (a ++ b)).
  { clear - Hold. induction old as [|x old IH]; [exact Hold|].
    apply IH. apply NoDup_remove_1 with (a := x). exact Hold. }
  clear Hold. induction new as [|x new IH]; [exact Hab|].
  inversion Hnew as [|? ? Hx Hnew']; subst.
  apply NoDup_Add with (a := x) (l := (a ++ new ++ b)%list).
  - clear. induction a as [|y a IH]; simpl; constructor. exact IH.
  - split.
    + apply IH; [exact Hnew'|]. intros y Hy. apply Hfresh. now right.
    + intros Hin. apply in_app_or in Hin. destruct Hin as [Hin|Hin].
      * now apply (proj1 (Hfresh x (or_introl eq_refl))).
      * apply in_app_or in Hin. destruct Hin as [Hin|Hin]; [contradiction|].
        now apply (proj2 (Hfresh x (or_introl eq_refl))).
Qed.

(** The locations of an object after an assignment to a property. *)
Lemma locs_set (tl : nat) (key : string) (c : Located)
      (t : list (string * Located)) (l : nat) :
  In l (locs (LObject tl (set key c t))) ->
  In l (locs (LObject tl t)) \/ In l (locs c).
Proof.
  destruct (set_split key c t) as (o1 & o2 & Hset & Ht).
  rewrite Hset. cbn [locs]. rewrite locs_children_app. cbn [flat_map snd].
  intros [<-|Hin]; [left; now left|].
  assert (Hsub : forall x, In x (o1 ++ o2)%list -> In x t).
  { destruct Ht as [[_ ->]|(old & _ & ->)]; [trivial|].
    intros x Hx. apply in_app_or in Hx. apply in_or_app.
    destruct Hx; [now left | right; now right]. }
  apply in_app_or in Hin. destruct Hin as [Hin|Hin].
  - left. right. apply in_flat_map in Hin. destruct Hin as (x & Hx & Hl).
    apply in_flat_map. exists x. split; [|exact Hl].
    apply Hsub, in_or_app. now left.
  - apply in_app_or in Hin. destruct Hin as [Hin|Hin]; [now right|].
    left. right. apply in_flat_map in Hin. destruct Hin as (x & Hx & Hl).
    apply in_flat_map. exists x. split; [|exact Hl].
    apply Hsub, in_or_app. now right.
Qed.

Lemma locs_at_sub (tl : nat) (key : string) (t : list (string * Located))
      (l : nat) :
  In l (locs_at key t) -> In l (locs (LObject tl t)).
Proof.
  unfold locs_at. destruct (get key t) as [c|] eqn:E; [|intros []].
  intros Hl. right. apply in_flat_map. exists (key, c).
  split; [now apply get_In | exact Hl].
Qed.

Lemma NoDup_app_inv (A : Type) (a b : list A) :
  NoDup (a ++ b) ->
  NoDup a /\ NoDup b /\ forall x, In x a -> ~ In x b.
Proof.
  intros H. split; [now apply NoDup_app_remove_r in H|].
  split; [now apply NoDup_app_remove_l in H|].
  induction a as [|y a IH]; [intros x []|].
  simpl in H. inversion H as [|? ? Hy Hrest]; subst.
  intros x [<-|Hx].
  - intros Hb. apply Hy, in_or_app. now right.
  - now apply IH.
Qed.

(** An assignment to a property of the accumulator: what the heap and the
    assigned child have to be for the accumulator to be owned again. *)
Lemma owned_set (base tl : nat) (key : string) (c : Located)
      (t : list (string * Located)) (h h' : Own.Heap) :
  owned base h (LObject tl t) ->
  List.length h <= List.length h' ->
  nth_error h' tl = Some (set key (ref_of c) (map (on_snd ref_of) t)) ->
  owned base h' c ->
  (forall l, In l (locs c) -> In l (locs (LObject tl t)) ->
             In l (locs_at key t)) ->
  (forall l, l < List.length h -> l <> tl -> ~ In l (locs_at key t) ->
             nth_error h' l = nth_error h l) ->
  owned base h' (LObject tl (set key c t)).
Proof.
  intros (Hholds & Hnodup & Hrange) Hlen Htl (Hc & Hcnodup & Hcrange)
         Hoverlap Hframe.
  apply holds_object in Hholds. destruct Hholds as [_ Hchildren].
  rewrite Forall_forall in Hchildren.
  cbn [locs] in Hnodup. inversion Hnodup as [|? ? Htl_fresh Hnodup']; subst.
  split; [|split].
  2:{ (* each location once *)
    destruct (set_split key c t) as (o1 & o2 & Hset & Ht).
    rewrite Hset. cbn [locs]. rewrite locs_children_app. cbn [flat_map snd].
    set (L1 := flat_map (fun kv => locs (snd kv)) o1) in *.
    set (L2 := flat_map (fun kv => locs (snd kv)) o2) in *.
    assert (Hlocs : flat_map (fun kv => locs (snd kv)) t =
                    (L1 ++ locs_at key t ++ L2)%list).
    { unfold locs_at. destruct Ht as [[-> ->]|(old & -> & ->)].
      - apply locs_children_app.
      - now rewrite locs_children_app. }
    rewrite Hlocs in Hnodup', Htl_fresh.
    assert (Hfresh : forall x, In x (locs c) -> ~ In x L1 /\ ~ In x L2).
    { intros x Hx.
      destruct (NoDup_app_inv _ _ _ Hnodup') as (_ & Hn2 & Hd1).
      destruct (NoDup_app_inv _ _ _ Hn2) as (_ & _ & Hd2).
      split; intros Hin.
      - apply (Hd1 x Hin). apply in_or_app. left.
        apply Hoverlap; [exact Hx|]. right. cbn [locs].
        rewrite Hlocs. apply in_or_app. now left.
      - assert (Hat : In x (locs_at key t)).
        { apply Hoverlap; [exact Hx|]. right. rewrite Hlocs.
          apply in_or_app. right. apply in_or_app. now right. }
        exact (Hd2 x Hat Hin). }
    constructor.
    - intros Hin. apply in_app_or in Hin. destruct Hin as [Hin|Hin].
      + apply Htl_fresh, in_or_app. now left.
      + apply in_app_or in Hin. destruct Hin as [Hin|Hin].
        * apply Htl_fresh. apply in_or_app. right. apply in_or_app. left.
          apply Hoverlap; [exact Hin | now left].
        * apply Htl_fresh. apply in_or_app. right. apply in_or_app.
          now right.
    - now apply (NoDup_middle _ L1 (locs_at key t) (locs c) L2). }
  2:{ (* at locations of the heap *)
    intros l Hl. apply locs_set in Hl. destruct Hl as [Hl|Hl].
    - specialize (Hrange l Hl). lia.
    - now apply Hcrange. }
  (* the heap has the tree *)
  apply holds_object. split; [now rewrite set_map|].
  apply Forall_forall. intros x Hx.
  destruct (set_split key c t) as (o1 & o2 & Hset & Ht).
  rewrite Hset in Hx. apply in_app_or in Hx.
  assert (Hsibling :
            In x t ->
            (forall l, In l (locs (snd x)) -> ~ In l (locs_at key t)) ->
            holds h' (snd x)).
  { intros Hin_t Hdisjoint. apply (holds_agree h).
    - intros l Hl.
      assert (Hin : In l (flat_map (fun kv => locs (snd kv)) t)).
      { apply in_flat_map. now exists x. }
      apply Hframe.
      + assert (H : In l (locs (LObject tl t))) by now right.
        specialize (Hrange l H). lia.
      + intros ->. contradiction.
      + now apply Hdisjoint.
    - now apply Hchildren. }
  assert (Hlocs : flat_map (fun kv => locs (snd kv)) t =
                  (flat_map (fun kv => locs (snd kv)) o1
                     ++ locs_at key t
                     ++ flat_map (fun kv => locs (snd kv)) o2)%list).
  { unfold locs_at. destruct Ht as [[-> ->]|(old & -> & ->)].
    - apply locs_children_app.
    - now rewrite locs_children_app. }
  assert (Hsub : forall y, In y (o1 ++ o2)%list -> In y t).
  { destruct Ht as [[_ ->]|(old & _ & ->)]; [trivial|].
    intros y Hy. apply in_app_or in Hy. apply in_or_app.
    destruct Hy; [now left | right; now right]. }
  rewrite Hlocs in Hnodup'.
  destruct (NoDup_app_inv _ _ _ Hnodup') as (_ & Hn2 & Hd1).
  destruct (NoDup_app_inv _ _ _ Hn2) as (_ & _ & Hd2).
  destruct Hx as [Hx|[<-|Hx]]; [| exact Hc |].
  - apply Hsibling; [apply Hsub, in_or_app; now left|].
    intros l Hl Hat. apply (Hd1 l).
    + apply in_flat_map. now exists x.
    + apply in_or_app. now left.
  - apply Hsibling; [apply Hsub, in_or_app; now right|].
    intros l Hl Hat. apply (Hd2 l Hat). apply in_flat_map. now exists x.
Qed.

Lemma owned_at (base tl : nat) (t : list (string * Located))
      (h : Own.Heap) :
  owned base h (LObject tl t) ->
  nth_error h tl = Some (map (on_snd ref_of) t)
  /\ base <= tl < List.length h.
Proof.
  intros (Hholds & _ & Hrange). apply holds_object in Hholds.
  split; [exact (proj1 Hholds)|]. apply Hrange. now left.
Qed.

Lemma owned_child (base tl : nat) (key : string) (c : Located)
      (t : list (string * Located)) (h : Own.Heap) :
  owned base h (LObject tl t) -> get key t = Some c ->
  owned base h c /\ ~ In tl (locs c).
Proof.
  intros (Hholds & Hnodup & Hrange) Hget.
  apply holds_object in Hholds. destruct Hholds as [_ Hchildren].
  rewrite Forall_forall in Hchildren.
  pose proof (get_In _ _ _ Hget) as Hin.
  assert (Hsub : forall l, In l (locs c) ->
                           In l (flat_map (fun kv => locs (snd kv)) t)).
  { intros l Hl. apply in_flat_map. now exists (key, c). }
  cbn [locs] in Hnodup. inversion Hnodup as [|? ? Htl Hnodup']; subst.
  split; [split; [|split]|].
  - exact (Hchildren _ Hin).
  - apply in_split in Hin. destruct Hin as (a & b & ->).
    rewrite locs_children_app in Hnodup'. cbn [flat_map snd] in Hnodup'.
    apply NoDup_app_remove_l in Hnodup'.
    now apply NoDup_app_remove_r in Hnodup'.
  - intros l Hl. apply Hrange. right. now apply Hsub.
  - intros Hl. apply Htl. now apply Hsub.
Qed.

Lemma grown_refl (h : Own.Heap) (t : Located) : grown h h t t.
Proof. repeat split; [lia | now left]. Qed.

Lemma grown_trans (h1 h2 h3 : Own.Heap) (t1 t2 t3 : Located) :
  grown h1 h2 t1 t2 -> grown h2 h3 t2 t3 -> grown h1 h3 t1 t3.
Proof.
  intros (Hl1 & Hs1 & Hf1) (Hl2 & Hs2 & Hf2). split; [lia|]. split.
  - intros l Hl. destruct (Hs2 l Hl) as [H|H]; [|right; lia].
    exact (Hs1 l H).
  - intros l Hl Hnot. rewrite Hf2; [now apply Hf1 | lia |].
    intros H2. destruct (Hs1 l H2) as [H|H]; [contradiction | lia].
Qed.

Lemma grown_below (base : nat) (h h' : Own.Heap) (t t' : Located) :
  owned base h t -> grown h h' t t' ->
  forall l, l < List.length h -> l < base ->
            nth_error h' l = nth_error h l.
Proof.
  intros (_ & _ & Hrange) (_ & _ & Hframe) l Hlen Hl.
  apply Hframe; [exact Hlen|].
  intros Hin. specialize (Hrange l Hin). lia.
Qed.

Lemma nth_error_assign (tl l : nat) (key : string) (r : Own.Ref)
      (h : Own.Heap) (props : Own.Props) :
  nth_error h tl = Some props ->
  nth_error (Own.assign tl key r h) l =
  if Nat.eqb l tl then Some (set key r props) else nth_error h l.
Proof.
  intros Htl. unfold Own.assign. rewrite Htl, nth_error_write, Htl.
  reflexivity.
Qed.

Lemma owned_assign_leaf (base tl : nat) (key s : string)
      (t : list (string * Located)) (h : Own.Heap) :
  owned base h (LObject tl t) ->
  owned base (Own.assign tl key (Own.RString s) h)
        (LObject tl (set key (LString s) t))
  /\ grown h (Own.assign tl key (Own.RString s) h)
           (LObject tl t) (LObject tl (set key (LString s) t)).
Proof.
  intros Howned. destruct (owned_at _ _ _ _ Howned) as [Htl Hrange].
  split.
  - apply (owned_set base tl key (LString s) t h); auto.
    + now rewrite length_assign.
    + now rewrite (nth_error_assign _ _ _ _ _ _ Htl), Nat.eqb_refl.
    + split; [exact I|]. split; [apply NoDup_nil | intros l []].
    + intros l [].
    + intros l _ Hne _. rewrite (nth_error_assign _ _ _ _ _ _ Htl).
      now apply Nat.eqb_neq in Hne as ->.
  - split; [now rewrite length_assign|]. split.
    + intros l Hl. apply locs_set in Hl. destruct Hl as [Hl|[]]. now left.
    + intros l _ Hnot. rewrite (nth_error_assign _ _ _ _ _ _ Htl).
      destruct (Nat.eqb_spec l tl) as [->|_]; [|reflexivity].
      exfalso. apply Hnot. now left.
Qed.

Lemma owned_assign_fresh (base tl : nat) (key : string)
      (t : list (string * Located)) (h : Own.Heap) :
  owned base h (LObject tl t) ->
  owned base
        (Own.assign tl key (Own.RObject (List.length h))
                      (snd (Own.alloc h)))
        (LObject tl (set key (LObject (List.length h) []) t))
  /\ grown h
           (Own.assign tl key (Own.RObject (List.length h))
                         (snd (Own.alloc h)))
           (LObject tl t)
           (LObject tl (set key (LObject (List.length h) []) t)).
Proof.
  intros Howned. destruct (owned_at _ _ _ _ Howned) as [Htl Hrange].
  assert (Htl' : nth_error (snd (Own.alloc h)) tl =
                 Some (map (on_snd ref_of) t)).
  { cbn. rewrite nth_error_app1 by lia. exact Htl. }
  assert (Hget : forall l,
             nth_error (Own.assign tl key (Own.RObject (List.length h))
                                     (snd (Own.alloc h))) l =
             if Nat.eqb l tl
             then Some (set key (Own.RObject (List.length h))
                            (map (on_snd ref_of) t))
             else nth_error (h ++ [[]]) l).
  { intros l. now rewrite (nth_error_assign _ _ _ _ _ _ Htl'). }
  assert (Hlen : List.length
                   (Own.assign tl key (Own.RObject (List.length h))
                                 (snd (Own.alloc h))) =
                 S (List.length h)).
  { rewrite length_assign. cbn. rewrite length_app. cbn. lia. }
  split.
  - apply (owned_set base tl key (LObject (List.length h) []) t h); auto.
    + lia.
    + now rewrite Hget, Nat.eqb_refl.
    + split; [|split].
      * apply holds_object. split; [|constructor].
        rewrite Hget. destruct (Nat.eqb_spec (List.length h) tl); [lia|].
        rewrite nth_error_app2 by lia. now rewrite Nat.sub_diag.
      * cbn. constructor; [intros []|constructor].
      * intros l [<-|[]]. lia.
    + intros l [<-|[]] Hin.
      destruct Howned as (_ & _ & Hr). specialize (Hr _ Hin). lia.
    + intros l Hl Hne _. rewrite Hget.
      apply Nat.eqb_neq in Hne as ->. now rewrite nth_error_app1.
  - split; [lia|]. split.
    + intros l Hl. apply locs_set in Hl.
      destruct Hl as [Hl|[<-|[]]]; [now left | right; lia].
    + intros l Hl Hnot. rewrite Hget.
      destruct (Nat.eqb_spec l tl) as [->|_].
      * exfalso. apply Hnot. now left.
      * now rewrite nth_error_app1.
Qed.

Lemma owned_update_child (base tl cl : nat) (key : string)
      (ct ct' t : list (string * Located)) (h h' : Own.Heap) :
  owned base h (LObject tl t) ->
  get key t = Some (LObject cl ct) ->
  owned base h' (LObject cl ct') ->
  grown h h' (LObject cl ct) (LObject cl ct') ->
  owned base h' (LObject tl (set key (LObject cl ct') t))
  /\ grown h h' (LObject tl t) (LObject tl (set key (LObject cl ct') t)).
Proof.
  intros Howned Hget Hchild (Hlen & Hsub & Hframe).
  destruct (owned_at _ _ _ _ Howned) as [Htl Hrange].
  destruct (owned_child _ _ _ _ _ _ Howned Hget) as [Hold Hnot].
  assert (Hat : locs_at key t = locs (LObject cl ct)).
  { unfold locs_at. now rewrite Hget. }
  split.
  - apply (owned_set base tl key (LObject cl ct') t h); auto.
    + rewrite Hframe; [|lia|exact Hnot]. rewrite Htl. f_equal.
      symmetry. apply set_same. rewrite get_map, Hget. reflexivity.
    + intros l Hl Hin. rewrite Hat.
      destruct (Hsub l Hl) as [H|H]; [exact H|].
      destruct Howned as (_ & _ & Hr). specialize (Hr _ Hin). lia.
    + intros l Hl Hne Hnot'. rewrite Hat in Hnot'. now apply Hframe.
  - split; [exact Hlen|]. split.
    + intros l Hl. apply locs_set in Hl. destruct Hl as [Hl|Hl]; [now left|].
      destruct (Hsub l Hl) as [H|H]; [|now right].
      left. apply (locs_at_sub tl key). now rewrite Hat.
    + intros l Hl Hnot'. apply Hframe; [exact Hl|].
      intros Hin. apply Hnot'. apply (locs_at_sub tl key). now rewrite Hat.
Qed.

Lemma represents_agree (base : nat) (h h' : Own.Heap) (v : Value) :
  (forall l, l < base -> nth_error h' l = nth_error h l) ->
  forall r, Own.represents base h v r -> Own.represents base h' v r.
Proof.
  intros Hagree.
  induction v as [| | b | n | s | entries IH] using Value_nested_ind;
    intros r; destruct r; try exact (fun H => H).
  rewrite !represents_object. intros (Hl & props & Hprops & Hall).
  split; [exact Hl|]. exists props.
  split; [now rewrite (Hagree l Hl)|].
  clear Hprops. revert props Hall.
  induction entries as [|[k v] entries IHentries]; intros [|[k' r] props];
    try exact (fun H => H).
  inversion IH as [|? ? IHv IHrest]; subst.
  cbn [all_represent]. intros (Hk & Hv & Hrest).
  split; [exact Hk|]. split; [now apply IHv | now apply IHentries].
Qed.

Lemma own_test_located (key : string) (t : list (string * Located)) :
  negb (has key (map (on_snd ref_of) t))
  || negb (String.eqb
             (Own.typeof (Own.read key (map (on_snd ref_of) t)))
             "object")
  = match get key t with
    | Some (LObject _ _) => false
    | _ => true
    end.
Proof.
  unfold has, Own.read. rewrite get_map.
  destruct (get key t) as [[s|cl ct]|]; reflexivity.
Qed.

Lemma own_loop_refines (base fuel tl : nat) (h0 : Own.Heap)
      (entries : Obj) :
  Forall (fun kv => shape (snd kv) = true /\ depth (snd kv) <= fuel
                    /\ refines_at base (snd kv)) entries ->
  forall props h t,
    all_represent base h0 entries props ->
    (forall l, l < base -> nth_error h l = nth_error h0 l) ->
    owned base h (LObject tl t) ->
    exists h' t',
      own_loop (Own.deepMerge fuel) (Own.RObject tl) props h =
      Some (h', Normal tt)
      /\ merge_loop entries (map (on_snd erase) t) =
         Normal (map (on_snd erase) t')
      /\ owned base h' (LObject tl t')
      /\ grown h h' (LObject tl t) (LObject tl t').
Proof.
  induction 1 as [|[k v] entries (Hshape & Hdepth & IHv) _ IH];
    intros [|[k' r] props] h t; cbn [all_represent]; try contradiction.
  - intros _ _ Howned. exists h, t. split; [reflexivity|].
    split; [reflexivity|]. split; [exact Howned | apply grown_refl].
  - intros (<- & Hv & Hrest) Hbelow Howned. cbn [snd] in *.
    destruct (owned_at _ _ _ _ Howned) as [Htl Hrange].
    assert (Hnext :
              forall h1 t1,
                owned base h1 (LObject tl t1) ->
                grown h h1 (LObject tl t) (LObject tl t1) ->
                exists h' t',
                  own_loop (Own.deepMerge fuel) (Own.RObject tl)
                             props h1 = Some (h', Normal tt)
                  /\ merge_loop entries (map (on_snd erase) t1) =
                     Normal (map (on_snd erase) t')
                  /\ owned base h' (LObject tl t')
                  /\ grown h h' (LObject tl t) (LObject tl t')).
    { intros h1 t1 Howned1 Hgrown1.
      destruct (IH props h1 t1 Hrest) as (h' & t' & Hrun & Hpure & Ho & Hg).
      - intros l Hl. rewrite <- (Hbelow l Hl).
        apply (grown_below base h h1 _ _ Howned Hgrown1); [lia | exact Hl].
      - exact Howned1.
      - exists h', t'. split; [exact Hrun|]. split; [exact Hpure|].
        split; [exact Ho|]. exact (grown_trans _ _ _ _ _ _ Hgrown1 Hg). }
    cbn [own_loop]. rewrite Htl.
    destruct v as [| | | | s | sub]; try discriminate.
    + (* a Leaf *)
      destruct r; try contradiction. cbn in Hv. subst s0.
      destruct (owned_assign_leaf base tl k s t h Howned) as [Ho1 Hg1].
      destruct (Hnext _ _ Ho1 Hg1) as (h' & t' & Hrun & Hpure & Ho & Hg).
      exists h', t'. split; [exact Hrun|]. split; [|now split].
      rewrite merge_loop_leaf by reflexivity.
      rewrite (set_map erase k (LString s) t) in Hpure. exact Hpure.
    + (* a Branch *)
      destruct r as [| | | | |sl]; try contradiction.
      cbv zeta. rewrite own_test_located.
      assert (Hnull : get k (map (on_snd erase) t) <> Some VNull).
      { rewrite get_map. destruct (get k t) as [[]|]; discriminate. }
      rewrite (merge_loop_branch k sub entries _ Hnull).
      assert (Hchild :
                forall h1 t1 cl ct,
                  owned base h1 (LObject tl t1) ->
                  grown h h1 (LObject tl t) (LObject tl t1) ->
                  get k t1 = Some (LObject cl ct) ->
                  branch_of k (map (on_snd erase) t) = map (on_snd erase) ct ->
                  (forall X, set k X (map (on_snd erase) t1) =
                             set k X (map (on_snd erase) t)) ->
                  exists h' t',
                    match Own.deepMerge fuel (Own.RObject cl) sl h1 with
                    | Some (h2, Normal _) =>
                        own_loop (Own.deepMerge fuel) (Own.RObject tl)
                                   props h2
                    | Some (h2, Throw e) => Some (h2, Throw e)
                    | None => None
                    end = Some (h', Normal tt)
                    /\ (child <-
                          deepMerge (branch_of k (map (on_snd erase) t)) sub ;;
                        merge_loop entries
                          (set k (VObject child) (map (on_snd erase) t))) =
                       Normal (map (on_snd erase) t')
                    /\ owned base h' (LObject tl t')
                    /\ grown h h' (LObject tl t) (LObject tl t')).
      { intros h1 t1 cl ct Ho1 Hg1 Hget Hbranch Hset.
        destruct (owned_child _ _ _ _ _ _ Ho1 Hget) as [Hoc _].
        destruct (IHv fuel sl h1 cl ct Hdepth) as
            (h2 & ct2 & sub' & Hsub & Hrun & Hpure & Ho2 & Hg2).
        - apply (represents_agree base h0 h1); [|exact Hv].
          intros l Hl. rewrite <- (Hbelow l Hl).
          apply (grown_below base h h1 _ _ Howned Hg1); [lia | exact Hl].
        - exact Hoc.
        - injection Hsub as <-. rewrite Hrun.
          destruct (owned_update_child _ _ _ _ _ _ _ _ _ Ho1 Hget Ho2 Hg2)
            as [Ho3 Hg3].
          destruct (Hnext h2 (set k (LObject cl ct2) t1) Ho3
                          (grown_trans _ _ _ _ _ _ Hg1 Hg3))
            as (h' & t' & Hrun' & Hpure' & Ho & Hg).
          exists h', t'. split; [exact Hrun'|]. split; [|now split].
          rewrite Hbranch, Hpure. cbn [bind].
          rewrite <- Hset.
          rewrite (set_map erase k (LObject cl ct2) t1) in Hpure'.
          exact Hpure'. }
      destruct (get k t) as [[s|cl ct]|] eqn:Eget.
      * (* a Leaf at the key: a new Branch *)
        destruct (owned_assign_fresh base tl k t h Howned) as [Ho1 Hg1].
        cbn [Own.alloc].
        change (h ++ [[]])%list with (snd (Own.alloc h)).
        destruct (owned_at _ _ _ _ Ho1) as [Htl1 _]. rewrite Htl1.
        unfold Own.read. rewrite get_map, get_set_same.
        cbn [option_map ref_of].
        apply (Hchild _ _ _ [] Ho1 Hg1).
        -- apply get_set_same.
        -- unfold branch_of. rewrite get_map, Eget. reflexivity.
        -- intros X. rewrite (set_map erase). apply set_set.
      * (* a Branch at the key *)
        rewrite Htl. unfold Own.read. rewrite get_map, Eget.
        cbn [option_map ref_of].
        apply (Hchild h t cl ct Howned (grown_refl _ _) Eget).
        -- unfold branch_of. rewrite get_map, Eget. reflexivity.
        -- reflexivity.
      * (* nothing at the key: a new Branch *)
        destruct (owned_assign_fresh base tl k t h Howned) as [Ho1 Hg1].
        cbn [Own.alloc].
        change (h ++ [[]])%list with (snd (Own.alloc h)).
        destruct (owned_at _ _ _ _ Ho1) as [Htl1 _]. rewrite Htl1.
        unfold Own.read. rewrite get_map, get_set_same.
        cbn [option_map ref_of].
        apply (Hchild _ _ _ [] Ho1 Hg1).
        -- apply get_set_same.
        -- unfold branch_of. rewrite get_map, Eget. reflexivity.
        -- intros X. rewrite (set_map erase). apply set_set.
Qed.

Lemma own_deepMerge_refines (base : nat) (v : Value) :
  shape v = true -> refines_at base v.
Proof.
  induction v as [| | b | n | s | entries IH] using Value_nested_ind;
    intros Hshape fuel sl h tl t Hdepth Hv Howned; try contradiction.
  destruct fuel as [|fuel]; [cbn [depth] in Hdepth; lia|].
  apply represents_object in Hv. destruct Hv as (_ & props & Hprops & Hall).
  apply shape_object in Hshape. destruct Hshape as [_ Hshapes].
  destruct (own_loop_refines base fuel tl h entries) with
      (props := props) (h := h) (t := t)
    as (h' & t' & Hrun & Hpure & Ho & Hg); auto.
  - rewrite Forall_forall in *. intros [k x] Hin. cbn [snd].
    pose proof (depth_entry k x entries Hin) as Hd.
    split; [exact (Hshapes _ Hin)|]. split; [lia|].
    exact (IH _ Hin (Hshapes _ Hin)).
  - exists h', t', entries. split; [reflexivity|].
    rewrite own_deepMerge_eq, Hprops, deepMerge_loop.
    split; [exact Hrun|]. split; [exact Hpure|]. split; [exact Ho|exact Hg].
Qed.

Lemma own_merge_all_refines (base fuel merged : nat) (h0 : Own.Heap)
      (trees : list Obj) (sources : list nat) :
  Forall2 (fun tree sl =>
             Own.represents base h0 (VObject tree) (Own.RObject sl))
          trees sources ->
  Forall (fun tree => shape (VObject tree) = true) trees ->
  (forall tree, In tree trees -> depth (VObject tree) <= fuel) ->
  forall h t,
    (forall l, l < base -> nth_error h l = nth_error h0 l) ->
    owned base h (LObject merged t) ->
    exists h' t',
      Own.merge_all fuel merged sources h = Some (h', Normal tt)
      /\ mergeLocaleData_loop trees (map (on_snd erase) t) =
         Normal (map (on_snd erase) t')
      /\ owned base h' (LObject merged t')
      /\ grown h h' (LObject merged t) (LObject merged t').
Proof.
  induction 1 as [|tree sl trees sources Htree _ IH];
    intros Hshapes Hdepth h t Hbelow Howned.
  - exists h, t. split; [reflexivity|]. split; [reflexivity|].
    split; [exact Howned | apply grown_refl].
  - inversion Hshapes as [|? ? Hshape Hshapes']; subst.
    destruct (own_deepMerge_refines base (VObject tree) Hshape
                fuel sl h merged t)
      as (h1 & t1 & entries & Hentries & Hrun & Hpure & Ho1 & Hg1).
    + apply Hdepth. now left.
    + now apply (represents_agree base h0 h).
    + exact Howned.
    + injection Hentries as <-.
      destruct (IH Hshapes') with (h := h1) (t := t1)
        as (h' & t' & Hrun' & Hpure' & Ho & Hg).
      * intros x Hx. apply Hdepth. now right.
      * intros l Hl. rewrite <- (Hbelow l Hl).
        destruct (owned_at _ _ _ _ Howned) as [_ Hrange].
        apply (grown_below base h h1 _ _ Howned Hg1); [lia | exact Hl].
      * exact Ho1.
      * exists h', t'. cbn [Own.merge_all mergeLocaleData_loop].
        rewrite Hrun, Hpure. cbn [bind].
        split; [exact Hrun'|]. split; [exact Hpure'|].
        split; [exact Ho|]. exact (grown_trans _ _ _ _ _ _ Hg1 Hg).
Qed.

Lemma owned_fresh (h : Own.Heap) :
  owned (List.length h) (snd (Own.alloc h)) (LObject (List.length h) []).
Proof.
  split; [|split].
  - apply holds_object. split; [|constructor].
    cbn. rewrite nth_error_app2 by lia. now rewrite Nat.sub_diag.
  - cbn. constructor; [intros [] | constructor].
  - intros l [<-|[]]. cbn. rewrite length_app. cbn. lia.
Qed.

Lemma nth_error_fresh (h : Own.Heap) (l : nat) :
  l < List.length h -> nth_error (snd (Own.alloc h)) l = nth_error h l.
Proof. intros Hl. cbn. now rewrite nth_error_app1. Qed.

(** On Shape Nodes, a run of the merge on the heap returns normally, its
    accumulator is the tree that the merge on values gives, and the heap
    from before the run is as it was. *)
Lemma own_mergeLocaleData_refines (fuel : nat) (h : Own.Heap)
      (trees : list Obj) (sources : list nat) :
  Forall2 (fun tree sl =>
             Own.represents (List.length h) h (VObject tree)
                              (Own.RObject sl))
          trees sources ->
  Forall (fun tree => shape (VObject tree) = true) trees ->
  (forall tree, In tree trees -> depth (VObject tree) <= fuel) ->
  exists h' t',
    Own.mergeLocaleData fuel sources h =
      (List.length h, Some (h', Normal tt))
    /\ mergeLocaleData trees = Normal (map (on_snd erase) t')
    /\ holds h' (LObject (List.length h) t')
    /\ firstn (List.length h) h' = h.
Proof.
  intros Htrees Hshapes Hdepth.
  destruct (own_merge_all_refines (List.length h) fuel (List.length h) h
              trees sources Htrees Hshapes Hdepth
              (snd (Own.alloc h)) [])
    as (h' & t' & Hrun & Hpure & Ho & _).
  - intros l Hl. now apply nth_error_fresh.
  - apply owned_fresh.
  - exists h', t'.
    assert (Hrun' : Own.mergeLocaleData fuel sources h =
                    (List.length h, Some (h', Normal tt))).
    { unfold Own.mergeLocaleData. cbn [Own.alloc].
      cbn [Own.alloc snd] in Hrun. now rewrite Hrun. }
    split; [exact Hrun'|]. split; [exact Hpure|].
    split; [exact (proj1 Ho)|].
    apply (own_mergeLocaleData_framed fuel sources h h' (Normal tt)).
    now rewrite Hrun'.
Qed.

Lemma represents_mono (base base' : nat) (h : Own.Heap) (v : Value) :
  base <= base' ->
  forall r, Own.represents base h v r -> Own.represents base' h v r.
Proof.
  intros Hle.
  induction v as [| | b | n | s | entries IH] using Value_nested_ind;
    intros r; destruct r; try exact (fun H => H).
  rewrite !represents_object. intros (Hl & props & Hprops & Hall).
  split; [lia|]. exists props. split; [exact Hprops|].
  clear Hprops. revert props Hall.
  induction entries as [|[k v] entries IHentries]; intros [|[k' r] props];
    try exact (fun H => H).
  inversion IH as [|? ? IHv IHrest]; subst.
  cbn [all_represent]. intros (Hk & Hv & Hrest).
  split; [exact Hk|]. split; [now apply IHv | now apply IHentries].
Qed.

(** Two runs in a row: the second is on the heap that the first has left,
    and its accumulator is the same tree. *)
Lemma own_mergeLocaleData_twice (fuel : nat) (h : Own.Heap)
      (trees : list Obj) (sources : list nat) :
  Forall2 (fun tree sl =>
             Own.represents (List.length h) h (VObject tree)
                              (Own.RObject sl))
          trees sources ->
  Forall (fun tree => shape (VObject tree) = true) trees ->
  (forall tree, In tree trees -> depth (VObject tree) <= fuel) ->
  exists h1 t1 h2 t2,
    Own.mergeLocaleData fuel sources h =
      (List.length h, Some (h1, Normal tt))
    /\ holds h1 (LObject (List.length h) t1)
    /\ Own.mergeLocaleData fuel sources h1 =
         (List.length h1, Some (h2, Normal tt))
    /\ holds h2 (LObject (List.length h1) t2)
    /\ firstn (List.length h) h2 = h
    /\ mergeLocaleData trees = Normal (map (on_snd erase) t1)
    /\ map (on_snd erase) t1 = map (on_snd erase) t2.
Proof.
  intros Htrees Hshapes Hdepth.
  destruct (own_mergeLocaleData_refines fuel h trees sources
              Htrees Hshapes Hdepth)
    as (h1 & t1 & Hrun1 & Hpure1 & Hholds1 & Hfirst1).
  assert (Hlen : List.length h <= List.length h1).
  { rewrite <- Hfirst1 at 1. rewrite length_firstn. lia. }
  destruct (own_mergeLocaleData_refines fuel h1 trees sources)
    as (h2 & t2 & Hrun2 & Hpure2 & Hholds2 & Hfirst2); auto.
  { eapply Forall2_impl; [|exact Htrees]. cbn beta. intros tree sl Hrep.
    apply (represents_mono (List.length h)); [exact Hlen|].
    apply (represents_agree _ h); [|exact Hrep].
    intros l Hl. apply (nth_error_below (List.length h)); [|exact Hl].
    rewrite Hfirst1. symmetry. apply firstn_all. }
  exists h1, t1, h2, t2.
  split; [exact Hrun1|]. split; [exact Hholds1|].
  split; [exact Hrun2|]. split; [exact Hholds2|].
  split; [|split; [exact Hpure1|]].
  - assert (H : firstn (List.length h) (firstn (List.length h1) h2) =
                firstn (List.length h) h2).
    { rewrite firstn_firstn. f_equal. lia. }
    rewrite Hfirst2 in H. congruence.
  - rewrite Hpure1 in Hpure2. now injection Hpure2.
Qed.

(** ** C8 *)

(** C8. The code run twice, in one process, on the unchanged parsed
    Source [{"n": {"b": "B"}, "__proto__": {"n": {"a": "A"}}}].  The
    first run emits the line of [b] inside the Branch [n]; it also leaves
    a property [n] on [Object.prototype].  The second run, on the same
    objects, finds [n] in its new accumulator through the prototype,
    merges into that inherited object and emits an empty body: the two
    texts differ, and the objects of the Source are the same before and
    after each run. *)
Theorem generateLocalizationTypes_second_run :
  exists w1 w2 text1 text2,
    Js.generateLocalizationTypes 3 [[Js.At 0]]
      (Js.process_with
         [Js.parsed [("n", Js.RObject (Js.At 1));
                     ("__proto__", Js.RObject (Js.At 2))];
          Js.parsed [("b", Js.RString "B")];
          Js.parsed [("n", Js.RObject (Js.At 3))];
          Js.parsed [("a", Js.RString "A")]])
    = Js.Done w1 text1
    /\ Js.generateLocalizationTypes 3 [[Js.At 0]] w1 = Js.Done w2 text2
    /\ firstn 4 (Js.heap w1)
       = [Js.parsed [("n", Js.RObject (Js.At 1));
                     ("__proto__", Js.RObject (Js.At 2))];
          Js.parsed [("b", Js.RString "B")];
          Js.parsed [("n", Js.RObject (Js.At 3))];
          Js.parsed [("a", Js.RString "A")]]
    /\ firstn 4 (Js.heap w2) = firstn 4 (Js.heap w1)
    /\ text1 = declaration_block
                 ""
                 ("      n: {" ++ LF ++ "        b: () => string;" ++ LF
                  ++ "      };")
    /\ text2 = declaration_block "" ""
    /\ text1 <> text2
    /\ Js.props (Js.object_prototype Js.realm) = []
    /\ keys (Js.props (Js.object_prototype w1)) = ["n"].
Proof.
  eexists. eexists. eexists. eexists.
  split; [vm_compute; reflexivity|].
  split; [vm_compute; reflexivity|].
  split; [reflexivity|]. split; [reflexivity|].
  split; [vm_compute; reflexivity|]. split; [vm_compute; reflexivity|].
  split; [vm_compute; discriminate|]. split; reflexivity.
Qed.

(** ** C9 *)

(** C9. The code at the parsed Source
    [{"__proto__": {"__proto__": {"a": "x"}}}], a finite Shape Node: the
    outer Branch is merged into [Object.prototype], whose [__proto__] is
    [null] with [typeof] ['object'], so the inner Branch is merged into
    [null], and the assignment of its Leaf raises a [TypeError]. *)
Theorem deepMerge_proto_nested_raises :
  exists w,
    Js.mergeLocaleData 3 [Js.At 0]
      (Js.process_with
         [Js.parsed [("__proto__", Js.RObject (Js.At 1))];
          Js.parsed [("__proto__", Js.RObject (Js.At 2))];
          Js.parsed [("a", Js.RString "x")]])
    = Js.Raised w TypeError.
Proof.
  eexists. vm_compute. reflexivity.
Qed.

(* ================================================================== *)
(** * Further properties of the parser *)

Lemma first_seen_after_In (e names : list string) (x : string) :
  In x (first_seen_after e names) ->
  In x names /\ existsb (String.eqb x) e = false.
Proof.
  revert e. induction names as [|n rest IH]; intros e; simpl; [tauto|].
  destruct (existsb (String.eqb n) e) eqn:E.
  - intros H. apply IH in H. tauto.
  - intros [<-|H]; [tauto|]. apply IH in H. simpl in H.
    destruct H as [Hin H]. apply orb_false_iff in H. tauto.
Qed.

Lemma first_seen_after_NoDup (e names : list string) :
  NoDup (first_seen_after e names).
Proof.
  revert e. induction names as [|n rest IH]; intros e; simpl.
  - constructor.
  - destruct (existsb (String.eqb n) e); [apply IH|].
    constructor; [|apply IH].
    intros H. apply first_seen_after_In in H. simpl in H.
    rewrite String.eqb_refl in H. destruct H as [_ H]. discriminate.
Qed.

Lemma occurrences_texts (s : string) (ps : list Placeholder) :
  occurrences s ps ->
  Forall (fun p => exists text, placeholder_text p text) ps.
Proof.
  induction 1 as [|c s ps _ _ IH|p text rest ps Hp _ IH].
  - constructor.
  - exact IH.
  - constructor; [now exists text | exact IH].
Qed.

Lemma string_forallb_digit_not_rbrace (digits : string) :
  string_forallb is_digit digits = true ->
  string_forallb not_rbrace digits = true.
Proof.
  induction digits as [|c s IH]; simpl; [reflexivity|].
  intros H. apply andb_true_iff in H. destruct H as [Hc Hs].
  rewrite (IH Hs), andb_true_r.
  unfold not_rbrace. now rewrite (is_digit_not_rbrace c Hc).
Qed.

Lemma placeholder_name_text (p : Placeholder) (text : string) :
  placeholder_text p text ->
  placeholder_name p <> ""
  /\ string_forallb not_rbrace (placeholder_name p) = true.
Proof.
  intros [digits Hne Hd | digits lab Hne Hd Hlab Hnr];
    unfold placeholder_name; simpl.
  - split; [discriminate|]. now apply string_forallb_digit_not_rbrace.
  - split; assumption.
Qed.

(** X1. The parameters that the parser returns have pairwise different
    names, and no name is empty or holds a closing brace. *)
Theorem extractParameters_names (value : string) :
  NoDup (map name (extractParameters value))
  /\ Forall (fun p => name p <> ""
                      /\ string_forallb not_rbrace (name p) = true)
            (extractParameters value).
Proof.
  destruct (occurrences_total value) as [ps Hps].
  rewrite (extractParameters_occurrences _ _ Hps).
  split.
  - rewrite map_name_string_parameter. apply first_seen_after_NoDup.
  - apply Forall_forall. intros p Hp. apply in_map_iff in Hp.
    destruct Hp as (n & <- & Hn). simpl.
    apply first_seen_after_In in Hn. destruct Hn as [Hn _].
    apply in_map_iff in Hn. destruct Hn as (q & <- & Hq).
    pose proof (occurrences_texts _ _ Hps) as Hall.
    rewrite Forall_forall in Hall. destruct (Hall q Hq) as [text Ht].
    exact (placeholder_name_text _ _ Ht).
Qed.

Lemma string_of_uint_digits (d : Decimal.uint) :
  string_forallb is_digit (NilEmpty.string_of_uint d) = true.
Proof. induction d; simpl; auto. Qed.

Lemma number_to_string_digits (n : nat) :
  number_to_string n <> ""
  /\ string_forallb is_digit (number_to_string n) = true.
Proof.
  unfold number_to_string. split; [|apply string_of_uint_digits].
  intros H.
  assert (Hnil : Nat.to_uint n = Decimal.Nil).
  { destruct (Nat.to_uint n); simpl in H; try discriminate. reflexivity. }
  pose proof (Unsigned.of_to n) as Hn. rewrite Hnil in Hn. simpl in Hn.
  subst n. discriminate.
Qed.

Lemma number_to_string_inj (i j : nat) :
  number_to_string i = number_to_string j -> i = j.
Proof.
  unfold number_to_string. intros H. apply Unsigned.to_uint_inj.
  pose proof (NilEmpty.usu (Nat.to_uint i)) as Hi.
  rewrite H, NilEmpty.usu in Hi. now injection Hi.
Qed.

(** The template that stands for a callable, and the placeholders that
    are read in it. *)
Lemma numbered_template_occurrences (n a : nat) :
  occurrences
    (String.concat " "
       (map (fun i => "{" ++ number_to_string i ++ "}") (seq a n)))
    (map (fun i => mkPlaceholder (number_to_string i) None) (seq a n)).
Proof.
  revert a. induction n as [|n IH]; intros a.
  - apply occ_end.
  - assert (Htext : placeholder_text (mkPlaceholder (number_to_string a) None)
                      ("{" ++ number_to_string a ++ "}")).
    { destruct (number_to_string_digits a). now apply text_plain. }
    specialize (IH (S a)).
    cbn [seq map String.concat].
    destruct n as [|n].
    + cbn [seq map]. rewrite <- (append_nil_r ("{" ++ _ ++ "}")).
      apply occ_match; [exact Htext | apply occ_end].
    + cbn [seq map] in *.
      apply (occ_match _ ("{" ++ number_to_string a ++ "}")); [exact Htext|].
      apply occ_skip; [|exact IH].
      apply placeholder_at_none. reflexivity.
Qed.

Lemma first_seen_after_fresh (e names : list string) :
  NoDup names ->
  (forall x, In x names -> existsb (String.eqb x) e = false) ->
  first_seen_after e names = names.
Proof.
  revert e. induction names as [|n rest IH]; intros e Hnd He; [reflexivity|].
  simpl. rewrite (He n (or_introl eq_refl)). f_equal.
  inversion Hnd as [|? ? Hn Hrest]; subst.
  apply IH; [exact Hrest|].
  intros x Hx. simpl. rewrite (He x (or_intror Hx)), orb_false_r.
  apply String.eqb_neq. intros <-. contradiction.
Qed.

Lemma NoDup_map_injective {A B : Type} (f : A -> B) (l : list A) :
  (forall x y, f x = f y -> x = y) -> NoDup l -> NoDup (map f l).
Proof.
  intros Hf. induction 1 as [|x l Hx _ IH]; simpl; constructor; [|exact IH].
  intros H. apply in_map_iff in H. destruct H as (y & Hy & Hin).
  apply Hf in Hy. now subst.
Qed.

(** X2. A callable of [paramCount] parameters is given a template whose
    parameters, read back by the parser, are [_0], ..., [_(paramCount-1)]
    in this order: its signature has as many parameters as the callable. *)
Theorem extractParametersFromFunction_round_trip (paramCount : nat) :
  extractParameters (extractParametersFromFunction paramCount) =
  map (fun i => mkParameter ("_" ++ number_to_string i) "string")
      (seq 0 paramCount).
Proof.
  assert (Hocc : occurrences (extractParametersFromFunction paramCount)
                   (map (fun i => mkPlaceholder (number_to_string i) None)
                        (seq 0 paramCount))).
  { unfold extractParametersFromFunction.
    destruct (Nat.eqb paramCount 0) eqn:E.
    - apply Nat.eqb_eq in E. subst. apply occ_end.
    - apply numbered_template_occurrences. }
  rewrite (extractParameters_occurrences _ _ Hocc).
  rewrite map_map. unfold placeholder_name. cbn [label index].
  unfold first_seen. rewrite first_seen_after_fresh.
  - now rewrite map_map.
  - apply NoDup_map_injective; [|apply seq_NoDup].
    intros i j H. injection H as H. now apply number_to_string_inj.
  - reflexivity.
Qed.

(* ================================================================== *)
(** * Further properties of the normalizer *)

Lemma extractPlainDataFromContentValue_object
      (props : list (string * ContentValue)) :
  extractPlainDataFromContentValue (CObject props) =
  VObject (content_loop props []).
Proof. reflexivity. Qed.

Lemma without_function_keys_object (o : Obj) :
  without_function_keys (VObject o) = true <->
  Forall (fun kv => function_key (fst kv) = false
                    /\ without_function_keys (snd kv) = true) o.
Proof.
  simpl. rewrite forallb_forall, Forall_forall.
  split; intros H kv Hkv; specialize (H kv Hkv).
  - apply andb_true_iff in H. destruct H as [H1 H2].
    apply negb_true_iff in H1. tauto.
  - destruct H as [H1 H2]. now rewrite H1, H2.
Qed.

Lemma content_loop_shape (entries : list (string * ContentValue)) :
  Forall (fun kv =>
            shape (extractPlainDataFromContentValue (snd kv)) = true)
         entries ->
  forall result,
    shape (VObject result) = true ->
    shape (VObject (content_loop entries result)) = true.
Proof.
  induction 1 as [|[key subValue] rest Hs _ IH]; intros result Hshape;
    [exact Hshape|].
  cbn [content_loop]. cbn [snd] in Hs.
  destruct (String.eqb key "length" || String.eqb key "name"
            || String.eqb key "prototype"); [now apply IH|].
  destruct (negb (is_null (extractPlainDataFromContentValue subValue))
            && negb (String.eqb
                       (typeof (extractPlainDataFromContentValue subValue))
                       "undefined")); [|now apply IH].
  apply IH. now apply shape_set.
Qed.

Lemma content_value_shape (value : ContentValue) :
  shape (extractPlainDataFromContentValue value) = true.
Proof.
  induction value as [s | n | props IH |] using ContentValue_nested_ind;
    try reflexivity.
  rewrite extractPlainDataFromContentValue_object.
  now apply content_loop_shape.
Qed.

Lemma content_loop_without (entries : list (string * ContentValue)) :
  Forall (fun kv =>
            without_function_keys
              (extractPlainDataFromContentValue (snd kv)) = true)
         entries ->
  forall result,
    without_function_keys (VObject result) = true ->
    without_function_keys (VObject (content_loop entries result)) = true.
Proof.
  induction 1 as [|[key subValue] rest Hw _ IH]; intros result Hwithout;
    [exact Hwithout|].
  cbn [content_loop]. cbn [snd] in Hw. fold (function_key key).
  destruct (function_key key) eqn:Hkey; [now apply IH|].
  destruct (negb (is_null (extractPlainDataFromContentValue subValue))
            && negb (String.eqb
                       (typeof (extractPlainDataFromContentValue subValue))
                       "undefined")); [|now apply IH].
  apply IH. apply without_function_keys_object. apply Forall_set.
  - now apply without_function_keys_object.
  - now split.
Qed.

(** X3. What the fallback of the normalizer extracts from a content value
    is a Shape Node (strings and objects of them, each key once), and no
    object in it has a key [length], [name] or [prototype]: a property of
    the content under one of these keys is dropped. *)
Theorem extractPlainDataFromContentValue_shape (value : ContentValue) :
  shape (extractPlainDataFromContentValue value) = true
  /\ without_function_keys (extractPlainDataFromContentValue value) = true.
Proof.
  split; [apply content_value_shape|].
  induction value as [s | n | props IH |] using ContentValue_nested_ind;
    try reflexivity.
  rewrite extractPlainDataFromContentValue_object.
  now apply content_loop_without.
Qed.

Lemma mergeLocaleData_loop_app (a b : list Obj) (merged : Obj) :
  mergeLocaleData_loop (a ++ b) merged =
  (merged' <- mergeLocaleData_loop a merged ;; mergeLocaleData_loop b merged').
Proof.
  revert merged. induction a as [|x a IH]; intros merged; [reflexivity|].
  cbn [app mergeLocaleData_loop].
  destruct (deepMerge merged x) as [m|e]; [apply IH | reflexivity].
Qed.

Lemma merge_contents_sources (rawContents : list (string * ContentEntry))
      (mergedData : Obj) :
  merge_contents rawContents mergedData =
  mergeLocaleData_loop
    (flat_map
       (fun entry : string * ContentEntry =>
          match data (snd entry) with Some d => [d] | None => [] end)
       rawContents)
    mergedData.
Proof.
  revert mergedData.
  induction rawContents as [|[contentId contentEntry] rest IH];
    intros mergedData; [reflexivity|].
  cbn [merge_contents flat_map snd].
  destruct (data contentEntry) as [d|]; [|apply IH].
  cbn [app mergeLocaleData_loop].
  destruct (deepMerge mergedData d) as [m|e]; [apply IH | reflexivity].
Qed.

Lemma merge_locales_sources (locales : list (string * Locale))
      (mergedData : Obj) :
  merge_locales locales mergedData =
  mergeLocaleData_loop
    (flat_map (fun entry : string * Locale => locale_sources (snd entry))
              locales)
    mergedData.
Proof.
  revert mergedData.
  induction locales as [|[localeId locale] rest IH];
    intros mergedData; [reflexivity|].
  cbn [merge_locales flat_map snd].
  rewrite mergeLocaleData_loop_app. unfold locale_sources.
  destruct (contents locale) as [rawContents|].
  - rewrite merge_contents_sources.
    destruct (mergeLocaleData_loop _ mergedData) as [m|e];
      [apply IH | reflexivity].
  - destruct (content locale) as [|[language contentValue] others];
      [apply IH|].
    destruct (extractPlainDataFromContentValue contentValue);
      try apply IH.
    cbn [mergeLocaleData_loop].
    destruct (deepMerge mergedData props) as [m|e]; [apply IH | reflexivity].
Qed.

(** X4. The normalizer gives for a Tessen what [mergeLocaleData] gives for
    the data of its locales in cache order: for a locale with a [contents]
    collection the data of each entry that has one, the [content] of the
    locale being ignored; for a locale without one, what is extracted from
    the content of its first language only. *)
Theorem extractPlainLocaleDataFromTessen_sources (tessen : Tessen) :
  extractPlainLocaleDataFromTessen tessen =
  mergeLocaleData (tessen_sources tessen).
Proof. apply merge_locales_sources. Qed.





(* ================================================================== *)
(** * Further properties of the merger *)

Lemma merge_loop_null (entries : Obj) :
  forall (target : Obj) (key : string) (sub : Obj),
    get key target = Some VNull ->
    get key entries = Some (VObject sub) -> sub <> [] ->
    merge_loop entries target = Throw TypeError.
Proof.
  induction entries as [|[k value] rest IH];
    intros target key sub Htarget Hentry Hsub; [discriminate|].
  cbn [get] in Hentry. cbn [merge_loop].
  destruct (String.eqb k key) eqn:Hk.
  - apply String.eqb_eq in Hk. subst k. injection Hentry as ->.
    assert (Hhas : has key target = true)
      by (unfold has; now rewrite Htarget).
    assert (Hread : read key target = VNull)
      by (unfold read; now rewrite Htarget).
    rewrite Hhas, Hread. cbn. rewrite Hread.
    destruct sub; [contradiction | reflexivity].
  - apply String.eqb_neq in Hk.
    assert (Hkey : key <> k) by congruence.
    destruct (String.eqb (typeof value) "object" && negb (is_null value)).
    + set (target1 := if negb (has k target)
                         || negb (String.eqb (typeof (read k target))
                                             "object")
                      then set k (VObject []) target else target).
      assert (Htarget1 : get key target1 = Some VNull).
      { subst target1. destruct (_ || _); [|exact Htarget].
        now rewrite get_set_other. }
      destruct (read k target1) eqn:Hread;
        try (destruct value as [| | | | |[|? ?]];
             first [reflexivity | now apply (IH _ key sub)]).
      destruct (deepMerge_in value props) as [child'|[]]; [|reflexivity].
      cbn [bind]. apply (IH _ key sub); try assumption.
      now rewrite get_overwrite_other.
    + apply (IH _ key sub); try assumption.
      now rewrite get_set_other.
Qed.

Lemma merge_loop_null_empty (key : string) (target : Obj) :
  get key target = Some VNull ->
  merge_loop [(key, VObject [])] target = Normal target.
Proof.
  intros Htarget. cbn [merge_loop].
  assert (Hhas : has key target = true) by (unfold has; now rewrite Htarget).
  assert (Hread : read key target = VNull)
    by (unfold read; now rewrite Htarget).
  rewrite Hhas, Hread. cbn. now rewrite Hread.
Qed.

(** X6. [null] is not replaced by a Branch: when the accumulator holds
    [null] at a key at which the incoming node holds an object with at
    least one property, the merge fails with a [TypeError]; an incoming
    object without properties leaves the [null] where it is. *)
Theorem deepMerge_null (target source : Obj) (key : string) (sub : Obj) :
  get key target = Some VNull ->
  (get key source = Some (VObject sub) -> sub <> [] ->
   deepMerge target source = Throw TypeError)
  /\ deepMerge target [(key, VObject [])] = Normal target.
Proof.
  intros Htarget. split.
  - intros Hsource Hsub. rewrite deepMerge_loop.
    exact (merge_loop_null source target key sub Htarget Hsource Hsub).
  - rewrite deepMerge_loop. now apply merge_loop_null_empty.
Qed.

Lemma deepMerge_null_witness :
  deepMerge [("k", VNull)]
            [("j", VString "x"); ("k", VObject [("a", VString "A")])]
  = Throw TypeError
  /\ mergeLocaleData [[("k", VNull)]; [("k", VObject [("a", VString "A")])]]
     = Throw TypeError.
Proof.
  split.
  - apply (proj1 (deepMerge_null [("k", VNull)]
                    [("j", VString "x"); ("k", VObject [("a", VString "A")])]
                    "k" [("a", VString "A")] eq_refl)).
    + reflexivity.
    + discriminate.
  - unfold mergeLocaleData. cbn [mergeLocaleData_loop].
    change (deepMerge [] [("k", VNull)]) with (Normal [("k", VNull)]).
    cbn [bind].
    rewrite (proj1 (deepMerge_null [("k", VNull)]
                      [("k", VObject [("a", VString "A")])]
                      "k" [("a", VString "A")] eq_refl)
               eq_refl ltac:(discriminate)).
    reflexivity.
Defined.































(* ================================================================== *)
(** * Further properties of the orchestrator *)

(** X12. A configuration made from one Tessen, given as it is or as an
    array of one element, generates the declaration block of this Tessen
    without a client annotation, and nothing else, whatever the output
    path. *)
Theorem createTypeGenerationConfig_single (tessen : Tessen)
        (outputPath outputPath' : option string) :
  generateLocalizationTypes
    (createTypeGenerationConfig (OneTessen tessen) outputPath)
  = generateTessenDeclaration tessen None
  /\ generateLocalizationTypes
       (createTypeGenerationConfig (TessenArray [tessen]) outputPath')
     = generateTessenDeclaration tessen None.
Proof.
  split; unfold generateLocalizationTypes, createTypeGenerationConfig;
    rewrite generateLocalizationTypes_loop_eq; cbn [tessens List.length
      Nat.ltb Nat.leb nth_error];
    destruct (generateTessenDeclaration tessen None) as [declaration|e];
    cbn [bind]; try reflexivity;
    rewrite generateLocalizationTypes_loop_eq; cbn;
    now rewrite append_nil_r.
Qed.




(* ================================================================== *)
(** * The text around the placeholders *)

Lemma append_eq_append (a b c d : string) :
  a ++ b = c ++ d ->
  (exists r, a = c ++ r /\ d = r ++ b)
  \/ (exists t, c = a ++ t /\ b = t ++ d).
Proof.
  revert c. induction a as [|x a IH]; intros c H.
  - right. exists c. split; [reflexivity | exact H].
  - destruct c as [|y c].
    + left. exists (String x a). split; [reflexivity|]. symmetry. exact H.
    + cbn [append] in H. injection H as -> H.
      destruct (IH c H) as [(r & -> & ->)|(t & -> & ->)].
      * left. now exists r.
      * right. now exists t.
Qed.

Lemma placeholder_text_last (p : Placeholder) (text : string) :
  placeholder_text p text -> exists body, text = body ++ "}".
Proof.
  intros [digits _ _ | digits lab _ _ _ _].
  - exists ("{" ++ digits). now rewrite append_assoc.
  - exists ("{" ++ digits ++ ":" ++ lab). now rewrite !append_assoc.
Qed.

Lemma starts_with_placeholder_suffix (s after : string) :
  string_forallb not_rbrace after = true ->
  starts_with_placeholder (s ++ after) -> starts_with_placeholder s.
Proof.
  intros Hafter (p & text & rest & Htext & Heq).
  destruct (append_eq_append _ _ _ _ Heq) as [(r & -> & _)|(t & Ht & Hb)].
  - now exists p, text, r.
  - destruct (placeholder_text_last _ _ Htext) as [body Hbody].
    rewrite Hbody in Ht. symmetry in Ht.
    destruct (append_eq_append _ _ _ _ Ht) as [(r & Hs & Hr)|(t' & _ & Ht')].
    + destruct r as [|x r].
      * cbn [append] in Hr. subst t. rewrite Hb in Hafter.
        discriminate.
      * cbn [append] in Hr. injection Hr as <- Hr.
        destruct r; [|discriminate]. cbn [append] in Hr. subst t.
        exists p, text, "". split; [exact Htext|].
        now rewrite append_nil_r, Hbody.
    + rewrite Hb, Ht', !string_forallb_app in Hafter.
      cbn in Hafter. rewrite andb_false_r in Hafter. discriminate.
Qed.

Lemma occurrences_suffix (value after : string) (ps : list Placeholder) :
  string_forallb not_rbrace after = true ->
  occurrences value ps -> occurrences (value ++ after) ps.
Proof.
  intros Hafter. induction 1 as [|c s ps Hskip _ IH|p text rest ps Hp _ IH].
  - now apply no_rbrace_no_occurrence.
  - cbn [append]. apply occ_skip; [|exact IH].
    intros H. apply Hskip.
    now apply (starts_with_placeholder_suffix (String c s) after).
  - rewrite append_assoc. now apply occ_match.
Qed.

Lemma occurrences_prefix (before value : string) (ps : list Placeholder) :
  string_forallb not_lbrace before = true ->
  occurrences value ps -> occurrences (before ++ value) ps.
Proof.
  intros Hbefore Hocc. induction before as [|c before IH]; [exact Hocc|].
  cbn [string_forallb] in Hbefore. apply andb_true_iff in Hbefore.
  destruct Hbefore as [Hc Hbefore]. cbn [append].
  apply occ_skip; [|now apply IH].
  apply placeholder_at_none. cbn [placeholder_at].
  unfold not_lbrace in Hc. apply negb_true_iff in Hc. now rewrite Hc.
Qed.

(** X14. The text before the first opening brace and the text after the
    last closing brace are not looked at: a template has the parameters of
    what is between them. *)
Theorem extractParameters_plain_ends (before value after : string) :
  string_forallb not_lbrace before = true ->
  string_forallb not_rbrace after = true ->
  extractParameters (before ++ value ++ after) = extractParameters value.
Proof.
  intros Hbefore Hafter.
  destruct (occurrences_total value) as [ps Hps].
  rewrite (extractParameters_occurrences value ps Hps).
  apply extractParameters_occurrences.
  apply occurrences_prefix; [exact Hbefore|].
  now apply occurrences_suffix.
Qed.

Lemma extractParameters_plain_ends_witness :
  extractParameters ("Dear } " ++ "{0:user}, {1}" ++ " {2:never closed")
  = extractParameters "{0:user}, {1}".
Proof.
  apply extractParameters_plain_ends; reflexivity.
Defined.

(* ================================================================== *)
(** * The instance search *)

Lemma findTessenInstances_eq (fuel : nat) (h : Search.Heap)
      (obj : Search.Item) (visited : list nat) :
  Search.findTessenInstances (S fuel) h obj visited =
  match obj with
  | Search.IObject l =>
      if Search.visited_has l visited then Some ([], visited)
      else if is_instance h l then Some ([l], l :: visited)
           else search_loop (Search.findTessenInstances fuel h)
                            (Search.is_array (Search.cell h l))
                            (Search.entries (Search.cell h l)) []
                            (l :: visited)
  | _ => Some ([], visited)
  end.
Proof.
  destruct obj as [| |[|]|n|s| |l]; try reflexivity;
    cbn [Search.findTessenInstances Search.truthy Search.typeof].
  - destruct (negb (Z.eqb n 0)); reflexivity.
  - destruct (negb (String.eqb s "")); reflexivity.
Qed.

Lemma visited_has_In (l : nat) (visited : list nat) :
  Search.visited_has l visited = true <-> In l visited.
Proof.
  unfold Search.visited_has. rewrite existsb_exists. split.
  - intros (x & Hx & Heq). apply Nat.eqb_eq in Heq. now subst.
  - intros H. exists l. split; [exact H | apply Nat.eqb_refl].
Qed.

Lemma filter_length_mono {A : Type} (f g : A -> bool) (l : list A) :
  (forall x, In x l -> f x = true -> g x = true) ->
  List.length (filter f l) <= List.length (filter g l).
Proof.
  induction l as [|a l IH]; intros Hfg; [reflexivity|].
  cbn [filter]. assert (IH' := IH (fun x Hx => Hfg x (or_intror Hx))).
  destruct (f a) eqn:Hf.
  - rewrite (Hfg a (or_introl eq_refl) Hf). simpl. lia.
  - destruct (g a); simpl; lia.
Qed.

Lemma filter_length_lt {A : Type} (f g : A -> bool) (l : list A) (a : A) :
  (forall x, In x l -> f x = true -> g x = true) ->
  In a l -> f a = false -> g a = true ->
  List.length (filter f l) < List.length (filter g l).
Proof.
  induction l as [|b l IH]; intros Hfg Hin Hf Hg; [contradiction|].
  cbn [filter]. destruct Hin as [->|Hin].
  - rewrite Hf, Hg. simpl.
    pose proof (filter_length_mono f g l (fun x Hx => Hfg x (or_intror Hx))).
    lia.
  - assert (IH' := IH (fun x Hx => Hfg x (or_intror Hx)) Hin Hf Hg).
    destruct (f b) eqn:Hfb.
    + rewrite (Hfg b (or_introl eq_refl) Hfb). simpl. lia.
    + destruct (g b); simpl; lia.
Qed.

Lemma unvisited_incl (h : Search.Heap) (visited visited' : list nat) :
  incl visited visited' -> unvisited h visited' <= unvisited h visited.
Proof.
  intros Hincl. apply filter_length_mono. intros l _ Hl.
  apply negb_true_iff in Hl. apply negb_true_iff.
  destruct (Search.visited_has l visited) eqn:E; [|reflexivity].
  apply visited_has_In, Hincl, visited_has_In in E. congruence.
Qed.

Lemma unvisited_cons (h : Search.Heap) (l : nat) (visited : list nat) :
  l < List.length h -> Search.visited_has l visited = false ->
  unvisited h (l :: visited) < unvisited h visited.
Proof.
  intros Hl Hnew. apply (filter_length_lt _ _ _ l).
  - intros x _ Hx. apply negb_true_iff in Hx. apply negb_true_iff.
    cbn [Search.visited_has existsb] in Hx.
    now apply orb_false_iff in Hx.
  - apply in_seq. lia.
  - cbn [Search.visited_has existsb]. now rewrite Nat.eqb_refl.
  - now rewrite Hnew.
Qed.

Lemma search_post_refl (h : Search.Heap) (visited : list nat) :
  search_post h visited [] visited.
Proof.
  split; [apply incl_refl|]. split; [constructor|].
  split; [intros x []|]. intros y Hy Hn. contradiction.
Qed.

Lemma search_post_trans (h : Search.Heap) (v0 v1 v2 f1 f2 : list nat) :
  search_post h v0 f1 v1 -> search_post h v1 f2 v2 ->
  search_post h v0 (f1 ++ f2) v2.
Proof.
  intros (Hi1 & Hn1 & Hf1 & Hc1) (Hi2 & Hn2 & Hf2 & Hc2).
  split; [eapply incl_tran; eassumption|].
  split.
  { apply NoDup_app; [exact Hn1 | exact Hn2 |].
    intros x Hx1 Hx2. destruct (Hf1 x Hx1) as (_ & _ & Hv1).
    destruct (Hf2 x Hx2) as (_ & Hnv1 & _). contradiction. }
  split.
  { intros x Hx. apply in_app_iff in Hx. destruct Hx as [Hx|Hx].
    - destruct (Hf1 x Hx) as (Ht & Hn & Hv).
      split; [exact Ht|]. split; [exact Hn | now apply Hi2].
    - destruct (Hf2 x Hx) as (Ht & Hn & Hv).
      split; [exact Ht|]. split; [|exact Hv].
      intros H. apply Hn. now apply Hi1. }
  intros y Hy Hn0.
  destruct (in_dec Nat.eq_dec y v1) as [Hy1|Hy1].
  - destruct (Hc1 y Hy1 Hn0) as [Ht Hp]. split.
    + intros H. apply in_app_iff. left. auto.
    + intros H key z Hin Hs. apply Hi2. eapply Hp; eassumption.
  - destruct (Hc2 y Hy Hy1) as [Ht Hp]. split.
    + intros H. apply in_app_iff. right. auto.
    + exact Hp.
Qed.

Section SearchProofs.
Variable h : Search.Heap.

Lemma search_loop_post (fuel : nat) (array : bool) :
  (forall obj visited,
      unvisited h visited < fuel ->
      exists found visited',
        Search.findTessenInstances fuel h obj visited = Some (found, visited')
        /\ search_post h visited found visited'
        /\ forall l, obj = Search.IObject l -> In l visited') ->
  forall items found visited,
    unvisited h visited < fuel ->
    exists extra visited',
      search_loop (Search.findTessenInstances fuel h) array items found visited
      = Some ((found ++ extra)%list, visited')
      /\ search_post h visited extra visited'
      /\ forall key z,
           In (key, Search.IObject z) items ->
           array || negb (Search.skipped key) = true -> In z visited'.
Proof.
  intros IHfuel. induction items as [|[key value] rest IH];
    intros found visited Hfuel.
  - exists [], visited. rewrite app_nil_r.
    split; [reflexivity|]. split; [apply search_post_refl|].
    intros key z [].
  - cbn [search_loop].
    destruct (negb array && Search.skipped key) eqn:Hskip.
    + destruct (IH found visited Hfuel)
        as (extra & visited' & Hrun & Hpost & Hz).
      exists extra, visited'. split; [exact Hrun|]. split; [exact Hpost|].
      intros key' z [Heq|Hin] Hs; [|eauto].
      injection Heq as -> _.
      apply andb_true_iff in Hskip. destruct Hskip as [Ha Hk].
      apply negb_true_iff in Ha. rewrite Ha, Hk in Hs. discriminate.
    + destruct (IHfuel value visited Hfuel)
        as (sub & visited1 & Hsub & Hpost1 & Hroot).
      rewrite Hsub.
      assert (Hfuel1 : unvisited h visited1 < fuel).
      { destruct Hpost1 as (Hincl & _).
        pose proof (unvisited_incl h _ _ Hincl). lia. }
      destruct (IH (found ++ sub)%list visited1 Hfuel1)
        as (extra & visited' & Hrun & Hpost & Hz).
      exists (sub ++ extra)%list, visited'.
      rewrite app_assoc. split; [exact Hrun|].
      split; [eapply search_post_trans; eassumption|].
      intros key' z [Heq|Hin] Hs; [|eauto].
      injection Heq as _ ->. destruct Hpost as (Hincl & _).
      apply Hincl. now apply Hroot.
Qed.

Lemma findTessenInstances_post (fuel : nat) :
  forall obj visited,
    unvisited h visited < fuel ->
    exists found visited',
      Search.findTessenInstances fuel h obj visited = Some (found, visited')
      /\ search_post h visited found visited'
      /\ forall l, obj = Search.IObject l -> In l visited'.
Proof.
  induction fuel as [|fuel IH]; intros obj visited Hfuel; [lia|].
  rewrite findTessenInstances_eq.
  destruct obj as [| | | | | |l];
    try (exists [], visited; split; [reflexivity|];
         split; [apply search_post_refl | discriminate]).
  destruct (Search.visited_has l visited) eqn:Hseen.
  { exists [], visited. split; [reflexivity|].
    split; [apply search_post_refl|].
    intros l' [= <-]. now apply visited_has_In. }
  assert (Hnew : ~ In l visited).
  { intros H. apply visited_has_In in H. congruence. }
  destruct (is_instance h l) eqn:Hinstance.
  { exists [l], (l :: visited). split; [reflexivity|]. split.
    - split; [apply incl_tl, incl_refl|].
      split; [repeat constructor; intros []|].
      split.
      + intros x [<-|[]]. repeat split; auto. now left.
      + intros y [<-|Hy] Hn; [|contradiction]. split.
        * intros _. now left.
        * congruence.
    - intros l' [= <-]. now left. }
  assert (Hloop : exists extra visited',
             search_loop (Search.findTessenInstances fuel h)
               (Search.is_array (Search.cell h l))
               (Search.entries (Search.cell h l)) [] (l :: visited)
             = Some (extra, visited')
             /\ search_post h (l :: visited) extra visited'
             /\ forall key z,
                  In (key, Search.IObject z)
                     (Search.entries (Search.cell h l)) ->
                  searched h l key = true -> In z visited').
  { destruct (lt_dec l (List.length h)) as [Hl|Hl].
    - pose proof (unvisited_cons h l visited Hl Hseen) as Hless.
      destruct (search_loop_post fuel (Search.is_array (Search.cell h l))
                  IH (Search.entries (Search.cell h l)) [] (l :: visited))
        as (extra & visited' & Hrun & Hpost & Hz); [lia|].
      exists extra, visited'. split; [exact Hrun|].
      split; [exact Hpost | exact Hz].
    - unfold Search.cell. rewrite nth_overflow by lia.
      exists [], (l :: visited). split; [reflexivity|].
      split; [apply search_post_refl|]. intros key z []. }
  destruct Hloop as (extra & visited' & Hrun & Hpost & Hz).
  exists extra, visited'. split; [exact Hrun|].
  destruct Hpost as (Hincl & Hnodup & Hfound & Hclosed).
  split.
  - split; [intros x Hx; apply Hincl; now right|].
    split; [exact Hnodup|].
    split.
    + intros x Hx. destruct (Hfound x Hx) as (Ht & Hn & Hv).
      repeat split; auto. intros H. apply Hn. now right.
    + intros y Hy Hn. destruct (Nat.eq_dec y l) as [->|Hyl].
      * split; [congruence|]. intros _. exact Hz.
      * apply Hclosed; [exact Hy|]. intros [Heq|H]; congruence.
  - intros l' [= <-]. apply Hincl. now left.
Qed.

Lemma search_loop_reaches (fuel : nat) (l : nat) :
  (forall obj visited found visited',
      Search.findTessenInstances fuel h obj visited = Some (found, visited') ->
      forall x, In x found ->
                exists z, obj = Search.IObject z /\ reaches h z x) ->
  forall items found visited result visited',
    search_loop (Search.findTessenInstances fuel h)
                (Search.is_array (Search.cell h l)) items found visited
    = Some (result, visited') ->
    forall x, In x result ->
      In x found
      \/ exists key z,
           In (key, Search.IObject z) items
           /\ searched h l key = true /\ reaches h z x.
Proof.
  intros IHfuel. induction items as [|[key value] rest IH];
    intros found visited result visited' Hrun x Hx.
  - injection Hrun as <- <-. now left.
  - cbn [search_loop] in Hrun.
    destruct (negb (Search.is_array (Search.cell h l)) && Search.skipped key)
      eqn:Hskip.
    + destruct (IH _ _ _ _ Hrun x Hx) as [H|(k & z & Hin & Hs & Hr)];
        [now left|].
      right. exists k, z. split; [now right | now split].
    + destruct (Search.findTessenInstances fuel h value visited)
        as [[sub visited1]|] eqn:Hsub; [|discriminate].
      destruct (IH _ _ _ _ Hrun x Hx) as [H|(k & z & Hin & Hs & Hr)].
      * apply in_app_iff in H. destruct H as [H|H]; [now left|].
        destruct (IHfuel _ _ _ _ Hsub x H) as (z & -> & Hr).
        right. exists key, z. split; [now left|]. split; [|exact Hr].
        unfold searched.
        destruct (Search.is_array (Search.cell h l)); [reflexivity|].
        cbn [negb andb orb] in Hskip |- *. now rewrite Hskip.
      * right. exists k, z. split; [now right | now split].
Qed.

Lemma findTessenInstances_reaches (fuel : nat) :
  forall obj visited found visited',
    Search.findTessenInstances fuel h obj visited = Some (found, visited') ->
    forall x, In x found -> exists z, obj = Search.IObject z /\ reaches h z x.
Proof.
  induction fuel as [|fuel IH]; intros obj visited found visited' Hrun x Hx;
    [discriminate|].
  rewrite findTessenInstances_eq in Hrun.
  destruct obj as [| | | | | |l];
    try (injection Hrun as <- <-; contradiction).
  exists l. split; [reflexivity|].
  destruct (Search.visited_has l visited);
    [injection Hrun as <- <-; contradiction|].
  destruct (is_instance h l) eqn:Hinstance.
  - injection Hrun as <- <-. destruct Hx as [<-|[]]. apply reaches_here.
  - destruct (search_loop_reaches fuel l IH _ _ _ _ _ Hrun x Hx)
      as [[]|(key & z & Hin & Hs & Hr)].
    eapply reaches_property; eassumption.
Qed.

Lemma search_loop_fuel (array : bool)
      (rec1 rec2 : Search.Item -> list nat -> option (list nat * list nat)) :
  (forall obj visited result,
      rec1 obj visited = Some result -> rec2 obj visited = Some result) ->
  forall items found visited result,
    search_loop rec1 array items found visited = Some result ->
    search_loop rec2 array items found visited = Some result.
Proof.
  intros Hrec. induction items as [|[key value] rest IH];
    intros found visited result Hrun; [exact Hrun|].
  cbn [search_loop] in Hrun |- *.
  destruct (negb array && Search.skipped key); [now apply IH|].
  destruct (rec1 value visited) as [[sub visited1]|] eqn:Hsub;
    [|discriminate].
  rewrite (Hrec _ _ _ Hsub). now apply IH.
Qed.

Lemma findTessenInstances_fuel_S (fuel : nat) :
  forall obj visited result,
    Search.findTessenInstances fuel h obj visited = Some result ->
    Search.findTessenInstances (S fuel) h obj visited = Some result.
Proof.
  induction fuel as [|fuel IH]; intros obj visited result Hrun;
    [discriminate|].
  rewrite findTessenInstances_eq in Hrun.
  rewrite findTessenInstances_eq.
  destruct obj as [| | | | | |l]; try exact Hrun.
  destruct (Search.visited_has l visited); [exact Hrun|].
  destruct (is_instance h l); [exact Hrun|].
  exact (search_loop_fuel _ _ _ IH _ _ _ _ Hrun).
Qed.

Lemma findTessenInstances_fuel (fuel fuel' : nat) :
  fuel <= fuel' ->
  forall obj visited result,
    Search.findTessenInstances fuel h obj visited = Some result ->
    Search.findTessenInstances fuel' h obj visited = Some result.
Proof.
  induction 1 as [|fuel' _ IH]; intros obj visited result Hrun;
    [exact Hrun|].
  apply findTessenInstances_fuel_S. now apply IH.
Qed.

Lemma reaches_visited (visited' found : list nat) :
  search_post h [] found visited' ->
  forall l x, reaches h l x -> In l visited' -> In x visited'.
Proof.
  intros (_ & _ & _ & Hclosed). induction 1 as [l|l z x key Hl Hin Hs _ IH];
    intros Hv; [exact Hv|].
  apply IH. destruct (Hclosed l Hv (fun H => H)) as [_ Hp].
  exact (Hp Hl key z Hin Hs).
Qed.

End SearchProofs.

Lemma unvisited_none (h : Search.Heap) :
  unvisited h [] < S (List.length h).
Proof.
  unfold unvisited.
  pose proof (filter_length_le
                (fun l => negb (Search.visited_has l []))
                (seq 0 (List.length h))) as Hle.
  rewrite length_seq in Hle. lia.
Qed.

(** X15. The search of the command line returns on every heap, also one
    with cycles and shared objects: a depth of calls above the number of
    objects is never exceeded, and the result is the same for every depth
    allowed above it. *)
Theorem findTessenInstances_returns (h : Search.Heap) (obj : Search.Item) :
  exists found visited,
    forall fuel,
      List.length h < fuel ->
      Search.findTessenInstances fuel h obj [] = Some (found, visited).
Proof.
  destruct (findTessenInstances_post h (S (List.length h)) obj []
              (unvisited_none h))
    as (found & visited & Hrun & _).
  exists found, visited. intros fuel Hlt.
  apply (findTessenInstances_fuel h (S (List.length h)) fuel); [lia|].
  exact Hrun.
Qed.

(** X16. The search finds each Tessen instance once, and the instances it
    finds are those that a walk from the root meets which goes from an
    object that is not an instance to what one of its properties holds (an
    element, for an array; for another object, a property that is not
    [length], [name], [prototype] or [__proto__]): an instance is found
    however many properties lead to it, and the search does not look
    inside an instance. *)
Theorem findTessenInstances_found (h : Search.Heap) (obj : Search.Item)
        (fuel : nat) (found visited : list nat) :
  Search.findTessenInstances fuel h obj [] = Some (found, visited) ->
  NoDup found
  /\ forall x,
       In x found <->
       (exists l, obj = Search.IObject l /\ reaches h l x)
       /\ is_instance h x = true.
Proof.
  intros Hrun.
  destruct (findTessenInstances_post h (S (List.length h)) obj []
              (unvisited_none h))
    as (found' & visited' & Hrun' & Hpost & Hroot).
  assert (Hsame : Some (found, visited) = Some (found', visited')).
  { rewrite <- (findTessenInstances_fuel h fuel
                  (Nat.max fuel (S (List.length h))) (Nat.le_max_l _ _)
                  _ _ _ Hrun).
    exact (findTessenInstances_fuel h (S (List.length h))
             (Nat.max fuel (S (List.length h))) (Nat.le_max_r _ _)
             _ _ _ Hrun'). }
  injection Hsame as -> ->.
  split; [now destruct Hpost as (_ & Hnodup & _)|].
  intros x. split.
  - intros Hx. split.
    + exact (findTessenInstances_reaches h _ _ _ _ _ Hrun x Hx).
    + destruct Hpost as (_ & _ & Hfound & _). now apply Hfound.
  - intros [(l & -> & Hreach) Hinstance].
    pose proof (reaches_visited h visited' found' Hpost l x Hreach
                  (Hroot l eq_refl)) as Hx.
    destruct Hpost as (_ & _ & _ & Hclosed).
    destruct (Hclosed x Hx (fun H => H)) as [Hin _]. now apply Hin.
Qed.

Lemma findTessenInstances_found_witness :
  NoDup [1; 3]
  /\ forall x,
       In x [1; 3] <->
       (exists l,
           Search.IObject 0 = Search.IObject l
           /\ reaches
                [Search.mkCell false None
                   [("default", Search.IObject 1); ("t", Search.IObject 1);
                    ("helpers", Search.IObject 2);
                    ("name", Search.IObject 6); ("f", Search.IFunction)];
                 Search.mkCell false (Some "Tessen")
                   [("self", Search.IObject 0); ("inner", Search.IObject 6)];
                 Search.mkCell true (Some "Array")
                   [("0", Search.IObject 0); ("1", Search.IObject 3);
                    ("2", Search.IString "x")];
                 Search.mkCell false (Some "Object")
                   [("cache", Search.IObject 4)];
                 Search.mkCell false (Some "Object")
                   [("locales", Search.IObject 5)];
                 Search.mkCell false (Some "Map") [];
                 Search.mkCell false (Some "Tessen") []]
                l x)
       /\ is_instance
            [Search.mkCell false None
               [("default", Search.IObject 1); ("t", Search.IObject 1);
                ("helpers", Search.IObject 2);
                ("name", Search.IObject 6); ("f", Search.IFunction)];
             Search.mkCell false (Some "Tessen")
               [("self", Search.IObject 0); ("inner", Search.IObject 6)];
             Search.mkCell true (Some "Array")
               [("0", Search.IObject 0); ("1", Search.IObject 3);
                ("2", Search.IString "x")];
             Search.mkCell false (Some "Object")
               [("cache", Search.IObject 4)];
             Search.mkCell false (Some "Object")
               [("locales", Search.IObject 5)];
             Search.mkCell false (Some "Map") [];
             Search.mkCell false (Some "Tessen") []]
            x = true.
Proof.
  apply (findTessenInstances_found _ (Search.IObject 0) 8 [1; 3]
           [3; 2; 1; 0]).
  reflexivity.
Defined.

(* ================================================================== *)
(** * The code on the objects of the engine *)

(** ** The merge on plain objects *)

Lemma js_deepMerge_eq (fuel : nat) (target : Js.Ref) (source : Js.Loc)
      (w : Js.World) :
  Js.deepMerge (S fuel) target source w =
  match Js.cell w source with
  | None => Js.Raised w TypeError
  | Some sc => js_loop (Js.deepMerge fuel) target (Js.props sc) w
  end.
Proof. reflexivity. Qed.

Lemma typeof_lift (r : Own.Ref) :
  Js.typeof (lift_ref r) = Own.typeof r.
Proof. now destruct r. Qed.

Lemma is_null_lift (r : Own.Ref) :
  Js.is_null (lift_ref r) = Own.is_null r.
Proof. now destruct r. Qed.

Lemma cell_lift (op ap : Js.Cell) (h : Own.Heap) (l : nat) :
  Js.cell (lift op ap h) (Js.At l) = option_map lift_cell (nth_error h l).
Proof. cbn [Js.cell lift Js.heap]. apply nth_error_map. Qed.

Lemma isArray_lift (op ap : Js.Cell) (h : Own.Heap) (r : Own.Ref) :
  Js.isArray (lift op ap h) (lift_ref r) = false.
Proof.
  destruct r as [| | | | |l]; try reflexivity.
  cbn [lift_ref Js.isArray]. rewrite cell_lift.
  now destruct (nth_error h l).
Qed.

Lemma lookup_S (n : nat) (w : Js.World) (l : Js.Loc) (key : string) :
  Js.lookup (S n) w l key =
  match Js.cell w l with
  | None => Js.Absent
  | Some c =>
      match Js.own c key with
      | Some r => Js.Data r l
      | None =>
          if Js.Loc_eqb l Js.ObjectPrototype && String.eqb key "__proto__"
          then Js.ProtoAccessor
          else
            match Js.prototype c with
            | Some p => Js.lookup n w p key
            | None => Js.Absent
            end
      end
  end.
Proof. reflexivity. Qed.

Lemma find_lift (op ap : Js.Cell) (h : Own.Heap) (l : nat)
      (props : Own.Props) (key : string) :
  pristine op -> key <> "__proto__" -> nth_error h l = Some props ->
  Js.find (lift op ap h) (Js.At l) key =
  match get key props with
  | Some r => Js.Data (lift_ref r) (Js.At l)
  | None =>
      match get key (Js.hidden op) with
      | Some r => Js.Data r Js.ObjectPrototype
      | None => Js.Absent
      end
  end.
Proof.
  intros (Hprops & Hproto & _) Hkey Hcell.
  unfold Js.find, Js.chain_bound. cbn [Nat.add].
  rewrite lookup_S, cell_lift, Hcell. cbn [option_map].
  unfold Js.own at 1. cbn [lift_cell Js.props Js.hidden Js.prototype].
  rewrite get_map. destruct (get key props) as [r|]; [reflexivity|].
  cbn [option_map get Js.Loc_eqb andb].
  rewrite lookup_S. cbn [Js.cell lift Js.object_prototype].
  unfold Js.own. rewrite Hprops. cbn [get].
  destruct (get key (Js.hidden op)); [reflexivity|].
  cbn [Js.Loc_eqb andb].
  apply String.eqb_neq in Hkey. rewrite Hkey, Hproto. reflexivity.
Qed.

Lemma write_lift (l : nat) (props : Own.Props) (h : Own.Heap) :
  Js.write l (lift_cell props) (map lift_cell h) =
  map lift_cell (Own.write l props h).
Proof.
  revert l. induction h as [|o rest IH]; intros l; [reflexivity|].
  destruct l as [|l]; cbn [Js.write Own.write map]; [reflexivity|].
  now rewrite IH.
Qed.

Lemma assign_lift (op ap : Js.Cell) (h : Own.Heap) (tl : nat)
      (key : string) (r : Own.Ref) :
  pristine op -> key <> "__proto__" ->
  Js.assign (lift op ap h) (Js.At tl) key (lift_ref r) =
  Js.Done (lift op ap (Own.assign tl key r h)) tt.
Proof.
  intros Hop Hkey. unfold Js.assign, Own.assign.
  rewrite cell_lift. destruct (nth_error h tl) as [props|] eqn:Hcell;
    [|reflexivity].
  cbn [option_map]. rewrite (find_lift op ap h tl props key Hop Hkey Hcell).
  assert (Hdefine :
            Js.put (lift op ap h) (Js.At tl)
                   (Js.define key (lift_ref r) (lift_cell props)) =
            lift op ap (Own.write tl (set key r props) h)).
  { unfold Js.put, lift, Js.define. cbn [Js.object_prototype
      Js.array_prototype Js.heap lift_cell Js.is_array Js.prototype
      Js.hidden Js.props].
    rewrite <- set_map. fold (lift_cell (set key r props)).
    now rewrite write_lift. }
  destruct (get key props) as [old|] eqn:Hget.
  - cbn [lift_cell Js.is_array Js.props Js.Loc_eqb]. rewrite Nat.eqb_refl.
    rewrite has_map. unfold has. rewrite Hget.
    fold (lift_cell props). now rewrite Hdefine.
  - destruct (get key (Js.hidden op));
      cbn [lift_cell Js.is_array Js.Loc_eqb]; now rewrite Hdefine.
Qed.

Lemma alloc_lift (op ap : Js.Cell) (h : Own.Heap) :
  Js.alloc (lift op ap h) =
  (Js.At (List.length h), lift op ap (snd (Own.alloc h))).
Proof.
  unfold Js.alloc, Own.alloc, lift. cbn [Js.heap Js.object_prototype
    Js.array_prototype snd].
  now rewrite length_map, map_app.
Qed.

Lemma read_lift (op ap : Js.Cell) (h : Own.Heap) (l : nat)
      (props : Own.Props) (key : string) (r : Own.Ref) :
  pristine op -> key <> "__proto__" -> nth_error h l = Some props ->
  get key props = Some r ->
  Js.read (lift op ap h) (Js.At l) key = lift_ref r.
Proof.
  intros Hop Hkey Hcell Hget. unfold Js.read.
  now rewrite (find_lift op ap h l props key Hop Hkey Hcell), Hget.
Qed.

Lemma Forall_write (P : Own.Props -> Prop) (l : nat) (props : Own.Props)
      (h : Own.Heap) :
  Forall P h -> P props -> Forall P (Own.write l props h).
Proof.
  intros Hall Hnew. revert l.
  induction Hall as [|o rest Ho Hrest IH]; intros l; [constructor|].
  destruct l as [|l]; cbn [Own.write]; constructor; auto.
Qed.

Lemma proto_free_assign (tl : nat) (key : string) (r : Own.Ref)
      (h : Own.Heap) :
  key <> "__proto__" -> proto_free_heap h ->
  proto_free_heap (Own.assign tl key r h).
Proof.
  intros Hkey Hfree. unfold Own.assign.
  destruct (nth_error h tl) as [props|] eqn:Hcell; [|exact Hfree].
  apply Forall_write; [exact Hfree|].
  rewrite get_set_other by congruence.
  unfold proto_free_heap in Hfree. rewrite Forall_forall in Hfree.
  apply Hfree. eapply nth_error_In. exact Hcell.
Qed.

Lemma proto_free_alloc (h : Own.Heap) :
  proto_free_heap h -> proto_free_heap (snd (Own.alloc h)).
Proof.
  intros Hfree. unfold Own.alloc. cbn [snd]. apply Forall_app.
  split; [exact Hfree | repeat constructor].
Qed.

(** On plain objects none of which has a key [__proto__], under an
    [Object.prototype] as the engine provides it, the merge is the merge on
    own properties. *)
Lemma js_loop_plain (op ap : Js.Cell)
      (rec_s : Own.Ref -> nat -> Own.Heap
               -> option (Own.Heap * Completion unit))
      (rec_j : Js.Ref -> Js.Loc -> Js.World -> Js.Outcome unit)
      (target : Own.Ref) :
  pristine op ->
  (forall child sl h,
      proto_free_heap h ->
      rec_j (lift_ref child) (Js.At sl) (lift op ap h) =
      lift_outcome op ap (rec_s child sl h)
      /\ forall h' c, rec_s child sl h = Some (h', c) -> proto_free_heap h') ->
  forall entries h,
    Forall (fun kv : string * Own.Ref => fst kv <> "__proto__") entries ->
    proto_free_heap h ->
    js_loop rec_j (lift_ref target) (map (on_snd lift_ref) entries)
            (lift op ap h) =
    lift_outcome op ap (own_loop rec_s target entries h)
    /\ forall h' c,
         own_loop rec_s target entries h = Some (h', c) ->
         proto_free_heap h'.
Proof.
  intros Hop Hrec. induction entries as [|[key value] rest IH];
    intros h Hkeys Hfree.
  - split; [reflexivity|]. intros h' c [= <- <-]. exact Hfree.
  - inversion Hkeys as [|? ? Hkey Hrest]; subst. cbn [fst] in Hkey.
    cbn [map on_snd fst snd js_loop own_loop].
    destruct target as [| | | | |tl];
      try (split; [reflexivity|]; intros h' c [= <- <-]; exact Hfree).
    cbn [lift_ref]. rewrite cell_lift.
    destruct (nth_error h tl) as [props|] eqn:Hcell;
      [|split; [reflexivity|]; intros h' c [= <- <-]; exact Hfree].
    cbn [option_map]. rewrite typeof_lift, is_null_lift, isArray_lift.
    destruct value as [| |b|n|s|sl].
    1-5: cbn [Own.typeof Own.is_null String.eqb Ascii.eqb Bool.eqb
              andb negb];
         match goal with
         | |- context [Js.assign _ _ _ (lift_ref ?v)] =>
             rewrite (assign_lift op ap h tl key v Hop Hkey)
         end;
         apply IH; [exact Hrest | now apply proto_free_assign].
    cbn [Own.typeof Own.is_null andb negb].
    change (String.eqb "object" "object") with true. cbn [andb lift_ref].
    unfold Js.key_in, Js.read at 1.
    rewrite (find_lift op ap h tl props key Hop Hkey Hcell).
    set (h1 := if negb (has key props)
                  || negb (String.eqb (Own.typeof (Own.read key props))
                                      "object")
               then let (l, h') := Own.alloc h in
                    Own.assign tl key (Own.RObject l) h'
               else h).
    assert (Hmade :
              (if negb
                    match
                      match get key props with
                      | Some r => Js.Data (lift_ref r) (Js.At tl)
                      | None =>
                          match get key (Js.hidden op) with
                          | Some r => Js.Data r Js.ObjectPrototype
                          | None => Js.Absent
                          end
                      end
                    with
                    | Js.Absent => false
                    | _ => true
                    end
                  || negb
                       (String.eqb
                          (Js.typeof
                             match
                               match get key props with
                               | Some r => Js.Data (lift_ref r) (Js.At tl)
                               | None =>
                                   match get key (Js.hidden op) with
                                   | Some r => Js.Data r Js.ObjectPrototype
                                   | None => Js.Absent
                                   end
                               end
                             with
                             | Js.Data r _ => r
                             | Js.ProtoAccessor =>
                                 match Js.cell (lift op ap h) (Js.At tl) with
                                 | Some c =>
                                     match Js.prototype c with
                                     | Some p => Js.RObject p
                                     | None => Js.RNull
                                     end
                                 | None => Js.RUndefined
                                 end
                             | Js.Absent => Js.RUndefined
                             end) "object")
               then let (l, w') := Js.alloc (lift op ap h) in
                    Js.assign w' (Js.At tl) key (Js.RObject l)
               else Js.Done (lift op ap h) tt)
              = Js.Done (lift op ap h1) tt
              /\ proto_free_heap h1
              /\ exists props1 r,
                   nth_error h1 tl = Some props1
                   /\ get key props1 = Some r).
    { subst h1. unfold has, Own.read.
      destruct (get key props) as [old|] eqn:Hget.
      - cbn [negb orb]. rewrite typeof_lift.
        destruct (negb (String.eqb (Own.typeof old) "object")).
        + rewrite alloc_lift. cbn [Own.alloc snd].
          change (Js.RObject (Js.At (List.length h)))
            with (lift_ref (Own.RObject (List.length h))).
          rewrite (assign_lift op ap _ tl key _ Hop Hkey).
          split; [reflexivity|]. split.
          * apply proto_free_assign; [exact Hkey|].
            exact (proto_free_alloc h Hfree).
          * unfold Own.assign.
            rewrite nth_error_app1 by (eapply nth_error_Some; congruence).
            rewrite Hcell, nth_error_write, Nat.eqb_refl.
            rewrite nth_error_app1 by (eapply nth_error_Some; congruence).
            rewrite Hcell. eexists _, _. split; [reflexivity|].
            apply get_set_same.
        + split; [reflexivity|]. split; [exact Hfree|].
          now exists props, old.
      - assert (Hcond :
                  negb match
                         match get key (Js.hidden op) with
                         | Some r => Js.Data r Js.ObjectPrototype
                         | None => Js.Absent
                         end
                       with Js.Absent => false | _ => true end
                  || negb
                       (String.eqb
                          (Js.typeof
                             match
                               match get key (Js.hidden op) with
                               | Some r => Js.Data r Js.ObjectPrototype
                               | None => Js.Absent
                               end
                             with
                             | Js.Data r _ => r
                             | Js.ProtoAccessor =>
                                 match Js.cell (lift op ap h) (Js.At tl) with
                                 | Some c =>
                                     match Js.prototype c with
                                     | Some p => Js.RObject p
                                     | None => Js.RNull
                                     end
                                 | None => Js.RUndefined
                                 end
                             | Js.Absent => Js.RUndefined
                             end) "object") = true).
        { destruct Hop as (_ & _ & Hfun).
          destruct (get key (Js.hidden op)) as [r|] eqn:Hh; [|reflexivity].
          now rewrite (Hfun key r Hh). }
        rewrite Hcond. cbn [negb orb Own.typeof].
        rewrite alloc_lift. cbn [Own.alloc snd].
        change (Js.RObject (Js.At (List.length h)))
          with (lift_ref (Own.RObject (List.length h))).
        rewrite (assign_lift op ap _ tl key _ Hop Hkey).
        split; [reflexivity|]. split.
        * apply proto_free_assign; [exact Hkey|].
          exact (proto_free_alloc h Hfree).
        * unfold Own.assign.
          rewrite nth_error_app1 by (eapply nth_error_Some; congruence).
          rewrite Hcell, nth_error_write, Nat.eqb_refl.
          rewrite nth_error_app1 by (eapply nth_error_Some; congruence).
          rewrite Hcell. eexists _, _. split; [reflexivity|].
          apply get_set_same. }
    destruct Hmade as (-> & Hfree1 & props1 & r & Hcell1 & Hget1).
    rewrite (read_lift op ap h1 tl props1 key r Hop Hkey Hcell1 Hget1).
    rewrite Hcell1. unfold Own.read. rewrite Hget1.
    destruct (Hrec r sl h1 Hfree1) as [Hcall Hkeep]. rewrite Hcall.
    destruct (rec_s r sl h1) as [[h2 [[]|e]]|] eqn:Hs; cbn [lift_outcome].
    + apply IH; [exact Hrest | exact (Hkeep _ _ eq_refl)].
    + split; [reflexivity|]. intros h' c [= <- <-]. exact (Hkeep _ _ eq_refl).
    + split; [reflexivity|]. discriminate.
Qed.

Lemma proto_free_entries (h : Own.Heap) (l : nat) (entries : Own.Props) :
  proto_free_heap h -> nth_error h l = Some entries ->
  Forall (fun kv : string * Own.Ref => fst kv <> "__proto__") entries.
Proof.
  intros Hfree Hcell. unfold proto_free_heap in Hfree.
  rewrite Forall_forall in Hfree.
  pose proof (Hfree entries (nth_error_In _ _ Hcell)) as Hnone.
  apply Forall_forall. intros [key value] Hin Heq. cbn [fst] in Heq. subst.
  clear Hcell Hfree. induction entries as [|[k v] rest IH]; [contradiction|].
  cbn [get] in Hnone. destruct (String.eqb k "__proto__") eqn:E;
    [discriminate|].
  destruct Hin as [Hin|Hin]; [|now apply IH].
  injection Hin as -> _. rewrite String.eqb_refl in E. discriminate.
Qed.

Lemma js_deepMerge_plain (op ap : Js.Cell) :
  pristine op ->
  forall fuel target source h,
    proto_free_heap h ->
    Js.deepMerge fuel (lift_ref target) (Js.At source) (lift op ap h) =
    lift_outcome op ap (Own.deepMerge fuel target source h)
    /\ forall h' c,
         Own.deepMerge fuel target source h = Some (h', c) ->
         proto_free_heap h'.
Proof.
  intros Hop. induction fuel as [|fuel IH]; intros target source h Hfree.
  - split; [reflexivity | discriminate].
  - rewrite js_deepMerge_eq, own_deepMerge_eq, cell_lift.
    destruct (nth_error h source) as [entries|] eqn:Hcell.
    + cbn [option_map lift_cell Js.props].
      apply (js_loop_plain op ap (Own.deepMerge fuel) (Js.deepMerge fuel)
               target Hop IH entries h); [|exact Hfree].
      exact (proto_free_entries h source entries Hfree Hcell).
    + split; [reflexivity|]. intros h' c [= <- <-]. exact Hfree.
Qed.

Lemma js_merge_all_plain (op ap : Js.Cell) (fuel merged : nat) :
  pristine op ->
  forall sources h,
    proto_free_heap h ->
    Js.merge_all fuel (Js.At merged) (map Js.At sources) (lift op ap h) =
    lift_outcome op ap (Own.merge_all fuel merged sources h)
    /\ forall h' c,
         Own.merge_all fuel merged sources h = Some (h', c) ->
         proto_free_heap h'.
Proof.
  intros Hop. induction sources as [|source rest IH]; intros h Hfree.
  - split; [reflexivity|]. intros h' c [= <- <-]. exact Hfree.
  - cbn [map Js.merge_all Own.merge_all].
    destruct (js_deepMerge_plain op ap Hop fuel (Own.RObject merged)
                source h Hfree) as [Hcall Hkeep].
    cbn [lift_ref] in Hcall. rewrite Hcall.
    destruct (Own.deepMerge fuel (Own.RObject merged) source h)
      as [[h1 [[]|e]]|]; cbn [lift_outcome].
    + apply IH. exact (Hkeep _ _ eq_refl).
    + split; [reflexivity|]. intros h' c [= <- <-].
      exact (Hkeep _ _ eq_refl).
    + split; [reflexivity | discriminate].
Qed.

(** [Js.mergeLocaleData] on plain objects, by the merge on own
    properties. *)
Lemma js_mergeLocaleData_plain (op ap : Js.Cell) (fuel : nat)
      (sources : list nat) (h : Own.Heap) :
  pristine op -> proto_free_heap h ->
  Js.mergeLocaleData fuel (map Js.At sources) (lift op ap h) =
  match snd (Own.mergeLocaleData fuel sources h) with
  | Some (h', Normal _) => Js.Done (lift op ap h') (Js.At (List.length h))
  | Some (h', Throw e) => Js.Raised (lift op ap h') e
  | None => Js.Unfinished
  end
  /\ forall h' c,
       snd (Own.mergeLocaleData fuel sources h) = Some (h', c) ->
       proto_free_heap h'.
Proof.
  intros Hop Hfree. unfold Js.mergeLocaleData, Own.mergeLocaleData.
  rewrite alloc_lift. cbn [Own.alloc snd].
  destruct (js_merge_all_plain op ap fuel (List.length h) Hop sources
              (h ++ [[]])%list (proto_free_alloc h Hfree)) as [Hcall Hkeep].
  rewrite Hcall.
  destruct (Own.merge_all fuel (List.length h) sources (h ++ [[]])%list)
    as [[h1 [[]|e]]|]; cbn [lift_outcome]; (split; [reflexivity|]);
    try discriminate; intros h' c [= <- <-]; exact (Hkeep _ _ eq_refl).
Qed.

(** ** The emitter on plain objects *)

Lemma js_processLocaleData_eq (fuel : nat) (w : Js.World) (data : Js.Loc)
      (depth : nat) :
  Js.processLocaleData (S fuel) w data depth =
  match Js.cell w data with
  | None => None
  | Some c =>
      match js_emitter_loop
              (fun l => Js.processLocaleData fuel w l (depth + 1)) depth
              (Js.props c) [] with
      | Some lines => Some (String.concat LF lines)
      | None => None
      end
  end.
Proof. reflexivity. Qed.

Lemma js_emitter_loop_holds (rec : Js.Loc -> option string) (depth : nat)
      (props : list (string * Located)) :
  Forall (fun kv =>
            match snd kv with
            | LObject l _ =>
                rec (Js.At l) =
                Some (processLocaleData_in (erase (snd kv)) (depth + 1))
            | LString _ => True
            end) props ->
  forall lines,
    js_emitter_loop rec depth
      (map (on_snd lift_ref) (map (on_snd ref_of) props)) lines =
    Some (emitter_loop depth (map (on_snd erase) props) lines).
Proof.
  induction 1 as [|[key child] rest Hchild _ IH]; intros lines;
    [reflexivity|].
  cbn [map on_snd fst snd js_emitter_loop emitter_loop].
  destruct child as [s|l children]; cbn [ref_of lift_ref erase].
  - apply IH.
  - cbn [snd] in Hchild. rewrite Hchild.
    cbn [typeof is_null andb negb].
    change (String.eqb "object" "object") with true. cbn [andb erase].
    apply IH.
Qed.

Lemma js_processLocaleData_holds (op ap : Js.Cell) (h : Own.Heap)
      (t : Located) :
  holds h t ->
  forall fuel depth0,
    depth (erase t) <= fuel ->
    match t with
    | LObject l _ =>
        Js.processLocaleData fuel (lift op ap h) (Js.At l) depth0 =
        Some (processLocaleData_in (erase t) depth0)
    | LString _ => True
    end.
Proof.
  induction t as [s|l props IH] using Located_nested_ind; [trivial|].
  intros Hholds fuel depth0 Hfuel. apply holds_object in Hholds.
  destruct Hholds as [Hcell Hchildren].
  destruct fuel as [|fuel]; [cbn [erase depth] in Hfuel; lia|].
  rewrite js_processLocaleData_eq, cell_lift, Hcell.
  cbn [option_map lift_cell Js.props erase].
  rewrite processLocaleData_in_object.
  rewrite (js_emitter_loop_holds _ depth0 props); [reflexivity|].
  rewrite Forall_forall in IH, Hchildren. apply Forall_forall.
  intros [key child] Hin. cbn [snd].
  pose proof (IH _ Hin (Hchildren _ Hin) fuel (depth0 + 1)) as IHchild.
  cbn [snd] in IHchild.
  destruct child as [s|l' children]; [trivial|]. apply IHchild.
  assert (Hlt : depth (erase (LObject l' children))
                < depth (erase (LObject l props))).
  { cbn [erase]. apply (depth_entry key).
    apply in_map_iff. exists (key, LObject l' children).
    split; [reflexivity | exact Hin]. }
  lia.
Qed.

(** ** The depth of a merged tree *)

Lemma depth_object_cons (key : string) (v : Value) (o : Obj) :
  depth (VObject ((key, v) :: o)) =
  Nat.max (S (depth v)) (depth (VObject o)).
Proof. cbn [depth fold_right snd]. lia. Qed.

Lemma depth_object_app (a b : Obj) :
  depth (VObject (a ++ b)) = Nat.max (depth (VObject a)) (depth (VObject b)).
Proof.
  induction a as [|[k v] a IH]; [cbn [app depth fold_right]; lia|].
  cbn [app]. rewrite !depth_object_cons, IH. lia.
Qed.

Lemma depth_set (key : string) (v : Value) (o : Obj) :
  depth (VObject (set key v o))
  <= Nat.max (depth (VObject o)) (S (depth v)).
Proof.
  destruct (set_split key v o) as (o1 & o2 & -> & [[_ ->]|(old & _ & ->)]);
    rewrite !depth_object_app, ?depth_object_cons; lia.
Qed.

Lemma depth_get (key : string) (v : Value) (o : Obj) :
  get key o = Some v -> depth v < depth (VObject o).
Proof. intros H. apply (depth_entry key). now apply get_In. Qed.

Lemma merge_loop_depth (source : Value) :
  forall entries, source = VObject entries ->
  forall target merged,
    merge_loop entries target = Normal merged ->
    depth (VObject merged)
    <= Nat.max (depth (VObject target)) (depth source).
Proof.
  induction source as [| | | | |props IH] using Value_nested_ind;
    try discriminate.
  intros entries [= <-].
  induction IH as [|[key value] rest IHvalue _ IHrest];
    intros target merged Hrun.
  - injection Hrun as <-. lia.
  - cbn [snd] in IHvalue. cbn [merge_loop] in Hrun.
    rewrite depth_object_cons.
    destruct (String.eqb (typeof value) "object" && negb (is_null value))
      eqn:Hobject.
    + destruct value as [| | | | |sub]; try discriminate.
      set (target1 := if negb (has key target)
                         || negb (String.eqb (typeof (read key target))
                                             "object")
                      then set key (VObject []) target else target) in *.
      assert (Htarget1 : depth (VObject target1)
                         <= Nat.max (depth (VObject target)) 2).
      { subst target1. destruct (_ || _); [|lia].
        pose proof (depth_set key (VObject []) target) as H.
        cbn [depth fold_right] in H |- *. lia. }
      assert (Hsub : 1 <= depth (VObject sub)) by (cbn [depth]; lia).
      unfold read in Hrun.
      destruct (get key target1) as [stored|] eqn:Hget.
      * destruct stored as [| | | | |child].
        1-5: destruct sub as [|? ?]; try discriminate;
             apply IHrest in Hrun; lia.
        change (deepMerge_in (VObject sub) child)
          with (merge_loop sub child) in Hrun.
        destruct (merge_loop sub child) as [child'|e] eqn:Hchild;
          [|discriminate].
        cbn [bind] in Hrun. apply IHrest in Hrun.
        pose proof (IHvalue sub eq_refl child child' Hchild) as Hc.
        pose proof (depth_get _ _ _ Hget) as Hg.
        assert (Hover : depth (VObject (overwrite key (VObject child') target1))
                        <= Nat.max (depth (VObject target1))
                                   (S (depth (VObject child')))).
        { rewrite overwrite_has
            by (unfold has; now rewrite Hget).
          apply depth_set. }
        lia.
      * destruct sub as [|? ?]; try discriminate. apply IHrest in Hrun. lia.
    + apply IHrest in Hrun.
      pose proof (depth_set key value target). lia.
Qed.

Lemma mergeLocaleData_loop_depth (fuel : nat) (sources : list Obj) :
  (forall tree, In tree sources -> depth (VObject tree) <= fuel) ->
  forall acc merged,
    depth (VObject acc) <= fuel ->
    mergeLocaleData_loop sources acc = Normal merged ->
    depth (VObject merged) <= fuel.
Proof.
  induction sources as [|source rest IH]; intros Hfuel acc merged Hacc Hrun.
  - injection Hrun as <-. exact Hacc.
  - cbn [mergeLocaleData_loop] in Hrun.
    destruct (deepMerge acc source) as [acc'|e] eqn:Hstep; [|discriminate].
    cbn [bind] in Hrun.
    apply (IH (fun tree Hin => Hfuel tree (or_intror Hin)) acc' merged);
      [|exact Hrun].
    rewrite deepMerge_loop in Hstep.
    pose proof (merge_loop_depth (VObject source) source eq_refl _ _ Hstep).
    pose proof (Hfuel source (or_introl eq_refl)). lia.
Qed.

(** ** A run on plain objects *)

Lemma represents_later (h0 h : Own.Heap) (v : Value) (r : Own.Ref) :
  firstn (List.length h0) h = h0 ->
  Own.represents (List.length h0) h0 v r ->
  Own.represents (List.length h) h v r.
Proof.
  intros Hprefix Hrep.
  assert (Hle : List.length h0 <= List.length h).
  { rewrite <- Hprefix at 1. rewrite length_firstn. lia. }
  apply (represents_mono (List.length h0) (List.length h) h v Hle).
  apply (represents_stable (List.length h0) h0 h v); [|exact Hrep].
  rewrite Hprefix. symmetry. apply firstn_all.
Qed.

Lemma firstn_prefix_trans {A : Type} (h0 h h' : list A) :
  firstn (List.length h0) h = h0 -> firstn (List.length h) h' = h ->
  firstn (List.length h0) h' = h0.
Proof.
  intros H0 H1.
  assert (Hle : List.length h0 <= List.length h).
  { rewrite <- H0 at 1. rewrite length_firstn. lia. }
  rewrite <- H1 in H0. rewrite firstn_firstn in H0.
  now rewrite Nat.min_l in H0 by exact Hle.
Qed.

Lemma js_generateTessenDeclaration_plain (op ap : Js.Cell) (fuel : nat)
      (tessen : Tessen) (sources : list nat) (count i : nat)
      (h : Own.Heap) :
  pristine op -> proto_free_heap h -> 1 <= fuel ->
  Forall2 (fun tree sl =>
             Own.represents (List.length h) h (VObject tree)
                              (Own.RObject sl))
          (tessen_sources tessen) sources ->
  (forall tree, In tree (tessen_sources tessen) ->
                shape (VObject tree) = true
                /\ depth (VObject tree) <= fuel) ->
  exists h' localeData,
    Js.generateTessenDeclaration fuel (map Js.At sources)
      (if Nat.ltb 1 count then Some i else None) (lift op ap h)
    = Js.Done (lift op ap h')
              (declaration_block (client_annotation count i)
                                 (processLocaleData localeData 0))
    /\ extractPlainLocaleDataFromTessen tessen = Normal localeData
    /\ firstn (List.length h) h' = h
    /\ proto_free_heap h'.
Proof.
  intros Hop Hfree Hfuel Htrees Hall.
  destruct (own_mergeLocaleData_refines fuel h (tessen_sources tessen)
              sources Htrees)
    as (h' & t' & Hrun & Hpure & Hholds & Hframe).
  { apply Forall_forall. intros tree Hin. now apply Hall. }
  { intros tree Hin. now apply Hall. }
  destruct (js_mergeLocaleData_plain op ap fuel sources h Hop Hfree)
    as [Hjs Hkeep].
  rewrite Hrun in Hjs, Hkeep. cbn [snd] in Hjs, Hkeep.
  exists h', (map (on_snd erase) t').
  unfold Js.generateTessenDeclaration. rewrite Hjs.
  assert (Hdepth : depth (erase (LObject (List.length h) t')) <= fuel).
  { cbn [erase].
    apply (mergeLocaleData_loop_depth fuel (tessen_sources tessen)
             (fun tree Hin => proj2 (Hall tree Hin)) []);
      [cbn [depth fold_right]; lia | exact Hpure]. }
  pose proof (js_processLocaleData_holds op ap h' _ Hholds fuel 0 Hdepth)
    as Hemit.
  cbn beta iota in Hemit. rewrite Hemit. cbn [erase].
  split.
  - f_equal. unfold declaration_block, client_annotation, processLocaleData.
    cbn [String.concat].
    destruct (Nat.ltb 1 count); rewrite ?append_nil_r; reflexivity.
  - split.
    + unfold extractPlainLocaleDataFromTessen.
      rewrite merge_locales_sources. exact Hpure.
    + split; [exact Hframe | exact (Hkeep _ _ eq_refl)].
Qed.

Lemma js_declarations_plain (op ap : Js.Cell) (fuel count : nat)
      (h0 : Own.Heap) :
  pristine op -> 1 <= fuel ->
  forall (rest : list Tessen) (sources : list (list nat)),
    Forall2 (fun tessen locs =>
               Forall2 (fun tree sl =>
                          Own.represents (List.length h0) h0 (VObject tree)
                                           (Own.RObject sl))
                       (tessen_sources tessen) locs)
            rest sources ->
    (forall tessen tree,
        In tessen rest -> In tree (tessen_sources tessen) ->
        shape (VObject tree) = true /\ depth (VObject tree) <= fuel) ->
    forall i declarations h,
      proto_free_heap h -> firstn (List.length h0) h = h0 ->
      exists h' blocks,
        Js.declarations_from fuel count i (map (map Js.At) sources)
                             declarations (lift op ap h)
        = Js.Done (lift op ap h') (declarations ++ blocks)%list
        /\ client_blocks count i (map extractPlainLocaleDataFromTessen rest)
           = Normal blocks
        /\ firstn (List.length h0) h' = h0
        /\ proto_free_heap h'.
Proof.
  intros Hop Hfuel rest sources Hrep.
  induction Hrep as [|tessen locs rest sources Htessen _ IH];
    intros Hall i declarations h Hfree Hprefix.
  - exists h, []. rewrite app_nil_r. repeat split; assumption.
  - cbn [map Js.declarations_from client_blocks].
    destruct (js_generateTessenDeclaration_plain op ap fuel tessen locs
                count i h Hop Hfree Hfuel)
      as (h1 & localeData & Hrun & Hpure & Hframe & Hfree1).
    { eapply Forall2_impl; [|exact Htessen].
      intros tree sl. now apply represents_later. }
    { intros tree Hin. apply (Hall tessen tree); [now left | exact Hin]. }
    rewrite Hrun, Hpure. cbn [bind].
    destruct (IH (fun t tree Ht => Hall t tree (or_intror Ht)) (S i)
                (push declarations
                      (declaration_block (client_annotation count i)
                                         (processLocaleData localeData 0)))
                h1 Hfree1 (firstn_prefix_trans h0 h h1 Hprefix Hframe))
      as (h' & blocks & Hloop & Hblocks & Hframe' & Hfree').
    exists h', (declaration_block (client_annotation count i)
                                  (processLocaleData localeData 0) :: blocks).
    replace (i + 1) with (S i) by lia. rewrite Hloop, Hblocks.
    cbn [bind]. unfold push. rewrite <- app_assoc.
    repeat split; assumption.
Qed.

Lemma js_generateLocalizationTypes_plain (op ap : Js.Cell) (fuel : nat)
      (config : TypeGenerationConfig) (sources : list (list nat))
      (h : Own.Heap) :
  pristine op -> proto_free_heap h -> 1 <= fuel ->
  Forall2 (fun tessen locs =>
             Forall2 (fun tree sl =>
                        Own.represents (List.length h) h (VObject tree)
                                         (Own.RObject sl))
                     (tessen_sources tessen) locs)
          (tessens config) sources ->
  (forall tessen tree,
      In tessen (tessens config) -> In tree (tessen_sources tessen) ->
      shape (VObject tree) = true /\ depth (VObject tree) <= fuel) ->
  exists h' text,
    Js.generateLocalizationTypes fuel (map (map Js.At) sources)
                                 (lift op ap h)
    = Js.Done (lift op ap h') text
    /\ generateLocalizationTypes config = Normal text
    /\ firstn (List.length h) h' = h
    /\ proto_free_heap h'.
Proof.
  intros Hop Hfree Hfuel Hrep Hall.
  destruct (js_declarations_plain op ap fuel (List.length (tessens config))
              h Hop Hfuel (tessens config) sources Hrep Hall 0 [] h Hfree
              (firstn_all h))
    as (h' & blocks & Hloop & Hblocks & Hframe & Hfree').
  exists h', (blank_line_join blocks).
  unfold Js.generateLocalizationTypes.
  rewrite length_map, <- (Forall2_length Hrep), Hloop.
  split; [reflexivity|]. split.
  - rewrite generateLocalizationTypes_blocks, Hblocks. reflexivity.
  - split; assumption.
Qed.

(** ** The code without a key [__proto__] *)

Lemma realm_pristine : pristine (Js.object_prototype Js.realm).
Proof.
  split; [reflexivity|]. split; [reflexivity|].
  intros key r. cbn [Js.realm Js.object_prototype Js.hidden map get].
  repeat (destruct (String.eqb _ key); [now intros [= <-]|]).
  discriminate.
Qed.

(** X17. Where no object has a key [__proto__] the merge on the objects of
    the engine is the merge on the trees.  For objects that are not
    arrays, have [Object.prototype] as their prototype and hold the
    Shape Nodes [trees], with an [Object.prototype] whose own properties
    are its methods: [Js.mergeLocaleData] returns a new object, that
    object holds the tree which [mergeLocaleData] gives for [trees], the
    two prototypes are as they were, and so are the objects that were
    there before the call. *)
Theorem mergeLocaleData_on_objects (op ap : Js.Cell) (fuel : nat)
        (h : Own.Heap) (trees : list Obj) (sources : list nat) :
  pristine op -> proto_free_heap h ->
  Forall2 (fun tree sl =>
             Own.represents (List.length h) h (VObject tree) (Own.RObject sl))
          trees sources ->
  Forall (fun tree => shape (VObject tree) = true) trees ->
  (forall tree, In tree trees -> depth (VObject tree) <= fuel) ->
  exists h' merged,
    Js.mergeLocaleData fuel (map Js.At sources) (lift op ap h)
    = Js.Done (lift op ap h') (Js.At (List.length h))
    /\ mergeLocaleData trees = Normal (map (on_snd erase) merged)
    /\ holds h' (LObject (List.length h) merged)
    /\ firstn (List.length h) h' = h
    /\ proto_free_heap h'.
Proof.
  intros Hop Hfree Htrees Hshapes Hdepth.
  destruct (own_mergeLocaleData_refines fuel h trees sources Htrees Hshapes
              Hdepth) as (h' & merged & Hrun & Hpure & Hholds & Hframe).
  destruct (js_mergeLocaleData_plain op ap fuel sources h Hop Hfree)
    as [Hjs Hkeep].
  rewrite Hrun in Hjs, Hkeep. cbn [snd] in Hjs, Hkeep.
  exists h', merged.
  split; [exact Hjs|]. split; [exact Hpure|]. split; [exact Hholds|].
  split; [exact Hframe|]. exact (Hkeep h' (Normal tt) eq_refl).
Qed.

Lemma mergeLocaleData_on_objects_witness :
  exists h' merged,
    Js.mergeLocaleData 2 (map Js.At [0; 2])
      (lift (Js.object_prototype Js.realm) (Js.array_prototype Js.realm)
            [[("a", Own.RString "x"); ("n", Own.RObject 1)];
             [("y", Own.RString "Y")];
             [("n", Own.RObject 1); ("a", Own.RString "z")]])
    = Js.Done
        (lift (Js.object_prototype Js.realm) (Js.array_prototype Js.realm) h')
        (Js.At 3)
    /\ mergeLocaleData
         [[("a", VString "x"); ("n", VObject [("y", VString "Y")])];
          [("n", VObject [("y", VString "Y")]); ("a", VString "z")]]
       = Normal (map (on_snd erase) merged).
Proof.
  destruct (mergeLocaleData_on_objects
              (Js.object_prototype Js.realm) (Js.array_prototype Js.realm) 2
              [[("a", Own.RString "x"); ("n", Own.RObject 1)];
               [("y", Own.RString "Y")];
               [("n", Own.RObject 1); ("a", Own.RString "z")]]
              [[("a", VString "x"); ("n", VObject [("y", VString "Y")])];
               [("n", VObject [("y", VString "Y")]); ("a", VString "z")]]
              [0; 2])
    as (h' & merged & Hrun & Hpure & _).
  - exact realm_pristine.
  - repeat constructor.
  - repeat constructor; cbn; repeat split; try lia;
      eexists; split; try reflexivity; cbn; repeat split; try lia;
      eexists; split; try reflexivity; cbn; repeat split.
  - repeat constructor.
  - intros v [<-|[<-|[]]]; cbn; lia.
  - exists h', merged. split; [exact Hrun | exact Hpure].
Defined.

(** X18. Where no object has a key [__proto__], a merge on the objects of
    the engine returns, whatever the properties hold: for objects that
    are not arrays and have [Object.prototype] as their prototype,
    [Js.mergeLocaleData] ends, within a depth of calls that is the depth
    of the sources, with its accumulator or with a [TypeError], and the
    objects that were there before the call are as they were. *)
Theorem mergeLocaleData_on_objects_returns (op ap : Js.Cell) (fuel : nat)
        (h : Own.Heap) (trees : list Value) (sources : list nat) :
  pristine op -> proto_free_heap h ->
  Forall2 (fun v sl => Own.represents (List.length h) h v (Own.RObject sl))
          trees sources ->
  (forall v, In v trees -> depth v <= fuel) ->
  exists h',
    (Js.mergeLocaleData fuel (map Js.At sources) (lift op ap h)
     = Js.Done (lift op ap h') (Js.At (List.length h))
     \/ Js.mergeLocaleData fuel (map Js.At sources) (lift op ap h)
        = Js.Raised (lift op ap h') TypeError)
    /\ firstn (List.length h) h' = h.
Proof.
  intros Hop Hfree Htrees Hdepth.
  destruct (own_mergeLocaleData_returns fuel h trees sources Htrees Hdepth)
    as (h' & c & Hrun & Hframe & _).
  destruct (js_mergeLocaleData_plain op ap fuel sources h Hop Hfree)
    as [Hjs _].
  rewrite Hrun in Hjs. exists h'. split; [|exact Hframe].
  destruct c as [[]|[]]; [left | right]; exact Hjs.
Qed.

Lemma mergeLocaleData_on_objects_returns_witness :
  exists h',
    (Js.mergeLocaleData 2 (map Js.At [0; 1])
       (lift (Js.object_prototype Js.realm) (Js.array_prototype Js.realm)
             [[("k", Own.RNull); ("n", Own.RNumber 0)];
              [("k", Own.RObject 2)];
              [("a", Own.RString "A")]])
     = Js.Done
         (lift (Js.object_prototype Js.realm) (Js.array_prototype Js.realm)
               h')
         (Js.At 3)
     \/ Js.mergeLocaleData 2 (map Js.At [0; 1])
          (lift (Js.object_prototype Js.realm) (Js.array_prototype Js.realm)
                [[("k", Own.RNull); ("n", Own.RNumber 0)];
                 [("k", Own.RObject 2)];
                 [("a", Own.RString "A")]])
        = Js.Raised
            (lift (Js.object_prototype Js.realm)
                  (Js.array_prototype Js.realm) h')
            TypeError)
    /\ firstn 3 h' = [[("k", Own.RNull); ("n", Own.RNumber 0)];
                      [("k", Own.RObject 2)];
                      [("a", Own.RString "A")]].
Proof.
  apply (mergeLocaleData_on_objects_returns
           (Js.object_prototype Js.realm) (Js.array_prototype Js.realm) 2
           [[("k", Own.RNull); ("n", Own.RNumber 0)];
            [("k", Own.RObject 2)];
            [("a", Own.RString "A")]]
           [VObject [("k", VNull); ("n", VNumber 0)];
            VObject [("k", VObject [("a", VString "A")])]]
           [0; 1]).
  - exact realm_pristine.
  - repeat constructor.
  - repeat constructor; cbn; repeat split; try lia;
      eexists; split; try reflexivity; cbn; repeat split; try lia;
      eexists; split; try reflexivity; cbn; repeat split.
  - intros v [<-|[<-|[]]]; cbn; lia.
Defined.

(** X19. Where no object has a key [__proto__], two runs in one process
    give the same text.  For objects that are not arrays, have
    [Object.prototype] as their prototype and hold the Shape Nodes that
    the normalizer merges for the Tessens of [config], with an
    [Object.prototype] whose own properties are its methods:
    [Js.generateLocalizationTypes] returns, a second run on the objects
    that the first one left returns the same text, this text is what
    [generateLocalizationTypes] gives for [config], and after both runs
    the two prototypes and the objects of the Sources are as they were. *)
Theorem generateLocalizationTypes_two_runs (op ap : Js.Cell) (fuel : nat)
        (config : TypeGenerationConfig) (sources : list (list nat))
        (h : Own.Heap) :
  pristine op -> proto_free_heap h -> 1 <= fuel ->
  Forall2 (fun tessen locs =>
             Forall2 (fun tree sl =>
                        Own.represents (List.length h) h (VObject tree)
                                         (Own.RObject sl))
                     (tessen_sources tessen) locs)
          (tessens config) sources ->
  (forall tessen tree,
      In tessen (tessens config) -> In tree (tessen_sources tessen) ->
      shape (VObject tree) = true /\ depth (VObject tree) <= fuel) ->
  exists h1 h2 text,
    Js.generateLocalizationTypes fuel (map (map Js.At) sources)
                                 (lift op ap h)
    = Js.Done (lift op ap h1) text
    /\ Js.generateLocalizationTypes fuel (map (map Js.At) sources)
                                    (lift op ap h1)
       = Js.Done (lift op ap h2) text
    /\ generateLocalizationTypes config = Normal text
    /\ firstn (List.length h) h2 = h.
Proof.
  intros Hop Hfree Hfuel Hrep Hall.
  destruct (js_generateLocalizationTypes_plain op ap fuel config sources h
              Hop Hfree Hfuel Hrep Hall)
    as (h1 & text & Hrun1 & Hpure1 & Hframe1 & Hfree1).
  destruct (js_generateLocalizationTypes_plain op ap fuel config sources h1
              Hop Hfree1 Hfuel)
    as (h2 & text' & Hrun2 & Hpure2 & Hframe2 & _).
  { eapply Forall2_impl; [|exact Hrep]. intros tessen locs Htessen.
    eapply Forall2_impl; [|exact Htessen].
    intros tree sl. now apply represents_later. }
  { exact Hall. }
  rewrite Hpure1 in Hpure2. injection Hpure2 as <-.
  exists h1, h2, text. repeat split; try assumption.
  exact (firstn_prefix_trans h h1 h2 Hframe1 Hframe2).
Qed.

Lemma generateLocalizationTypes_two_runs_witness :
  exists h1 h2 text,
    Js.generateLocalizationTypes 2 (map (map Js.At) [[0; 2]])
      (lift (Js.object_prototype Js.realm) (Js.array_prototype Js.realm)
            [[("n", Own.RObject 1)];
             [("b", Own.RString "B")];
             [("a", Own.RString "{0}")]])
    = Js.Done
        (lift (Js.object_prototype Js.realm) (Js.array_prototype Js.realm) h1)
        text
    /\ Js.generateLocalizationTypes 2 (map (map Js.At) [[0; 2]])
         (lift (Js.object_prototype Js.realm) (Js.array_prototype Js.realm)
               h1)
       = Js.Done
           (lift (Js.object_prototype Js.realm) (Js.array_prototype Js.realm)
                 h2)
           text
    /\ generateLocalizationTypes
         (mkConfig
            [mkTessen
               [("en", mkLocale
                         (Some [("x", mkContentEntry "en"
                                        (Some [("n", VObject
                                                       [("b", VString "B")])]));
                                ("y", mkContentEntry "en"
                                        (Some [("a", VString "{0}")]))])
                         [])]]
            None)
       = Normal text.
Proof.
  destruct (generateLocalizationTypes_two_runs
              (Js.object_prototype Js.realm) (Js.array_prototype Js.realm) 2
              (mkConfig
                 [mkTessen
                    [("en", mkLocale
                              (Some [("x", mkContentEntry "en"
                                             (Some [("n", VObject
                                                            [("b", VString
                                                                     "B")])]));
                                     ("y", mkContentEntry "en"
                                             (Some [("a", VString "{0}")]))])
                              [])]]
                 None)
              [[0; 2]]
              [[("n", Own.RObject 1)];
               [("b", Own.RString "B")];
               [("a", Own.RString "{0}")]])
    as (h1 & h2 & text & Hrun1 & Hrun2 & Hpure & _).
  - exact realm_pristine.
  - repeat constructor.
  - lia.
  - repeat constructor; cbn; repeat split; try lia;
      eexists; split; try reflexivity; cbn; repeat split; try lia;
      eexists; split; try reflexivity; cbn; repeat split.
  - intros tessen tree [<-|[]] [<-|[<-|[]]]; split; try reflexivity;
      cbn; lia.
  - exists h1, h2, text. split; [exact Hrun1|]. split; [exact Hrun2|].
    exact Hpure.
Defined.

(** ** Values without a key [__proto__] *)







(* ================================================================== *)
(** * The merge of Shape Nodes without a key [__proto__] *)





(* ================================================================== *)
(** * The order of the keys on the objects of the engine *)

Lemma keys_on_snd {A B : Type} (f : A -> B) (o : list (string * A)) :
  keys (map (on_snd f) o) = keys o.
Proof.
  unfold keys. rewrite map_map. apply map_ext. now intros [k v].
Qed.

(** X22. Where no object has a key [__proto__] and no key at the root of a
    source is an array index, the accumulator that the merge on the objects
    of the engine returns lists its own keys in first-seen insertion order
    across all the sources. *)
Theorem mergeLocaleData_on_objects_key_order (op ap : Js.Cell) (fuel : nat)
        (h : Own.Heap) (trees : list Obj) (sources : list nat) :
  pristine op -> proto_free_heap h ->
  Forall2 (fun tree sl =>
             Own.represents (List.length h) h (VObject tree) (Own.RObject sl))
          trees sources ->
  Forall (fun tree => shape (VObject tree) = true) trees ->
  Forall (fun tree => Forall plain_key (keys tree)) trees ->
  (forall tree, In tree trees -> depth (VObject tree) <= fuel) ->
  exists w' merged,
    Js.mergeLocaleData fuel (map Js.At sources) (lift op ap h)
    = Js.Done w' (Js.At (List.length h))
    /\ Js.cell w' (Js.At (List.length h)) = Some merged
    /\ keys (Js.props merged) = first_seen (concat (map keys trees)).
Proof.
  intros Hop Hfree Htrees Hshapes Hplain Hdepth.
  destruct (own_mergeLocaleData_refines fuel h trees sources Htrees Hshapes
              Hdepth) as (h' & t & Hrun & Hpure & Hholds & _).
  destruct (js_mergeLocaleData_plain op ap fuel sources h Hop Hfree)
    as [Hjs _].
  rewrite Hrun in Hjs. cbn [snd] in Hjs.
  apply holds_object in Hholds. destruct Hholds as [Hcell _].
  exists (lift op ap h'), (lift_cell (map (on_snd ref_of) t)).
  split; [exact Hjs|]. split.
  - rewrite cell_lift, Hcell. reflexivity.
  - cbn [lift_cell Js.props]. rewrite !keys_on_snd.
    rewrite <- (keys_on_snd erase t).
    exact (mergeLocaleData_loop_keys trees Hplain [] _ Hpure).
Qed.

Lemma mergeLocaleData_on_objects_key_order_witness :
  exists w' merged,
    Js.mergeLocaleData 2 (map Js.At [0; 2])
      (lift (Js.object_prototype Js.realm) (Js.array_prototype Js.realm)
            [[("a", Own.RString "A1"); ("toString", Own.RObject 1)];
             [("b", Own.RString "B1")];
             [("c", Own.RString "C2"); ("a", Own.RString "A2")]])
    = Js.Done w' (Js.At 3)
    /\ Js.cell w' (Js.At 3) = Some merged
    /\ keys (Js.props merged) = ["a"; "toString"; "c"].
Proof.
  apply (mergeLocaleData_on_objects_key_order
           (Js.object_prototype Js.realm) (Js.array_prototype Js.realm) 2
           [[("a", Own.RString "A1"); ("toString", Own.RObject 1)];
            [("b", Own.RString "B1")];
            [("c", Own.RString "C2"); ("a", Own.RString "A2")]]
           [[("a", VString "A1");
             ("toString", VObject [("b", VString "B1")])];
            [("c", VString "C2"); ("a", VString "A2")]]
           [0; 2]).
  - exact realm_pristine.
  - repeat constructor.
  - repeat constructor; cbn; repeat split; try lia;
      eexists; split; try reflexivity; cbn; repeat split; try lia;
      eexists; split; try reflexivity; cbn; repeat split.
  - repeat constructor.
  - repeat constructor.
  - intros v [<-|[<-|[]]]; cbn; lia.
Defined.
